(** * gdb: condition binder, node selector, transactions and result mapping

    A shallow embedding of the parts of package [gdb] that decide how
    arguments are bound to placeholders, how a configuration node is picked
    by weight, how the closure-based transaction helper ends a transaction,
    how a model deletes and reads, and how empty results are mapped; and
    of their neighbours: the quoting of names and table names, the
    composition of conditions from a field name, a pair list or a primary
    key, the conversion of rows into records, the query cache, the
    chunking and keying of results, and the statement written out for
    logs.

    Go strings are byte strings ([string]); Go [int] counters that only
    range over lengths of in-memory data are [nat]; configured weights are
    64-bit signed integers with their wrap-around written out. *)

From Stdlib Require Import ZArith Lia String Ascii List Bool.
From stdpp Require Import gmap strings list fin_maps.

Set Warnings "-register-all,-clear-no-such-hyp".
Set Default Proof Using "Type".

(** ** Byte strings: the helpers of [strings], [gstr] and [gregex] in use *)

Module Str.

(** [strings.Repeat(s, n)] *)
Fixpoint Repeat (s : string) (n : nat) : string :=
  match n with
  | O => ""
  | S k => s +:+ Repeat s k
  end.

(** [gstr.Count(s, "?")]: the number of placeholder bytes in [s]. *)
Fixpoint CountHolder (s : string) : nat :=
  match s with
  | EmptyString => 0
  | String c rest =>
      if Ascii.eqb c "?" then S (CountHolder rest) else CountHolder rest
  end.

(** [gstr.Contains(s, "?")] *)
Definition ContainsHolder (s : string) : bool :=
  negb (Nat.eqb (CountHolder s) 0).

Definition lowerChar (c : ascii) : ascii :=
  let n := nat_of_ascii c in
  if (Nat.leb 65 n && Nat.leb n 90)%bool then ascii_of_nat (n + 32) else c.

(** [strings.ToLower] on ASCII text. *)
Fixpoint ToLower (s : string) : string :=
  match s with
  | EmptyString => EmptyString
  | String c rest => String (lowerChar c) (ToLower rest)
  end.

(** [gstr.PosI(haystack, needle)]: the first index of [needle], letters
    compared without case; [None] is Go's [-1]. *)
Definition PosI (haystack needle : string) : option nat :=
  match haystack with
  | EmptyString => None
  | _ => String.index 0 (ToLower needle) (ToLower haystack)
  end.

(** [gstr.ContainsI] *)
Definition ContainsI (haystack needle : string) : bool :=
  match String.index 0 (ToLower needle) (ToLower haystack) with
  | Some _ => true
  | None => false
  end.

(** [gstr.SubStr(s, 0, n)]: the first [n] bytes, or all of [s]. *)
Definition SubStr0 (s : string) (n : nat) : string :=
  String.substring 0 (Nat.min n (String.length s)) s.

End Str.

(** ** Go values handed to the binder as [interface{}] *)

(** How a struct type provides [String() string], if it does. *)
Inductive Stringer : Type :=
| NoString
| ValueString (s : string)      (* declared on the value receiver *)
| PointerString (s : string).   (* declared on the pointer receiver *)

Inductive GoValue : Type :=
| VNil                                          (* the nil interface *)
| VBool (b : bool)
| VInt (n : Z)
| VStr (s : string)
| VRaw (s : string)                             (* gdb.Raw *)
| VBytes (b : list Byte.byte)                   (* []byte *)
| VSlice (elems : list GoValue)                 (* any other slice or array *)
| VMap (entries : list (string * GoValue))
| VTime (unixNano : Z)                          (* time.Time *)
| VGTime (text : string)                        (* gtime.Time and its String() *)
| VStruct (name : string) (str : Stringer)      (* any other struct *)
| VPtr (pointee : option GoValue).              (* a pointer, [None] when nil *)

Inductive Kind : Type :=
| KInvalid | KPtr | KSlice | KMap | KStruct | KBool | KInt | KString.

(** [reflect.ValueOf(v).Kind()] *)
Definition kindOf (v : GoValue) : Kind :=
  match v with
  | VNil => KInvalid
  | VBool _ => KBool
  | VInt _ => KInt
  | VStr _ | VRaw _ => KString
  | VBytes _ | VSlice _ => KSlice
  | VMap _ => KMap
  | VTime _ | VGTime _ | VStruct _ _ => KStruct
  | VPtr _ => KPtr
  end.

(** The loop [for kind == reflect.Ptr { rv = rv.Elem() }]: the value behind
    every pointer; [Elem] of a nil pointer is the invalid value. *)
Fixpoint elemAll (v : GoValue) : GoValue :=
  match v with
  | VPtr (Some t) => elemAll t
  | VPtr None => VNil
  | _ => v
  end.

Definition byteValue (b : Byte.byte) : GoValue := VInt (Z.of_N (Byte.to_N b)).

(** [rv.Index(i).Interface()] for every [i < rv.Len()] of a slice-kinded
    value. *)
Definition sliceElems (v : GoValue) : list GoValue :=
  match v with
  | VSlice elems => elems
  | VBytes b => map byteValue b
  | _ => []
  end.

(** The type assertion [arg.(apiString)] on a struct or a pointer to one:
    the method set of [*T] holds the methods of both receivers.  The binder
    matches [time.Time] and [*time.Time] before it asks, so their [String()]
    is left out. *)
Definition asApiString (arg : GoValue) : option string :=
  match arg with
  | VGTime s => Some s
  | VStruct _ (ValueString s) => Some s
  | VPtr (Some (VGTime s)) => Some s
  | VPtr (Some (VStruct _ (ValueString s))) => Some s
  | VPtr (Some (VStruct _ (PointerString s))) => Some s
  | _ => None
  end.

(** ** handleArguments *)

Module Binder.

(** The variables captured by the callback given to
    [gregex.ReplaceStringFunc]. *)
Record holderState : Type := mkHolderState {
  counter : nat;
  replaced : bool;
  insertHolderCount : nat
}.

(** The callback, called on one matched [?]; [index] is the position of
    the argument and [len] is [reflectValue.Len()]. *)
Definition onHolder (index len : nat) (st : holderState)
  : string * holderState :=
  if replaced st then ("?", st)
  else
    let c := S (counter st) in
    if Nat.eqb c (index + insertHolderCount st + 1) then
      ("?" +:+ Str.Repeat ",?" (len - 1),
       mkHolderState c true (insertHolderCount st + (len - 1)))
    else ("?", mkHolderState c false (insertHolderCount st)).

(** [gregex.ReplaceStringFunc(`\?`, sql, callback)]: every [?] of the
    text, from left to right, is replaced by what the callback returns. *)
Fixpoint ReplaceStringFunc (index len : nat) (sql : string)
    (st : holderState) : string * holderState :=
  match sql with
  | EmptyString => (EmptyString, st)
  | String c rest =>
      if Ascii.eqb c "?" then
        let '(out, st1) := onHolder index len st in
        let '(rest', st2) := ReplaceStringFunc index len rest st1 in
        (out +:+ rest', st2)
      else
        let '(rest', st2) := ReplaceStringFunc index len rest st in
        (String c rest', st2)
  end.

Definition whereKeyWord : string := " WHERE ".

(** The early return taken on an empty slice when the text has a [?]. *)
Definition falseSql (newSql : string) : string :=
  match Str.PosI newSql whereKeyWord with
  | None => "0=1"
  | Some p => Str.SubStr0 newSql (p + String.length whereKeyWord) +:+ "0=1"
  end.

(** The body of [for index, arg := range args]; [total] is [len(args)]. *)
Fixpoint handleLoop (total index : nat) (args : list GoValue)
    (newSql : string) (newArgs : list GoValue) (ihc : nat)
  : string * list GoValue :=
  match args with
  | [] => (newSql, newArgs)
  | arg :: rest =>
      let rv := elemAll arg in
      match kindOf rv with
      | KSlice =>
          match arg with
          | VBytes _ =>
              handleLoop total (S index) rest newSql (newArgs ++ [arg]) ihc
          | _ =>
              let elems := sliceElems rv in
              let len := length elems in
              if Nat.eqb len 0 && Str.ContainsHolder newSql then
                (falseSql newSql, [])
              else
                let newArgs1 := newArgs ++ elems in
                if Nat.eqb total 1 && Nat.eqb (Str.CountHolder newSql) len
                then handleLoop total (S index) rest newSql newArgs1 ihc
                else
                  let '(sql1, st) :=
                    ReplaceStringFunc index len newSql
                      (mkHolderState 0 false ihc) in
                  handleLoop total (S index) rest sql1 newArgs1
                    (insertHolderCount st)
          end
      | KStruct =>
          match arg with
          | VTime _ | VPtr (Some (VTime _)) =>
              handleLoop total (S index) rest newSql (newArgs ++ [arg]) ihc
          | VGTime s | VPtr (Some (VGTime s)) =>
              handleLoop total (S index) rest newSql (newArgs ++ [VStr s]) ihc
          | _ =>
              match asApiString arg with
              | Some s =>
                  handleLoop total (S index) rest newSql
                    (newArgs ++ [VStr s]) ihc
              | None =>
                  handleLoop total (S index) rest newSql
                    (newArgs ++ [arg]) ihc
              end
          end
      | _ => handleLoop total (S index) rest newSql (newArgs ++ [arg]) ihc
      end
  end.

Definition handleArguments (sql : string) (args : list GoValue)
  : string * list GoValue :=
  handleLoop (length args) 0 args sql [] 0.

(** [formatSql] only forwards to [handleArguments]. *)
Definition formatSql (sql : string) (args : list GoValue)
  : string * list GoValue := handleArguments sql args.

End Binder.

(** ** What binding means, stated apart from the loop *)

Module BinderSpec.
Import Binder.

Definition isBytes (arg : GoValue) : bool :=
  match arg with VBytes _ => true | _ => false end.

(** A slice-valued argument other than [[]byte], seen through pointers. *)
Definition isSplit (arg : GoValue) : bool :=
  match kindOf (elemAll arg) with
  | KSlice => negb (isBytes arg)
  | _ => false
  end.

(** An empty slice-valued argument other than [[]byte]. *)
Definition isEmptySplit (arg : GoValue) : bool :=
  isSplit arg && Nat.eqb (length (sliceElems (elemAll arg))) 0.

(** The struct kind, seen through pointers. *)
Definition isStructKind (arg : GoValue) : bool :=
  match kindOf (elemAll arg) with KStruct => true | _ => false end.

(** [time.Time] or [*time.Time]. *)
Definition isStdTime (arg : GoValue) : bool :=
  match arg with
  | VTime _ | VPtr (Some (VTime _)) => true
  | _ => false
  end.

(** The one value bound for an argument that is not split. *)
Definition boundScalar (arg : GoValue) : GoValue :=
  if isStructKind arg && negb (isStdTime arg) then
    match asApiString arg with
    | Some s => VStr s
    | None => arg
    end
  else arg.

(** The values bound for one argument, in order. *)
Definition bound (arg : GoValue) : list GoValue :=
  if isSplit arg then sliceElems (elemAll arg) else [boundScalar arg].

(** The number of placeholders an argument needs. *)
Definition arity (arg : GoValue) : nat := length (bound arg).

(** [n] placeholders separated by commas, for [n >= 1]. *)
Definition holders (n : nat) : string := "?" +:+ Str.Repeat ",?" (n - 1).

(** A statement in which every argument is bound to one [?]: the text
    before each placeholder, paired with its argument, then the rest. *)
Fixpoint template (parts : list (string * GoValue)) (tail : string)
  : string :=
  match parts with
  | [] => tail
  | (seg, _) :: rest => seg +:+ "?" +:+ template rest tail
  end.

(** The same statement with every placeholder widened to its argument. *)
Fixpoint expanded (parts : list (string * GoValue)) (tail : string)
  : string :=
  match parts with
  | [] => tail
  | (seg, arg) :: rest =>
      seg +:+ holders (arity arg) +:+ expanded rest tail
  end.

Definition boundAll (parts : list (string * GoValue)) : list GoValue :=
  concat (map (fun p => bound (snd p)) parts).

(** No text segment hides a placeholder and no split argument is empty. *)
Definition wellBound (parts : list (string * GoValue)) : Prop :=
  Forall (fun p => Str.CountHolder (fst p) = 0 /\ arity (snd p) <> 0) parts.

(** A value the driver binds as it is: a boolean, a number or a string. *)
Definition isPrimitive (v : GoValue) : bool :=
  match v with
  | VBool _ | VInt _ | VStr _ => true
  | _ => false
  end.

(** The placeholders inserted on behalf of the processed arguments. *)
Definition inserted (parts : list (string * GoValue)) : nat :=
  list_sum (map (fun p => arity (snd p) - 1) parts).

End BinderSpec.

(** ** Condition composition: formatWhereKeyValue *)

(** The part of interface [DB] the composer relies on.  [Core] answers
    [GetChars] with two empty strings and a driver that embeds [Core]
    overrides it. *)
Class DB : Type := {
  GetChars : string * string
}.

Definition coreDB : DB := {| GetChars := ("", "") |}.

Module Where.
Import Str.

Definition chars (s : string) : list ascii := list_ascii_of_string s.

Fixpoint dropWhile (f : ascii -> bool) (l : list ascii) : list ascii :=
  match l with
  | c :: rest => if f c then dropWhile f rest else l
  | [] => []
  end.

Definition inRange (lo hi : nat) (c : ascii) : bool :=
  Nat.leb lo (nat_of_ascii c) && Nat.leb (nat_of_ascii c) hi.

Definition isAlnum (c : ascii) : bool :=
  inRange 48 57 c || inRange 65 90 c || inRange 97 122 c.

(** [quoteWordReg]: [^[a-zA-Z0-9\-_]+$] *)
Definition quoteWordReg (s : string) : bool :=
  negb (Nat.eqb (String.length s) 0)
  && forallb (fun c => isAlnum c || Ascii.eqb c "-" || Ascii.eqb c "_")
       (chars s).

(** [regularFieldNameRegPattern]: [^[\w\.\-\_]+$] *)
Definition regularFieldName (s : string) : bool :=
  negb (Nat.eqb (String.length s) 0)
  && forallb (fun c => isAlnum c || Ascii.eqb c "_" || Ascii.eqb c "."
                       || Ascii.eqb c "-")
       (chars s).

(** The class [\s] of Go's regular expressions. *)
Definition isSpace (c : ascii) : bool :=
  let n := nat_of_ascii c in
  Nat.eqb n 9 || Nat.eqb n 10 || Nat.eqb n 12 || Nat.eqb n 13
  || Nat.eqb n 32.

Definition isOperator (c : ascii) : bool :=
  Ascii.eqb c "<" || Ascii.eqb c ">" || Ascii.eqb c "=".

(** [lastOperatorRegPattern]: [[<>=]+\s*$], found anywhere in the text:
    after the trailing white space comes an operator character. *)
Definition lastOperator (s : string) : bool :=
  match dropWhile isSpace (rev (chars s)) with
  | c :: _ => isOperator c
  | [] => false
  end.

(** [gstr.ContainsAny(s, set)] *)
Definition ContainsAny (s set : string) : bool :=
  existsb (fun c => existsb (Ascii.eqb c) (chars set)) (chars s).

(** The bytes [gstr.Trim] removes when no mask is given. *)
Definition isTrimByte (c : ascii) : bool :=
  let n := nat_of_ascii c in
  Nat.eqb n 9 || Nat.eqb n 11 || Nat.eqb n 10 || Nat.eqb n 13
  || Nat.eqb n 12 || Nat.eqb n 32 || Nat.eqb n 0 || Nat.eqb n 133
  || Nat.eqb n 160.

(** [gstr.Trim(s)] *)
Definition Trim (s : string) : string :=
  string_of_list_ascii
    (rev (dropWhile isTrimByte (rev (dropWhile isTrimByte (chars s))))).

(** [gstr.Equal(a, b)]: equality that ignores the case of letters. *)
Definition EqualFold (a b : string) : bool := String.eqb (ToLower a) (ToLower b).

(** [doQuoteWord] *)
Definition doQuoteWord (s charLeft charRight : string) : string :=
  if quoteWordReg s && negb (ContainsAny s (charLeft +:+ charRight))
  then charLeft +:+ s +:+ charRight
  else s.

(** [Core.QuoteWord] *)
Definition QuoteWord `{DB} (s : string) : string :=
  doQuoteWord s (fst GetChars) (snd GetChars).

(** [value == nil || empty.IsNil(rv)] for a value whose kind is neither
    slice nor array: the nil interface and the nil pointer.  (Maps,
    channels and functions that are nil are not among the modelled
    values.) *)
Definition isNilValue (value : GoValue) : bool :=
  match value with
  | VNil | VPtr None => true
  | _ => false
  end.

Section FormatWhere.
Context `{db : DB}.
(** [empty.IsEmpty] of gf's internal package. *)
Variable IsEmpty : GoValue -> bool.

Definition like : string := " like".

(** The text written for a value that is not nil and not a slice, and
    whether the value part (raw text or bound argument) follows it. *)
Definition keyText (key quotedKey : string) (value : GoValue)
  : string * bool :=
  if Nat.eqb (CountHolder quotedKey) 0 then
    if Nat.ltb (String.length like) (String.length quotedKey)
       && EqualFold
            (String.substring (String.length quotedKey - String.length like)
               (String.length like) quotedKey) like
    then (quotedKey +:+ " ?", true)
    else if lastOperator quotedKey then (quotedKey +:+ " ?", true)
    else if regularFieldName key then (quotedKey +:+ "=?", true)
    else if IsEmpty value then (quotedKey, false)
    else (quotedKey +:+ "=?", true)
  else (quotedKey, true).

(** [formatWhereKeyValue]: the buffer and the arguments after one
    key-value pair of the condition map. *)
Definition formatWhereKeyValue (buffer : string) (newArgs : list GoValue)
    (key : string) (value : GoValue) : string * list GoValue :=
  let quotedKey := QuoteWord key in
  let buffer :=
    if Nat.ltb 0 (String.length buffer) then buffer +:+ " AND "
    else buffer in
  match kindOf value with
  | KSlice =>
      let count := CountHolder quotedKey in
      if Nat.eqb count 0 then
        (buffer +:+ quotedKey +:+ " IN(?)", newArgs ++ [value])
      else if negb (Nat.eqb count (length (sliceElems value))) then
        (buffer +:+ quotedKey, newArgs ++ [value])
      else (buffer +:+ quotedKey, newArgs ++ sliceElems value)
  | _ =>
      if isNilValue value then
        if regularFieldName key
        then (buffer +:+ quotedKey +:+ " IS NULL", newArgs)
        else (buffer +:+ quotedKey, newArgs)
      else
        let '(text, more) := keyText key (Trim quotedKey) value in
        if more then
          match value with
          | VRaw s => (buffer +:+ text +:+ s, newArgs)
          | _ => (buffer +:+ text, newArgs ++ [value])
          end
        else (buffer +:+ text, newArgs)
  end.

End FormatWhere.

End Where.

(** ** Errors and machine integers *)

(** Go [error] values: the sentinel [sql.ErrNoRows], an error made by
    [gerror.New] or [fmt.Errorf], and an error reported by the driver. *)
Inductive error : Type :=
| ErrNoRows
| ErrNew (msg : string)
| ErrDriver (msg : string).

(** Go's [int] on a 64-bit platform. *)
Module GoInt.
Local Open Scope Z_scope.

Definition wrap (z : Z) : Z := (z + 2 ^ 63) mod 2 ^ 64 - 2 ^ 63.
Definition add (a b : Z) : Z := wrap (a + b).
Definition sub (a b : Z) : Z := wrap (a - b).
Definition mul (a b : Z) : Z := wrap (a * b).
Definition inRange (z : Z) : Prop := - 2 ^ 63 <= z < 2 ^ 63.

End GoInt.

(** ** The weighted node selector *)

Module Router.
Local Open Scope Z_scope.

(** [ConfigNode]; durations are in nanoseconds. *)
Record ConfigNode : Type := mkConfigNode {
  Host : string;
  Port : string;
  User : string;
  Pass : string;
  Name : string;
  Type_ : string;
  Role : string;
  Debug : bool;
  Prefix : string;
  DryRun : bool;
  Weight : Z;
  Charset : string;
  LinkInfo : string;
  MaxIdleConnCount : Z;
  MaxOpenConnCount : Z;
  MaxConnLifetime : Z;
  QueryTimeout : Z;
  ExecTimeout : Z;
  TranTimeout : Z;
  PrepareTimeout : Z;
  CreatedAt : string;
  UpdatedAt : string;
  DeletedAt : string;
  TimeMaintainDisabled : bool
}.

(** The assignment [node.Weight = w]. *)
Definition setWeight (w : Z) (n : ConfigNode) : ConfigNode :=
  mkConfigNode (Host n) (Port n) (User n) (Pass n) (Name n) (Type_ n)
    (Role n) (Debug n) (Prefix n) (DryRun n) w (Charset n) (LinkInfo n)
    (MaxIdleConnCount n) (MaxOpenConnCount n) (MaxConnLifetime n)
    (QueryTimeout n) (ExecTimeout n) (TranTimeout n) (PrepareTimeout n)
    (CreatedAt n) (UpdatedAt n) (DeletedAt n) (TimeMaintainDisabled n).

(** A node of which only host, role and weight are configured. *)
Definition plainNode (host role : string) (weight : Z) : ConfigNode :=
  mkConfigNode host "" "" "" "" "" role false "" false weight "" ""
    0 0 0 0 0 0 0 "" "" "" false.

(** A [ConfigGroup] is a slice: it is known by the location of its
    backing array, and two slices at one location share their nodes. *)
Definition loc : Type := positive.

(** [*ConfigNode]: the address of one element of a backing array. *)
Definition NodePtr : Type := loc * nat.

Record World : Type := mkWorld {
  heap : gmap loc (list ConfigNode);   (* the backing arrays *)
  config : gmap string loc             (* configs.config *)
}.

(** The first loop: [total += cg[i].Weight * 100]. *)
Definition sumWeights (nodes : list ConfigNode) : Z :=
  fold_left (fun total n => GoInt.add total (GoInt.mul (Weight n) 100))
    nodes 0.

(** The second loop, run when [total == 0]: every weight becomes 1 and
    is added to the total. *)
Definition defaultWeights (nodes : list ConfigNode)
  : list ConfigNode * Z :=
  (map (setWeight 1) nodes,
   fold_left (fun total _ => GoInt.add total (GoInt.mul 1 100)) nodes 0).

(** The nodes and the total the draw is made against. *)
Definition weigh (nodes : list ConfigNode) : list ConfigNode * Z :=
  let total := sumWeights nodes in
  if Z.eqb total 0 then defaultWeights nodes else (nodes, total).

(** The last loop: the index of the first node whose range
    [[min, max)] holds the draw [r]; [None] is the [nil] returned when
    the loop runs out. *)
Fixpoint scan (nodes : list ConfigNode) (i : nat) (min r : Z)
  : option nat :=
  match nodes with
  | [] => None
  | n :: rest =>
      let max := GoInt.add min (GoInt.mul (Weight n) 100) in
      if Z.leb min r && Z.ltb r max then Some i
      else scan rest (S i) max r
  end.

Inductive Outcome (A : Type) : Type :=
| Panic                       (* index out of range *)
| Ret (a : A).
Arguments Panic {A}.
Arguments Ret {A} a.

Section Selector.
(** [grand.N(min, max)]: a random integer of [[min, max]]. *)
Variable N : Z -> Z -> Z.

(** [getConfigNodeByWeight]: the node picked, as a pointer into the
    array of [cg], and the memory after the call. *)
Definition getConfigNodeByWeight (cg : loc) (h : gmap loc (list ConfigNode))
  : Outcome (option NodePtr) * gmap loc (list ConfigNode) :=
  let nodes := default [] (h !! cg) in
  if Nat.ltb (length nodes) 2 then
    match nodes with
    | [] => (Panic, h)
    | _ => (Ret (Some (cg, 0%nat)), h)
    end
  else
    let '(nodes1, total) := weigh nodes in
    let h1 := <[cg := nodes1]> h in
    let r := N 0 (GoInt.sub total 1) in
    (Ret (option_map (pair cg) (scan nodes1 0 0 r)), h1).

Definition isSlave (n : ConfigNode) : bool := String.eqb (Role n) "slave".

(** [getConfigNodeByGroup]: the nodes of the group are copied into two
    new arrays, and the selector works on one of them. *)
Definition getConfigNodeByGroup (group : string) (master : bool)
    (w : World) : Outcome (option NodePtr * option error) * World :=
  match config w !! group with
  | Some l =>
      let list := default [] (heap w !! l) in
      let masterList := filter (fun n => isSlave n = false) list in
      let slaveList := filter (fun n => isSlave n = true) list in
      let lm := fresh (dom (heap w)) in
      let h1 := <[lm := masterList]> (heap w) in
      let ls := fresh (dom h1) in
      let h2 := <[ls := slaveList]> h1 in
      if Nat.ltb (length masterList) 1 then
        (Ret (None,
              Some (ErrNew "at least one master node configuration's need to make sense")),
         mkWorld h2 (config w))
      else
        let ls' := if Nat.ltb (length slaveList) 1 then lm else ls in
        let '(out, h3) :=
          getConfigNodeByWeight (if master then lm else ls') h2 in
        (match out with
         | Panic => Panic
         | Ret ptr => Ret (ptr, None)
         end,
         mkWorld h3 (config w))
  | None =>
      (Ret (None,
            Some (ErrNew ("empty database configuration for item name '"
                          +:+ group +:+ "'"))),
       w)
  end.

End Selector.

(** Reading a node through a pointer. *)
Definition deref (h : gmap loc (list ConfigNode)) (p : NodePtr)
  : option ConfigNode :=
  h !! fst p ≫= fun nodes => nodes !! snd p.

(** The nodes a group of the configuration holds. *)
Definition groupNodes (w : World) (group : string)
  : option (list ConfigNode) :=
  config w !! group ≫= fun l => heap w !! l.

(** The mathematical total and the lower end of the range of node [i]. *)
Definition weightSum (nodes : list ConfigNode) : Z :=
  foldr (fun n acc => Weight n + acc) 0 nodes.

Definition rangeStart (nodes : list ConfigNode) (i : nat) : Z :=
  100 * weightSum (take i nodes).

(** Weights as they are meant to be configured: none is negative, and
    the totals the selector computes stay below [2^63]. *)
Definition nonNegative (nodes : list ConfigNode) : Prop :=
  Forall (fun n => 0 <= Weight n) nodes.

Definition fits (nodes : list ConfigNode) : Prop :=
  100 * weightSum nodes < 2 ^ 63
  /\ 100 * Z.of_nat (length nodes) < 2 ^ 63.

Definition allZero (nodes : list ConfigNode) : Prop :=
  Forall (fun n => Weight n = 0) nodes.

(** How many draws of [[0, total)] pick node [i]. *)
Definition drawsFor (nodes : list ConfigNode) (total : Z) (i : nat) : nat :=
  length (filter (fun r => scan nodes 0 0 r = Some i) (seqZ 0 total)).

End Router.

(** ** The closure-based transaction helper *)

Module Tx.

(** [*TX]: the handle of an open transaction. *)
Record TX : Type := mkTX { handle : nat }.

(** How a call [f(tx)] ends: it returns an error value, or it panics
    with a value.  [Panics None] is [panic(nil)]; [Panics (Some s)] is a
    panic with a value that [%v] prints as [s]. *)
Inductive Outcome : Type :=
| Returns (err : option error)
| Panics (value : option string).

(** The calls made on the database, in order. *)
Inductive Call : Type := CallBegin | CallRollback | CallCommit.

(** What the database answers. *)
Record Driver : Type := mkDriver {
  onBegin : TX + error;
  onRollback : TX -> option error;
  onCommit : TX -> option error
}.

(** [recover()] in the deferred function: it is only called while [err]
    is nil; it stops a panic and returns its value. *)
Definition recovered (o : Outcome) : option string :=
  match o with
  | Returns _ => None
  | Panics v => v
  end.

(** [Core.Transaction]: the error returned and the calls made. *)
Definition Transaction (d : Driver) (f : TX -> Outcome)
  : option error * list Call :=
  match onBegin d with
  | inr e => (Some e, [CallBegin])
  | inl tx =>
      let o := f tx in
      (* err = f(tx), left nil when f panics *)
      let err0 := match o with Returns e => e | Panics _ => None end in
      (* the deferred function *)
      let err1 :=
        match err0 with
        | None =>
            match recovered o with
            | Some v => Some (ErrNew v)       (* fmt.Errorf("%v", e) *)
            | None => None
            end
        | Some e => Some e
        end in
      match err1 with
      | Some e =>
          match onRollback d tx with
          | Some e' => (Some e', [CallBegin; CallRollback])
          | None => (Some e, [CallBegin; CallRollback])
          end
      | None =>
          match onCommit d tx with
          | Some e' => (Some e', [CallBegin; CallCommit])
          | None => (None, [CallBegin; CallCommit])
          end
      end
  end.

End Tx.

(** ** Rows, records and their mapping onto caller values *)

(** [Record]: a row, from column name to value.  [Result] is a list of
    rows, and the nil result is the empty list. *)
Definition DBRecord : Type := gmap string GoValue.
Definition Result : Type := list DBRecord.

Module Mapping.

(** The kind of the elements of a slice type. *)
Inductive ElemKind : Type :=
| ElemStruct | ElemPtr | ElemOther (kind : string).

(** The value handed over as [pointer interface{}]. *)
Inductive Dest : Type :=
| DNil                                      (* the nil interface *)
| DReflect (v : Dest)                       (* a reflect.Value of v *)
| DStruct (fields : list (string * GoValue))
| DPtr (pointee : option Dest)              (* [None] when nil *)
| DSlice (elem : ElemKind) (items : option (list Dest))
                                            (* [None] when nil *)
| DOther (kind : string) (isNil : bool).    (* a map, string, number, ...:
                                               the name of its kind, and
                                               whether it is a nil map,
                                               channel or function *)

Inductive DKind : Type :=
| DkInvalid | DkPtr | DkStruct | DkSlice | DkOther (name : string).

(** [reflect.ValueOf(v).Kind()]; a [reflect.Value] is itself a struct. *)
Definition kindOfDest (v : Dest) : DKind :=
  match v with
  | DNil => DkInvalid
  | DReflect _ | DStruct _ => DkStruct
  | DPtr _ => DkPtr
  | DSlice _ _ => DkSlice
  | DOther kind _ => DkOther kind
  end.

(** [rv.Elem()] of a pointer. *)
Definition elemOf (v : Dest) : Dest :=
  match v with
  | DPtr (Some t) => t
  | _ => DNil
  end.

(** Following a pointer to the value it finally points to; the invalid
    value when a nil pointer is met. *)
Fixpoint traceSource (v : Dest) : Dest :=
  match v with
  | DPtr (Some t) => traceSource t
  | DPtr None => DNil
  | _ => v
  end.

(** [empty.IsNil(value, true)] *)
Definition IsNil (value : Dest) : bool :=
  match value with
  | DNil => true
  | _ =>
      let rv := match value with DReflect v => v | _ => value end in
      match rv with
      | DSlice _ None => true
      | DOther _ isNil => isNil
      | DPtr _ =>
          match traceSource rv with
          | DNil => true
          | _ => false
          end
      | _ => false
      end
  end.

(** [rv.Len()] of a slice. *)
Definition lenOf (v : Dest) : nat :=
  match v with
  | DSlice _ (Some items) => length items
  | _ => 0
  end.

(** The name [%v] prints for a kind. *)
Definition kindName (k : DKind) : string :=
  match k with
  | DkInvalid => "invalid"
  | DkPtr => "ptr"
  | DkStruct => "struct"
  | DkSlice => "slice"
  | DkOther name => name
  end.

Section Convert.
(** [convertMapToStruct]: gconv's conversion of a row into the value
    behind [pointer]; it answers with the filled value. *)
Variable convertMapToStruct : DBRecord -> Dest -> option error * Dest.

(** [Record.Struct]; the receiver is [None] for the nil record.  The
    result is the error and the value of [pointer] afterwards. *)
Definition Struct (r : option DBRecord) (pointer : Dest)
  : option error * Dest :=
  let row := default ∅ r in
  if Nat.eqb (size row) 0 then
    if negb (IsNil pointer) then (Some ErrNoRows, pointer)
    else (None, pointer)
  else
    match pointer with
    | DReflect _ => convertMapToStruct row pointer
    | _ =>
        match kindOfDest pointer with
        | DkPtr =>
            match kindOfDest (elemOf pointer) with
            | DkInvalid =>
                (Some (ErrNew "parameter is an invalid pointer, maybe nil"),
                 pointer)
            | DkPtr | DkStruct => convertMapToStruct row pointer
            | _ =>
                (Some (ErrNew "parameter should be type of *struct/**struct"),
                 pointer)
            end
        | _ =>
            (Some (ErrNew "parameter should be type of *struct/**struct"),
             pointer)
        end
    end.

(** A new element of the item type: [reflect.New(itemType.Elem())] for
    pointer items, [reflect.New(itemType).Elem()] otherwise. *)
Definition newItem (elem : ElemKind) : Dest :=
  match elem with
  | ElemPtr => DReflect (DPtr (Some (DStruct [])))
  | ElemStruct => DReflect (DStruct [])
  | ElemOther kind => DReflect (DOther kind false)
  end.

Definition unwrap (v : Dest) : Dest :=
  match v with DReflect t => t | _ => v end.

(** The conversion loop of [Result.Structs]. *)
Fixpoint structsLoop (elem : ElemKind) (rows : Result) (acc : list Dest)
  : error + list Dest :=
  match rows with
  | [] => inr acc
  | row :: rest =>
      match Struct (Some row) (newItem elem) with
      | (Some e, _) =>
          inl (ErrNew ("slice element conversion failed: "
                       +:+ match e with
                           | ErrNoRows => "sql: no rows in result set"
                           | ErrNew m | ErrDriver m => m
                           end))
      | (None, item) => structsLoop elem rest (acc ++ [unwrap item])
      end
  end.

Definition wrongStructsParameter (k : DKind) : error :=
  ErrNew ("parameter should be type of *[]struct/*[]*struct, but got: "
          +:+ kindName k).

(** [Result.Structs]: the error and the value of [pointer]
    afterwards. *)
Definition Structs (r : Result) (pointer : Dest) : option error * Dest :=
  match kindOfDest pointer with
  | DkPtr =>
      let target := elemOf pointer in
      match target with
      | DSlice elem items =>
          match r with
          | [] =>
              if Nat.ltb 0 (lenOf target) then
                match elem with
                | ElemPtr => (None, pointer)
                | _ => (Some ErrNoRows, pointer)
                end
              else (None, pointer)
          | _ =>
              match structsLoop elem r [] with
              | inl e => (Some e, pointer)
              | inr array => (None, DPtr (Some (DSlice elem (Some array))))
              end
          end
      | _ => (Some (wrongStructsParameter (kindOfDest target)), pointer)
      end
  | k => (Some (wrongStructsParameter k), pointer)
  end.

End Convert.

End Mapping.

(** ** Queries of [Core] *)

(** [Link]: a connection or a transaction to run statements on; [None] is
    the nil link. *)
Definition Link : Type := option nat.

Module CoreQuery.

(** [*sql.Rows]: the column names and types (or the error of
    [ColumnTypes]) and, for every row still to come, what [Scan] yields.
    The list ends where [rows.Next] returns false, whatever made it do
    so: [rows.Err()] is never read. *)
Record Rows : Type := mkRows {
  columnTypes : list (string * string) + error;
  pending : list (list GoValue + error)
}.

Section Core.
(** [c.DB.Slave()] *)
Variable Slave : Link + error.
(** [c.DB.DoQuery(link, sql, args...)]; the rows are [None] when nil. *)
Variable DoQuery : Link -> string -> list GoValue
                   -> option Rows * option error.
(** [convertFieldValueToLocalValue(value, columnType)] *)
Variable convertFieldValueToLocalValue : GoValue -> string -> GoValue.

(** One scanned row as a record. *)
Definition makeRow (columns : list (string * string))
    (values : list GoValue) : DBRecord :=
  fold_left
    (fun (row : DBRecord) cv =>
       let '((name, type), value) := cv in
       match value with
       | VNil => <[name := VNil]> row
       | _ => <[name := convertFieldValueToLocalValue value type]> row
       end)
    (zip columns values) ∅.

(** The loop over [rows.Scan] and [rows.Next]. *)
Fixpoint scanLoop (columns : list (string * string))
    (pending : list (list GoValue + error)) (records : Result)
  : Result * option error :=
  match pending with
  | [] => (records, None)
  | inr e :: _ => (records, Some e)
  | inl values :: rest =>
      scanLoop columns rest (records ++ [makeRow columns values])
  end.

(** [convertRowsToResult] *)
Definition convertRowsToResult (rows : Rows) : Result * option error :=
  match pending rows with
  | [] => ([], None)
  | _ =>
      match columnTypes rows with
      | inr e => ([], Some e)
      | inl columns => scanLoop columns (pending rows) []
      end
  end.

(** [Core.DoGetAll] *)
Definition DoGetAll (link : Link) (sql : string) (args : list GoValue)
  : Result * option error :=
  let linked :=
    match link with
    | None => Slave
    | Some _ => inl link
    end in
  match linked with
  | inr e => ([], Some e)
  | inl link' =>
      match DoQuery link' sql args with
      | (_, Some e) => ([], Some e)
      | (None, None) => ([], None)
      | (Some rows, None) => convertRowsToResult rows
      end
  end.

(** [Core.All] *)
Definition All (sql : string) (args : list GoValue)
  : Result * option error := DoGetAll None sql args.

(** [Core.One]; the record is [None] when nil. *)
Definition One (sql : string) (args : list GoValue)
  : option DBRecord * option error :=
  match All sql args with
  | (_, Some e) => (None, Some e)
  | (first :: _, None) => (Some first, None)
  | ([], None) => (None, None)
  end.

End Core.

End CoreQuery.

(** ** Operations of [Model] *)

Module ModelOps.
Import Str.

(** [sql.Result] *)
Record SqlResult : Type := mkSqlResult {
  rowsAffected : Z;
  lastInsertId : Z
}.

(** The fields of [Model] read by the operations below; the others are
    read by the condition and field formatting only. *)
Record Model : Type := mkModel {
  tx : option Tx.TX;
  tables : string;
  fields : string;
  extraArgs : list GoValue;
  cacheEnabled : bool;
  cacheDuration : Z;
  cacheName : string;
  unscoped : bool
}.

(** A value kept by the cache: a [Result] as it is, or another value
    known by its bytes. *)
Inductive CacheValue : Type :=
| CachedResult (r : Result)
| CachedOther (bytes : string).

(** The calls made on interface [DB]. *)
Inductive DBCall : Type :=
| CallDoGetAll (link : Link) (sql : string) (args : list GoValue)
| CallDoUpdate (link : Link) (table : string) (data : GoValue)
    (condition : string) (args : list GoValue)
| CallDoDelete (link : Link) (table : string) (condition : string)
    (args : list GoValue).

(** What the operations act on: the query cache, with the duration each
    entry was stored with, and the calls made so far. *)
Record World : Type := mkWorld {
  cache : gmap string (CacheValue * Z);
  calls : list DBCall
}.

Definition called (c : DBCall) (w : World) : World :=
  mkWorld (cache w) (calls w ++ [c]).

(** What the operations are run against: the methods of interface [DB]
    they call, the methods of [Model] that compose conditions, fields and
    links, and the library functions [gtime.Now().String()],
    [gconv.String(args)] and [json.Unmarshal]. *)
Class Env : Type := {
  DoGetAll : Link -> string -> list GoValue -> Result * option error;
  DoUpdate : Link -> string -> GoValue -> string -> list GoValue
             -> option SqlResult * option error;
  DoDelete : Link -> string -> string -> list GoValue
             -> option SqlResult * option error;
  QuoteString : string -> string;
  Where : Model -> GoValue -> list GoValue -> Model;
  formatCondition : Model -> bool -> bool -> string * string * list GoValue;
  getSoftFieldNameDeleted : Model -> string;
  getConditionForSoftDeleting : Model -> string;
  getFieldsFiltered : Model -> string;
  getLink : Model -> bool -> Link;
  mergeArguments : Model -> list GoValue -> list GoValue;
  now : string;
  argsString : list GoValue -> string;
  jsonUnmarshal : string -> Result + error
}.

Section Ops.
Context `{env : Env}.

(** The head of every operation: [m.Where(where[0], where[1:]...)]
    when arguments are given. *)
Definition withWhere (m : Model) (where_ : list GoValue) : Model :=
  match where_ with
  | [] => m
  | w0 :: args => Where m w0 args
  end.

(** [checkAndRemoveCache] *)
Definition checkAndRemoveCache (m : Model) (w : World) : World :=
  if cacheEnabled m && Z.ltb (cacheDuration m) 0
     && Nat.ltb 0 (String.length (cacheName m))
  then mkWorld (delete (cacheName m) (cache w)) (calls w)
  else w.

(** The deferred function of the write operations. *)
Definition afterWrite {A} (m : Model) (r : (A * option error) * World)
  : (A * option error) * World :=
  match r with
  | ((a, None), w) => ((a, None), checkAndRemoveCache m w)
  | _ => r
  end.

(** [Model.Delete]; a call with arguments goes through [Where] and
    comes back with none.  For a soft delete the time stamp and the
    arguments of the condition are appended into one slice, and that slice
    is handed to the variadic [DoUpdate] as it is, without [...]:
    [DoUpdate] gets one argument, the slice.  [DoDelete] is handed the
    arguments of the condition spread out. *)
Definition Delete (m : Model) (where_ : list GoValue) (w : World)
  : (option SqlResult * option error) * World :=
  let m := withWhere m where_ in
  afterWrite m
    (let fieldNameDelete := getSoftFieldNameDeleted m in
     let '(conditionWhere, conditionExtra, conditionArgs) :=
       formatCondition m false false in
     if negb (unscoped m)
        && negb (Nat.eqb (String.length fieldNameDelete) 0)
     then
       let link := getLink m true in
       let data := VStr (QuoteString fieldNameDelete +:+ "=?") in
       let args := [VSlice (VStr now :: conditionArgs)] in
       (DoUpdate link (tables m) data (conditionWhere +:+ conditionExtra)
          args,
        called (CallDoUpdate link (tables m) data
                  (conditionWhere +:+ conditionExtra) args) w)
     else
       let conditionStr := conditionWhere +:+ conditionExtra in
       if negb (ContainsI conditionStr " WHERE ") then
         ((None,
           Some (ErrNew "there should be WHERE condition statement for DELETE operation")),
          w)
       else
         let link := getLink m true in
         (DoDelete link (tables m) conditionStr conditionArgs,
          called (CallDoDelete link (tables m) conditionStr conditionArgs)
            w)).

(** The cache key of a select; empty when the cache is not used. *)
Definition cacheKeyOf (m : Model) (sql : string) (args : list GoValue)
  : string :=
  if cacheEnabled m && negb (bool_decide (is_Some (tx m))) then
    if Nat.eqb (String.length (cacheName m)) 0
    then sql +:+ ", @PARAMS:" +:+ argsString args
    else cacheName m
  else "".

(** The look-up at the head of [doGetAllBySql]: [Some] is the early
    return. *)
Definition cacheLookup (m : Model) (key : string) (w : World)
  : option (Result * option error) :=
  if cacheEnabled m && negb (bool_decide (is_Some (tx m))) then
    match cache w !! key with
    | Some (CachedResult r, _) => Some (r, None)
    | Some (CachedOther bytes, _) =>
        match jsonUnmarshal bytes with
        | inl r => Some (r, None)
        | inr e => Some ([], Some e)
        end
    | None => None
    end
  else None.

(** [Model.doGetAllBySql] *)
Definition doGetAllBySql (m : Model) (sql : string) (args : list GoValue)
    (w : World) : (Result * option error) * World :=
  let cacheKey := cacheKeyOf m sql args in
  match cacheLookup m cacheKey w with
  | Some hit => (hit, w)
  | None =>
      let link := getLink m false in
      let args' := mergeArguments m args in
      let '(result, err) := DoGetAll link sql args' in
      let w1 := called (CallDoGetAll link sql args') w in
      let w2 :=
        match err with
        | None =>
            if negb (Nat.eqb (String.length cacheKey) 0) then
              if Z.ltb (cacheDuration m) 0
              then mkWorld (delete cacheKey (cache w1)) (calls w1)
              else mkWorld
                     (<[cacheKey := (CachedResult result, cacheDuration m)]>
                        (cache w1))
                     (calls w1)
            else w1
        | Some _ => w1
        end in
      ((result, err), w2)
  end.

(** [Model.doGetAll]; a call with arguments goes through [Where] and
    [All], which passes [false] for [limit1]. *)
Definition doGetAll (m : Model) (limit1 : bool) (where_ : list GoValue)
    (w : World) : (Result * option error) * World :=
  let limit1 :=
    match where_ with
    | [] => limit1
    | _ => false
    end in
  let m := withWhere m where_ in
  let softDeletingCondition := getConditionForSoftDeleting m in
  let '(conditionWhere, conditionExtra, conditionArgs) :=
    formatCondition m limit1 false in
  let conditionWhere :=
    if negb (unscoped m)
       && negb (Nat.eqb (String.length softDeletingCondition) 0)
    then
      (if Nat.eqb (String.length conditionWhere) 0 then " WHERE "
       else conditionWhere +:+ " AND ") +:+ softDeletingCondition
    else conditionWhere in
  doGetAllBySql m
    ("SELECT " +:+ getFieldsFiltered m +:+ " FROM " +:+ tables m
     +:+ conditionWhere +:+ conditionExtra)
    conditionArgs w.

(** [Model.All] *)
Definition All (m : Model) (where_ : list GoValue) (w : World)
  : (Result * option error) * World := doGetAll m false where_ w.

(** [Model.One]; the record is [None] when nil. *)
Definition One (m : Model) (where_ : list GoValue) (w : World)
  : (option DBRecord * option error) * World :=
  let m := withWhere m where_ in
  match doGetAll m true [] w with
  | ((_, Some e), w') => ((None, Some e), w')
  | ((first :: _, None), w') => ((Some first, None), w')
  | (([], None), w') => ((None, None), w')
  end.

End Ops.

(** An environment for examples: one table whose soft-delete column is
    [softField] (none when empty), conditions that always compose to
    [condition] with one argument, and a database that finds no row. *)
Definition sampleEnv (softField condition : string) : Env := {|
  DoGetAll := fun _ _ _ => ([], None);
  DoUpdate := fun _ _ _ _ _ => (Some (mkSqlResult 1 0), None);
  DoDelete := fun _ _ _ _ => (Some (mkSqlResult 1 0), None);
  QuoteString := fun s => s;
  Where := fun m _ _ => m;
  formatCondition := fun _ _ _ => (condition, "", [VInt 1]);
  getSoftFieldNameDeleted := fun _ => softField;
  getConditionForSoftDeleting := fun _ => "";
  getFieldsFiltered := fun m => fields m;
  getLink := fun _ _ => None;
  mergeArguments := fun m args => extraArgs m ++ args;
  now := "2021-01-02 03:04:05";
  argsString := fun _ => "[1]";
  jsonUnmarshal := fun _ => inl []
|}.

(** A model of table [user], with the cache switched on. *)
Definition sampleModel (tx : option Tx.TX) : Model :=
  mkModel tx "user" "*" [] true 60 "users" false.

Definition emptyWorld : World := mkWorld ∅ [].

End ModelOps.

(** ** Splitting, joining and quoting of names *)

Module Quote.
Import Str Where.

(** What a call that may index out of range comes to. *)
Inductive Outcome (A : Type) : Type :=
| Panic
| Ret (a : A).
Arguments Panic {A}.
Arguments Ret {A} a.

(** The pieces of [l] between the occurrences of [d]; there is always at
    least one piece. *)
Fixpoint splitChars (d : ascii) (l : list ascii) : list (list ascii) :=
  match l with
  | [] => [[]]
  | c :: rest =>
      if Ascii.eqb c d then [] :: splitChars d rest
      else
        match splitChars d rest with
        | p :: ps => (c :: p) :: ps
        | [] => [[c]]
        end
  end.

(** [gstr.Split(s, d)] for a delimiter of one byte. *)
Definition Split (s : string) (d : ascii) : list string :=
  map string_of_list_ascii (splitChars d (chars s)).

(** [gstr.Join(parts, sep)] *)
Fixpoint Join (parts : list string) (sep : string) : string :=
  match parts with
  | [] => ""
  | [p] => p
  | p :: rest => p +:+ sep +:+ Join rest sep
  end.

(** [gstr.SplitAndTrim(s, d)]: the pieces, trimmed, without the empty
    ones. *)
Definition SplitAndTrim (s : string) (d : ascii) : list string :=
  filter (fun v => v <> "") (map Trim (Split s d)).

(** The loop body of [doQuoteString] on the pieces of a name split at the
    dots: the first and the last piece are quoted. *)
Definition quoteEnds (array3 : list string) (charLeft charRight : string)
  : list string :=
  match array3 with
  | [] => []
  | [only] => [doQuoteWord only charLeft charRight]
  | first :: others =>
      doQuoteWord first charLeft charRight
      :: removelast others
      ++ [doQuoteWord (List.last others "") charLeft charRight]
  end.

(** One element of [array1] in [doQuoteString]; [array2[0]] is an index
    out of range when [array2] is empty. *)
Definition quoteItem (v1 charLeft charRight : string) : Outcome string :=
  match SplitAndTrim v1 " " with
  | [] => Panic
  | first :: others =>
      let array3 := Split (Trim first) "." in
      Ret (Join (Join (quoteEnds array3 charLeft charRight) "." :: others) " ")
  end.

(** Running a step over every element, stopping at the first panic. *)
Fixpoint forEach {A B} (f : A -> Outcome B) (l : list A)
  : Outcome (list B) :=
  match l with
  | [] => Ret []
  | x :: rest =>
      match f x with
      | Panic => Panic
      | Ret y =>
          match forEach f rest with
          | Panic => Panic
          | Ret ys => Ret (y :: ys)
          end
      end
  end.

(** [doQuoteString] *)
Definition doQuoteString (s charLeft charRight : string) : Outcome string :=
  match forEach (fun v1 => quoteItem v1 charLeft charRight)
          (SplitAndTrim s ",") with
  | Panic => Panic
  | Ret array1 => Ret (Join array1 ",")
  end.

(** [Core.QuoteString] *)
Definition QuoteString `{DB} (s : string) : Outcome string :=
  doQuoteString s (fst GetChars) (snd GetChars).

End Quote.

(** ** Condition composition: formatWhereInterfaces and formatWhere *)

Module Compose.
Import Str Where Quote Binder.

(** [utils.IsArray]: a slice or an array, or a pointer to one. *)
Definition IsArray (value : GoValue) : bool :=
  let rv := match value with
            | VPtr (Some t) => t
            | VPtr None => VNil
            | _ => value
            end in
  match kindOf rv with
  | KSlice => true
  | _ => false
  end.

Section Compose.
Context `{db : DB}.
(** [empty.IsEmpty], [gconv.String] and [gconv.Interfaces]. *)
Variable IsEmpty : GoValue -> bool.
Variable gconvString : GoValue -> string.
Variable Interfaces : GoValue -> list GoValue.
(** The pairs [range DataToMapDeep(where)] visits, in the order it visits
    them, and the pairs [where.(apiIterator)] hands to its callback, when
    [where] has an iterator. *)
Variable rangeMap : GoValue -> list (string * GoValue).
Variable iterate : GoValue -> option (list (GoValue * GoValue)).

(** The loop [for i := 0; i < len(where); i += 2] of
    [formatWhereInterfaces]. *)
Fixpoint pairsLoop (where_ : list GoValue) (buffer : string)
    (newArgs : list GoValue) : string * list GoValue :=
  match where_ with
  | key :: value :: rest =>
      let str := gconvString key in
      let buffer :=
        if Nat.ltb 0 (String.length buffer)
        then buffer +:+ (" AND " +:+ QuoteWord str +:+ "=?")
        else buffer +:+ (QuoteWord str +:+ "=?") in
      match value with
      | VRaw s => pairsLoop rest (buffer +:+ s) newArgs
      | _ => pairsLoop rest buffer (newArgs ++ [value])
      end
  | _ => (buffer, newArgs)
  end.

(** [formatWhereInterfaces] *)
Definition formatWhereInterfaces (where_ : list GoValue) (buffer : string)
    (newArgs : list GoValue) : string * list GoValue :=
  if Nat.eqb (length where_) 0 then (buffer, newArgs)
  else if negb (Nat.eqb (length where_ mod 2) 0) then
    (buffer +:+ Join (map gconvString where_) "", newArgs)
  else pairsLoop where_ buffer newArgs.

(** The text and arguments after the closing steps of [formatWhere], when
    arguments are there and the text holds no placeholder. *)
Definition closeWhere (newWhere : string) (newArgs : list GoValue)
  : Outcome (string * list GoValue) :=
  match newArgs with
  | [] => Ret (newWhere, newArgs)
  | first :: _ =>
      if Nat.eqb (CountHolder newWhere) 0 then
        if lastOperator newWhere then Ret (newWhere +:+ "?", newArgs)
        else if regularFieldName newWhere then
          match QuoteString newWhere with
          | Panic => Panic
          | Ret quoted =>
              if IsArray first then Ret (quoted +:+ " IN (?)", newArgs)
              else if isNilValue first then Ret (quoted +:+ " IS NULL", [])
              else Ret (quoted +:+ "=?", newArgs)
          end
        else Ret (newWhere, newArgs)
      else Ret (newWhere, newArgs)
  end.

(** [formatWhere] *)
Definition formatWhere (where_ : GoValue) (args : list GoValue)
    (omitEmpty : bool) : Outcome (string * list GoValue) :=
  let rv := match where_ with
            | VPtr (Some t) => t
            | VPtr None => VNil
            | _ => where_
            end in
  let '(buffer, newArgs) :=
    match kindOf rv with
    | KSlice => formatWhereInterfaces (Interfaces where_) "" []
    | KMap =>
        fold_left
          (fun acc kv =>
             if regularFieldName (fst kv) && omitEmpty && IsEmpty (snd kv)
             then acc
             else formatWhereKeyValue IsEmpty (fst acc) (snd acc)
                    (fst kv) (snd kv))
          (rangeMap where_) ("", [])
    | KStruct =>
        match iterate where_ with
        | Some pairs =>
            fold_left
              (fun acc kv =>
                 let ketStr := gconvString (fst kv) in
                 if regularFieldName ketStr && omitEmpty && IsEmpty (snd kv)
                 then acc
                 else formatWhereKeyValue IsEmpty (fst acc) (snd acc)
                        ketStr (snd kv))
              pairs ("", [])
        | None =>
            fold_left
              (fun acc kv =>
                 if omitEmpty && IsEmpty (snd kv) then acc
                 else formatWhereKeyValue IsEmpty (fst acc) (snd acc)
                        (fst kv) (snd kv))
              (rangeMap where_) ("", [])
        end
    | _ => (gconvString where_, [])
    end in
  if Nat.eqb (String.length buffer) 0 then Ret ("", args)
  else
    match closeWhere buffer (newArgs ++ args) with
    | Panic => Panic
    | Ret (newWhere, newArgs') => Ret (handleArguments newWhere newArgs')
    end.

End Compose.

End Compose.

(** ** The condition on the primary key *)

Module PrimaryKey.

(** [GetPrimaryKeyCondition]; the nil slice is the empty list. *)
Definition GetPrimaryKeyCondition (primary : string) (where_ : list GoValue)
  : list GoValue :=
  match where_ with
  | [] => []
  | w0 :: rest =>
      if String.eqb primary "" then where_
      else
        match rest with
        | [] =>
            let rv := match w0 with
                      | VPtr (Some t) => t
                      | VPtr None => VNil
                      | _ => w0
                      end in
            match kindOf rv with
            | KMap | KStruct => where_
            | _ => [VMap [(primary, w0)]]
            end
        | _ => where_
        end
  end.

End PrimaryKey.

(** ** Words used to state what the composition binds *)

Module ComposeSpec.

(** The slice [key1, value1, key2, value2, ...]. *)
Definition pairList (kvs : list (GoValue * GoValue)) : list GoValue :=
  concat (map (fun kv => [fst kv; snd kv]) kvs).

Definition isRaw (v : GoValue) : bool :=
  match v with VRaw _ => true | _ => false end.

(** The text a [Raw] value writes into the condition. *)
Definition rawText (v : GoValue) : string :=
  match v with VRaw s => s | _ => "" end.

End ComposeSpec.

(** ** Splitting a result into chunks *)

Module ResultOps.
Import Quote.
Local Open Scope Z_scope.

(** The slice expression [r[lo:hi]]; it panics when the bounds are out
    of range. *)
Definition slice (r : Result) (lo hi : Z) : Outcome Result :=
  if Z.leb 0 lo && Z.leb lo hi && Z.leb hi (Z.of_nat (length r))
  then Ret (take (Z.to_nat (hi - lo)) (drop (Z.to_nat lo) r))
  else Panic.

(** [int(math.Ceil(float64(length) / float64(size)))] for [size >= 1].
    The quotient of the two floats is rounded to the nearest float; for a
    length below [2^53] that rounding never reaches or crosses a whole
    number, so the ceiling is the one of the exact quotient. *)
Definition chunkCount (length size : Z) : Z := (length + size - 1) / size.

(** The loop [for i, end := 0, 0; chunks > 0; chunks--]. *)
Fixpoint chunkLoop (r : Result) (size : Z) (chunks : nat) (i : Z)
    (n : list Result) : Outcome (list Result) :=
  match chunks with
  | O => Ret n
  | S chunks' =>
      let end0 := GoInt.mul (GoInt.add i 1) size in
      let end_ :=
        if Z.ltb (Z.of_nat (length r)) end0 then Z.of_nat (length r)
        else end0 in
      match slice r (GoInt.mul i size) end_ with
      | Panic => Panic
      | Ret piece => chunkLoop r size chunks' (GoInt.add i 1) (n ++ [piece])
      end
  end.

(** [Result.Chunk]; the nil slice is the empty list. *)
Definition Chunk (r : Result) (size : Z) : Outcome (list Result) :=
  if Z.ltb size 1 then Ret []
  else
    chunkLoop r size (Z.to_nat (chunkCount (Z.of_nat (length r)) size)) 0 [].

End ResultOps.

(** ** A result keyed by one of its columns *)

Module ResultMaps.
Import Quote.

(** What [gvar.New] is given in [MapKeyValue]: one record, or the slice
    of the records that share a key value. *)
Inductive Grouped : Type :=
| GroupOne (item : DBRecord)
| GroupMany (items : list DBRecord).

Section Keys.
(** [Value.String()] of a field value. *)
Variable valueString : GoValue -> string.

(** The records whose column [key] reads [k], in the order of the
    result. *)
Definition groupOf (r : Result) (key k : string) : list DBRecord :=
  filter (fun item : DBRecord => valueString <$> item !! key = Some k) r.

(** [Result.RecordKeyStr] *)
Definition RecordKeyStr (r : Result) (key : string) : gmap string DBRecord :=
  fold_left
    (fun (m : gmap string DBRecord) (item : DBRecord) =>
       match item !! key with
       | Some v => <[valueString v := item]> m
       | None => m
       end)
    r ∅.

(** The first loop of [MapKeyValue]: [tempMap] and [hasMultiValues]. *)
Definition collect (r : Result) (key : string)
  : gmap string (list DBRecord) * bool :=
  fold_left
    (fun (st : gmap string (list DBRecord) * bool) (item : DBRecord) =>
       match item !! key with
       | Some k =>
           let s := valueString k in
           let items := default [] (fst st !! s) ++ [item] in
           (<[s := items]> (fst st), snd st || Nat.ltb 1 (length items))
       | None => st
       end)
    r (∅, false).

(** The body of the second loop; [v[0]] is out of range when [v] is
    empty. *)
Definition group (hasMultiValues : bool) (kv : string * list DBRecord)
  : Outcome (string * Grouped) :=
  if hasMultiValues then Ret (fst kv, GroupMany (snd kv))
  else
    match snd kv with
    | first :: _ => Ret (fst kv, GroupOne first)
    | [] => Panic
    end.

(** [Result.MapKeyValue] *)
Definition MapKeyValue (r : Result) (key : string)
  : Outcome (gmap string Grouped) :=
  let '(tempMap, hasMultiValues) := collect r key in
  match forEach (group hasMultiValues) (map_to_list tempMap) with
  | Panic => Panic
  | Ret entries => Ret (list_to_map entries)
  end.

End Keys.

End ResultMaps.

(** ** Table names with a prefix *)

Module TableName.
Import Str Where Quote.

(** [gstr.Trim(s, mask)]: the bytes of [mask] are removed as well. *)
Definition TrimMask (s mask : string) : string :=
  let cut := fun c => isTrimByte c || existsb (Ascii.eqb c) (chars mask) in
  string_of_list_ascii (rev (dropWhile cut (rev (dropWhile cut (chars s))))).

(** The prefix is added unless the name is longer than the prefix and
    starts with it. *)
Definition withPrefix (name prefix : string) : string :=
  if Nat.leb (String.length name) (String.length prefix)
     || negb (String.eqb (String.substring 0 (String.length prefix) name)
                prefix)
  then prefix +:+ name
  else name.

(** One element of [array1] in [doHandleTableName]; [array2[0]] and
    [array3[index]] are index expressions. *)
Definition tableItem (v1 prefix charLeft charRight : string)
  : Outcome string :=
  let mask := charLeft +:+ charRight in
  match SplitAndTrim v1 " " with
  | [] => Panic
  | first :: others =>
      let first := TrimMask first mask in
      let array3 :=
        map (fun v => TrimMask v mask) (Split (Trim first) ".") in
      match array3 with
      | [] => Panic
      | _ =>
          let array3 :=
            removelast array3 ++ [withPrefix (List.last array3 "") prefix] in
          match doQuoteString (Join array3 ".") charLeft charRight with
          | Panic => Panic
          | Ret quoted => Ret (Join (quoted :: others) " ")
          end
      end
  end.

(** [doHandleTableName] *)
Definition doHandleTableName (table prefix charLeft charRight : string)
  : Outcome string :=
  match forEach (fun v1 => tableItem v1 prefix charLeft charRight)
          (SplitAndTrim table ",") with
  | Panic => Panic
  | Ret array1 => Ret (Join array1 ",")
  end.

End TableName.

(** ** The statement with its arguments written in, for logs and errors *)

Module Debug.
Import Where.

Definition isDigit (c : ascii) : bool := inRange 48 57 c.

Section Format.
(** [gconv.String], [gstr.QuoteMeta(s, "'")] and
    [t.Format("2006-01-02 15:04:05")]. *)
Variable gconvString : GoValue -> string.
Variable QuoteMeta : string -> string.
Variable timeFormat : Z -> string.

(** What the callback writes for an argument. *)
Definition formatArg (arg : GoValue) : string :=
  match arg with
  | VNil | VPtr None => "null"
  | _ =>
      let rv := match arg with VPtr (Some t) => t | _ => arg end in
      match kindOf rv with
      | KString | KMap | KSlice =>
          "'" +:+ QuoteMeta (gconvString arg) +:+ "'"
      | KStruct =>
          match arg with
          | VTime t => "'" +:+ timeFormat t +:+ "'"
          | _ => "'" +:+ QuoteMeta (gconvString arg) +:+ "'"
          end
      | _ => gconvString arg
      end
  end.

(** [gregex.ReplaceStringFunc] with the pattern
    [(\?|:v\d+|\$\d+|@p\d+)] and the callback of [FormatSqlWithArgs].
    [args] are the arguments from [index + 1] on.  [digits] tells that
    the bytes before belong to a match whose digits may go on: [Some true]
    when the match was written back as it is, [Some false] when an
    argument was written in its place. *)
Fixpoint replaceTokens (l : list ascii) (args : list GoValue)
    (digits : option bool) : list ascii :=
  match l with
  | [] => []
  | c :: rest =>
      let within := match digits with
                    | Some _ => isDigit c
                    | None => false
                    end in
      if within then
        match digits with
        | Some true => c :: replaceTokens rest args digits
        | _ => replaceTokens rest args digits
        end
      else
        let answer := fun (token : list ascii) (rest' : list ascii)
                          (more : bool) =>
          match args with
          | arg :: args' =>
              chars (formatArg arg)
              ++ replaceTokens rest' args'
                   (if more then Some false else None)
          | [] =>
              token
              ++ replaceTokens rest' []
                   (if more then Some true else None)
          end in
        if Ascii.eqb c "?" then answer [c] rest false
        else
          match rest with
          | d :: rest1 =>
              if Ascii.eqb c "$" && isDigit d then answer [c; d] rest1 true
              else
                match rest1 with
                | e :: rest2 =>
                    if (Ascii.eqb c ":" && Ascii.eqb d "v"
                        || Ascii.eqb c "@" && Ascii.eqb d "p")
                       && isDigit e
                    then answer [c; d; e] rest2 true
                    else c :: replaceTokens rest args None
                | [] => c :: replaceTokens rest args None
                end
          | [] => c :: replaceTokens rest args None
          end
  end.

(** [FormatSqlWithArgs] *)
Definition FormatSqlWithArgs (sql : string) (args : list GoValue) : string :=
  string_of_list_ascii (replaceTokens (chars sql) args None).

(** The statement of [BinderSpec.template] with every placeholder
    replaced by what the callback writes for its argument. *)
Fixpoint filled (parts : list (string * GoValue)) (tail : string) : string :=
  match parts with
  | [] => tail
  | (seg, arg) :: rest => seg +:+ formatArg arg +:+ filled rest tail
  end.

End Format.

(** A text in which no match of the pattern can start. *)
Definition plainText (s : string) : bool :=
  forallb
    (fun c => negb (Ascii.eqb c "?" || Ascii.eqb c "$" || Ascii.eqb c ":"
                    || Ascii.eqb c "@"))
    (chars s).

End Debug.

(** * Properties *)

(** ** Facts about byte strings *)

Module StrFacts.
Import Str.

Lemma app_nil_l (s : string) : "" +:+ s = s.
Proof. reflexivity. Qed.

Lemma app_cons (c : ascii) (a b : string) :
  String c a +:+ b = String c (a +:+ b).
Proof. reflexivity. Qed.

Lemma app_nil_r (s : string) : s +:+ "" = s.
Proof.
  induction s as [|c s IH]; [reflexivity|].
  now rewrite app_cons, IH.
Qed.

Lemma app_assoc (a b c : string) : (a +:+ b) +:+ c = a +:+ (b +:+ c).
Proof.
  induction a as [|x a IH]; [reflexivity|].
  now rewrite !app_cons, IH.
Qed.

Lemma CountHolder_app (a b : string) :
  CountHolder (a +:+ b) = CountHolder a + CountHolder b.
Proof.
  induction a as [|c a IH]; [reflexivity|].
  rewrite app_cons; simpl.
  destruct (Ascii.eqb c "?"); simpl; now rewrite IH.
Qed.

Lemma CountHolder_Repeat_comma (n : nat) : CountHolder (Repeat ",?" n) = n.
Proof.
  induction n as [|n IH]; [reflexivity|].
  simpl Repeat. rewrite CountHolder_app, IH. reflexivity.
Qed.

End StrFacts.

(** ** The argument binder *)

Module BinderFacts.
Import Str StrFacts Binder BinderSpec.

(** Once the callback has replaced a placeholder it leaves the rest of
    the text alone. *)
Lemma ReplaceStringFunc_replaced index len (q : string) st :
  replaced st = true ->
  ReplaceStringFunc index len q st = (q, st).
Proof.
  intros Hr. induction q as [|c q IH]; [reflexivity|].
  simpl. destruct (Ascii.eqb c "?") eqn:Hc.
  - unfold onHolder. rewrite Hr, IH.
    apply Ascii.eqb_eq in Hc. subst c. reflexivity.
  - now rewrite IH.
Qed.

(** The callback widens exactly the placeholder that follows
    [index + insertHolderCount] earlier ones. *)
Lemma ReplaceStringFunc_at index len (p q : string) c ihc :
  c + CountHolder p = index + ihc ->
  ReplaceStringFunc index len (p +:+ "?" +:+ q) (mkHolderState c false ihc)
  = (p +:+ holders len +:+ q,
     mkHolderState (S (index + ihc)) true (ihc + (len - 1))).
Proof.
  revert c. induction p as [|x p IH]; intros c Hc.
  - simpl in Hc. rewrite !app_nil_l.
    change ("?" +:+ q) with (String "?" q).
    cbn [ReplaceStringFunc]. change (Ascii.eqb "?" "?") with true. cbv iota.
    unfold onHolder. cbn [replaced counter insertHolderCount].
    replace (S c =? index + ihc + 1)%nat with true
      by (symmetry; apply Nat.eqb_eq; lia).
    cbv beta iota. rewrite ReplaceStringFunc_replaced by reflexivity.
    unfold holders. replace (S c) with (S (index + ihc)) by lia.
    reflexivity.
  - change (String x p +:+ "?" +:+ q) with (String x (p +:+ "?" +:+ q)).
    change (String x p +:+ holders len +:+ q)
      with (String x (p +:+ holders len +:+ q)).
    cbn [ReplaceStringFunc]. simpl in Hc. destruct (Ascii.eqb x "?") eqn:Hx.
    + unfold onHolder. cbn [replaced counter insertHolderCount].
      replace (S c =? index + ihc + 1)%nat with false
        by (symmetry; apply Nat.eqb_neq; lia).
      cbv beta iota. rewrite (IH (S c)) by lia.
      apply Ascii.eqb_eq in Hx. subst x. reflexivity.
    + rewrite (IH c) by lia. reflexivity.
Qed.

(** The callback never removes a placeholder. *)
Lemma ReplaceStringFunc_keeps index len (q : string) st :
  CountHolder q <= CountHolder (fst (ReplaceStringFunc index len q st)).
Proof.
  revert st. induction q as [|c q IH]; intros st; [simpl; lia|].
  simpl. destruct (Ascii.eqb c "?") eqn:Hc.
  - destruct (onHolder index len st) as [out st1] eqn:Ho.
    specialize (IH st1).
    destruct (ReplaceStringFunc index len q st1) as [rest' st2].
    simpl in *. rewrite CountHolder_app.
    assert (1 <= CountHolder out).
    { unfold onHolder in Ho.
      destruct (replaced st); [inversion Ho; simpl; lia|].
      destruct (Nat.eqb _ _); inversion Ho; subst; simpl; lia. }
    lia.
  - specialize (IH st).
    destruct (ReplaceStringFunc index len q st) as [rest' st2].
    simpl in *. rewrite Hc. exact IH.
Qed.

(** One turn of the loop on an argument that is split. *)
Lemma handleLoop_split total index arg rest sql acc ihc :
  isSplit arg = true ->
  handleLoop total index (arg :: rest) sql acc ihc =
  let elems := sliceElems (elemAll arg) in
  let len := length elems in
  if Nat.eqb len 0 && ContainsHolder sql then (falseSql sql, [])
  else if Nat.eqb total 1 && Nat.eqb (CountHolder sql) len
  then handleLoop total (S index) rest sql (acc ++ elems) ihc
  else
    let '(sql1, st) :=
      ReplaceStringFunc index len sql (mkHolderState 0 false ihc) in
    handleLoop total (S index) rest sql1 (acc ++ elems)
      (insertHolderCount st).
Proof.
  unfold isSplit. intros H.
  cbn [handleLoop].
  destruct (kindOf (elemAll arg)) eqn:Hk; try discriminate.
  destruct arg; try discriminate; reflexivity.
Qed.

(** One turn of the loop on an argument that is kept whole. *)
Lemma handleLoop_scalar total index arg rest sql acc ihc :
  isSplit arg = false ->
  handleLoop total index (arg :: rest) sql acc ihc =
  handleLoop total (S index) rest sql (acc ++ [boundScalar arg]) ihc.
Proof.
  unfold isSplit, boundScalar, isStructKind. intros H.
  cbn [handleLoop].
  destruct (kindOf (elemAll arg)) eqn:Hk; try reflexivity.
  - destruct arg; try discriminate; reflexivity.
  - destruct arg as [| | | | | | | | | | |[t|]]; try discriminate;
      try reflexivity.
    + destruct str; reflexivity.
    + destruct t as [| | | | | | | | | | |[u|]]; try discriminate;
        try reflexivity.
      destruct str; reflexivity.
Qed.

Lemma expanded_tail parts tail :
  expanded parts tail = expanded parts "" +:+ tail.
Proof.
  induction parts as [|[seg arg] parts IH]; [reflexivity|].
  cbn [expanded]. rewrite IH, !app_assoc. reflexivity.
Qed.

Lemma expanded_snoc parts seg arg :
  expanded (parts ++ [(seg, arg)]) ""
  = (expanded parts "" +:+ seg) +:+ holders (arity arg).
Proof.
  induction parts as [|[seg' arg'] parts IH].
  - cbn [expanded app]. now rewrite app_nil_l, app_nil_r.
  - cbn [expanded app]. rewrite IH, !app_assoc. reflexivity.
Qed.

Lemma inserted_snoc parts seg arg :
  inserted (parts ++ [(seg, arg)]) = inserted parts + (arity arg - 1).
Proof.
  unfold inserted. rewrite map_app, list_sum_app. simpl. lia.
Qed.

Lemma CountHolder_holders n : n <> 0 -> CountHolder (holders n) = n.
Proof.
  intros Hn. unfold holders.
  change ("?" +:+ Repeat ",?" (n - 1)) with (String "?" (Repeat ",?" (n - 1))).
  simpl. rewrite CountHolder_Repeat_comma. lia.
Qed.

Lemma CountHolder_expanded parts :
  wellBound parts ->
  CountHolder (expanded parts "") = length parts + inserted parts.
Proof.
  unfold wellBound, inserted.
  induction 1 as [|[seg arg] parts [Hseg Har] _ IH]; [reflexivity|].
  cbn [expanded map list_sum length fst snd] in *.
  rewrite !CountHolder_app, CountHolder_holders, IH, Hseg by assumption.
  change (list_sum (?x :: ?l)) with (x + list_sum l). lia.
Qed.

Lemma wellBound_snoc parts seg arg :
  wellBound parts -> CountHolder seg = 0 -> arity arg <> 0 ->
  wellBound (parts ++ [(seg, arg)]).
Proof.
  intros Hp Hs Ha. apply Forall_app. split; [exact Hp|].
  constructor; [split; assumption | constructor].
Qed.

(** The loop invariant: with [done] processed and [todo] ahead, the text
    is the widened statement of [done] followed by the untouched rest. *)
Lemma handleLoop_bound todo : forall done tail acc,
  wellBound done -> wellBound todo -> CountHolder tail = 0 ->
  handleLoop (length done + length todo) (length done) (map snd todo)
    (expanded done "" +:+ template todo tail) acc (inserted done)
  = (expanded done "" +:+ expanded todo tail, acc ++ boundAll todo).
Proof.
  induction todo as [|[seg arg] rest IH]; intros done tail acc Hd Ht Htail.
  - cbn. now rewrite List.app_nil_r.
  - inversion Ht as [|? ? [Hseg Har] Hrest]; subst. cbn [fst snd] in *.
    pose proof (wellBound_snoc done seg arg Hd Hseg Har) as Hd'.
    assert (Hnext : forall acc',
      handleLoop (length done + length ((seg, arg) :: rest))
        (S (length done)) (map snd rest)
        (((expanded done "" +:+ seg) +:+ holders (arity arg))
           +:+ template rest tail) acc'
        (inserted done + (arity arg - 1))
      = (expanded done "" +:+ expanded ((seg, arg) :: rest) tail,
         acc' ++ boundAll rest)).
    { intros acc'.
      specialize (IH (done ++ [(seg, arg)]) tail acc' Hd' Hrest Htail).
      rewrite length_app, expanded_snoc, inserted_snoc in IH.
      cbn [length] in IH |- *.
      replace (length done + 1 + length rest)
        with (length done + S (length rest)) in IH by lia.
      replace (length done + 1) with (S (length done)) in IH by lia.
      rewrite IH. cbn [expanded]. rewrite !app_assoc. reflexivity. }
    cbn [map snd template].
    unfold boundAll. cbn [map concat snd]. fold (boundAll rest).
    rewrite (List.app_assoc acc).
    destruct (isSplit arg) eqn:Hsplit.
    + rewrite handleLoop_split by assumption. cbv zeta.
      assert (Hb : bound arg = sliceElems (elemAll arg))
        by (unfold bound; now rewrite Hsplit).
      unfold arity in Har, Hnext. rewrite Hb in *.
      set (elems := sliceElems (elemAll arg)) in *.
      replace (length elems =? 0)%nat with false
        by (symmetry; now apply Nat.eqb_neq).
      cbn [andb].
      destruct (Nat.eqb _ 1 && Nat.eqb _ (length elems)) eqn:Hskip.
      * apply andb_prop in Hskip as [H1 Hc].
        apply Nat.eqb_eq in H1, Hc. cbn [length] in H1.
        destruct done as [|d done]; [|cbn [length] in H1; lia].
        destruct rest as [|r rest]; [|cbn [length] in H1; lia].
        cbn [expanded template] in Hc |- *.
        rewrite !app_nil_l in *.
        rewrite !CountHolder_app, Hseg, Htail in Hc. simpl in Hc.
        unfold arity. rewrite Hb, <- Hc. cbn.
        rewrite List.app_nil_r. reflexivity.
      * rewrite <- app_assoc.
        rewrite (ReplaceStringFunc_at (length done) (length elems)
                   (expanded done "" +:+ seg) (template rest tail) 0
                   (inserted done)).
        2:{ rewrite CountHolder_app, CountHolder_expanded, Hseg by assumption.
            lia. }
        cbn [insertHolderCount]. rewrite <- app_assoc. apply Hnext.
    + rewrite handleLoop_scalar by assumption.
      assert (Hb : bound arg = [boundScalar arg])
        by (unfold bound; now rewrite Hsplit).
      unfold arity in Hnext. rewrite Hb in *. cbn [length] in Hnext.
      specialize (Hnext (acc ++ [boundScalar arg])).
      replace (inserted done + (1 - 1)) with (inserted done) in Hnext by lia.
      rewrite <- Hnext. f_equal.
      change (holders 1) with "?". rewrite !app_assoc. reflexivity.
Qed.

Lemma length_boundAll parts :
  wellBound parts -> length (boundAll parts) = length parts + inserted parts.
Proof.
  unfold wellBound, inserted, boundAll.
  induction 1 as [|[seg arg] parts [_ Har] _ IH]; [reflexivity|].
  cbn [map concat length snd list_sum] in *.
  rewrite length_app, IH. fold (arity arg).
  change (list_sum (?x :: ?l)) with (x + list_sum l). lia.
Qed.

(** The widened statement holds one placeholder for every bound value. *)
Lemma CountHolder_bound parts tail :
  wellBound parts -> CountHolder tail = 0 ->
  CountHolder (expanded parts tail) = length (boundAll parts).
Proof.
  intros Hp Ht.
  rewrite expanded_tail, CountHolder_app, Ht, CountHolder_expanded by assumption.
  rewrite length_boundAll by assumption. lia.
Qed.

(** Without a split argument the text is untouched and every argument
    is bound as one value. *)
Lemma handleLoop_scalars args : forall total index sql acc ihc,
  Forall (fun a => isSplit a = false) args ->
  handleLoop total index args sql acc ihc
  = (sql, acc ++ map boundScalar args).
Proof.
  induction args as [|a args IH]; intros total index sql acc ihc Hall.
  - cbn. now rewrite List.app_nil_r.
  - inversion Hall; subst.
    rewrite handleLoop_scalar, IH by assumption.
    cbn [map]. now rewrite <- List.app_assoc.
Qed.

Lemma falseSql_suffix sql : exists pre, falseSql sql = pre +:+ "0=1".
Proof.
  unfold falseSql. destruct (PosI sql whereKeyWord) as [p|].
  - eexists. reflexivity.
  - exists "". reflexivity.
Qed.

(** The loop stops on the first empty split argument as long as the text
    holds a placeholder, whatever came before it. *)
Lemma handleLoop_empty args : forall total index sql acc ihc,
  ContainsHolder sql = true ->
  Exists (fun a => isEmptySplit a = true) args ->
  exists pre, handleLoop total index args sql acc ihc = (pre +:+ "0=1", []).
Proof.
  induction args as [|a args IH]; intros total index sql acc ihc Hsql Hex.
  - inversion Hex.
  - destruct (isSplit a) eqn:Hsplit.
    + rewrite handleLoop_split by assumption. cbv zeta.
      destruct (length (sliceElems (elemAll a)) =? 0)%nat eqn:Hlen.
      * rewrite Hsql. cbn [andb].
        destruct (falseSql_suffix sql) as [pre ->]. now exists pre.
      * assert (Hrest : Exists (fun a => isEmptySplit a = true) args).
        { inversion Hex as [? ? Ha|]; subst; [|assumption].
          unfold isEmptySplit in Ha. rewrite Hsplit, Hlen in Ha.
          discriminate. }
        cbn [andb].
        destruct (Nat.eqb total 1 && Nat.eqb _ _); [now apply IH|].
        pose proof (ReplaceStringFunc_keeps index
                      (length (sliceElems (elemAll a))) sql
                      (mkHolderState 0 false ihc)) as Hkeep.
        destruct (ReplaceStringFunc _ _ sql _) as [sql1 st].
        apply IH; [|assumption].
        unfold ContainsHolder in *. cbn [fst] in Hkeep.
        apply negb_true_iff, Nat.eqb_neq in Hsql.
        apply negb_true_iff, Nat.eqb_neq. lia.
    + rewrite handleLoop_scalar by assumption.
      apply IH; [assumption|].
      inversion Hex as [? ? Ha|]; subst; [|assumption].
      unfold isEmptySplit in Ha. rewrite Hsplit in Ha. discriminate.
Qed.

End BinderFacts.

(** ** Claims about the argument binder *)

Module BinderClaims.
Import Str StrFacts Binder BinderSpec BinderFacts.

(** C1 (amended). When every argument is bound to one [?] and no split
    slice is empty, the binder widens the placeholder of each slice of
    [N] elements to [N] placeholders in place and splices the elements
    into the argument list in order, so that the text holds one
    placeholder for every bound value; and when a non-empty slice is the
    only argument and the text already holds as many placeholders as the
    slice has elements, the text is returned unchanged with the elements
    bound one per placeholder. *)
Theorem slice_expansion :
  (forall parts tail,
      wellBound parts -> CountHolder tail = 0 ->
      handleArguments (template parts tail) (map snd parts)
      = (expanded parts tail, boundAll parts)
      /\ CountHolder (expanded parts tail) = length (boundAll parts))
  /\
  (forall sql arg,
      isSplit arg = true -> arity arg <> 0 ->
      CountHolder sql = arity arg ->
      handleArguments sql [arg] = (sql, bound arg)).
Proof.
  split.
  - intros parts tail Hp Ht. split; [|now apply CountHolder_bound].
    pose proof (handleLoop_bound parts [] tail [] (List.Forall_nil _) Hp Ht) as H.
    cbn [length expanded Nat.add] in H. rewrite !app_nil_l in H.
    unfold handleArguments. rewrite length_map. exact H.
  - intros sql arg Hs Ha Hc.
    unfold handleArguments. rewrite handleLoop_split by assumption.
    cbv zeta. unfold arity, bound in *. rewrite Hs in *.
    replace (length (sliceElems (elemAll arg)) =? 0)%nat with false
      by (symmetry; now apply Nat.eqb_neq).
    cbn [andb length]. rewrite Hc, !Nat.eqb_refl. reflexivity.
Qed.

Lemma slice_expansion_witness :
  handleArguments "select * from t where id in(?) and x=?"
    [VSlice [VInt 1; VInt 2; VInt 3]; VInt 9]
  = ("select * from t where id in(?,?,?) and x=?",
     [VInt 1; VInt 2; VInt 3; VInt 9])
  /\
  handleArguments "SELECT ?+?" [VSlice [VInt 1; VInt 2]]
  = ("SELECT ?+?", [VInt 1; VInt 2]).
Proof.
  split.
  - refine (proj1 (proj1 slice_expansion
             [("select * from t where id in(",
               VSlice [VInt 1; VInt 2; VInt 3]);
              (") and x=", VInt 9)] "" _ _)).
    + repeat constructor; vm_compute; discriminate.
    + reflexivity.
  - apply (proj2 slice_expansion "SELECT ?+?" (VSlice [VInt 1; VInt 2])).
    + reflexivity.
    + vm_compute; discriminate.
    + reflexivity.
Defined.

(** C1 as stated fails: with a second argument in the list the slice is
    expanded although the text already holds as many placeholders as the
    slice has elements. *)
Lemma slice_expansion_counterexample :
  ~ (forall sql elems rest,
        elems <> [] -> CountHolder sql = length elems ->
        fst (handleArguments sql (VSlice elems :: rest)) = sql).
Proof.
  intros H.
  specialize (H "SELECT ?+?" [VInt 1; VInt 2] [VInt 3]).
  vm_compute in H. discriminate H; [discriminate | reflexivity].
Qed.



(** C9 (amended). A struct-kinded argument, wherever it stands among
    arguments that are not split, is bound as it is when it is a
    [time.Time] or [*time.Time]; it is bound as its [String()] text when it
    is a [gtime.Time], a [*gtime.Time] or implements [String()]; any other
    struct is passed to the driver unchanged.  The text is not touched. *)
Theorem struct_argument sql before arg after :
  Forall (fun a => isSplit a = false) before ->
  Forall (fun a => isSplit a = false) after ->
  isStructKind arg = true ->
  handleArguments sql (before ++ arg :: after)
  = (sql,
     map boundScalar before
     ++ [if isStdTime arg then arg
         else match asApiString arg with
              | Some s => VStr s
              | None => arg
              end]
     ++ map boundScalar after).
Proof.
  intros Hb Ha Hk. unfold handleArguments.
  assert (Hs : isSplit arg = false).
  { unfold isSplit, isStructKind in *.
    destruct (kindOf (elemAll arg)); try discriminate; reflexivity. }
  rewrite handleLoop_scalars
    by (apply Forall_app; split; [|constructor]; assumption).
  rewrite map_app. cbn [map app]. f_equal. f_equal. f_equal.
  unfold boundScalar. rewrite Hk. cbn [andb].
  destruct (isStdTime arg); reflexivity.
Qed.

Lemma struct_argument_witness :
  handleArguments "id=? and t=?" [VInt 1; VGTime "2021-01-02 03:04:05"]
  = ("id=? and t=?", [VInt 1; VStr "2021-01-02 03:04:05"])
  /\ handleArguments "t=?" [VPtr (Some (VTime 7))]
     = ("t=?", [VPtr (Some (VTime 7))]).
Proof.
  split.
  - apply (struct_argument "id=? and t=?" [VInt 1]
             (VGTime "2021-01-02 03:04:05") []).
    + repeat constructor.
    + constructor.
    + reflexivity.
  - apply (struct_argument "t=?" [] (VPtr (Some (VTime 7))) []).
    + constructor.
    + constructor.
    + reflexivity.
Defined.

(** C9 as stated fails: a struct without [String()] that is no time
    value is not flattened to a primitive. *)
Lemma struct_argument_counterexample :
  ~ (forall sql arg,
        isStructKind arg = true -> isStdTime arg = false ->
        Forall (fun v => isPrimitive v = true)
          (snd (handleArguments sql [arg]))).
Proof.
  intros H.
  specialize (H "p=?" (VStruct "Point" NoString) eq_refl eq_refl).
  vm_compute in H. inversion H as [|? ? Hp _]. discriminate Hp.
Qed.

End BinderClaims.

(** ** Condition composition *)

Module WhereFacts.
Import Str StrFacts Where.

Lemma regular_char_no_holder (c : ascii) :
  (isAlnum c || Ascii.eqb c "_" || Ascii.eqb c "." || Ascii.eqb c "-") = true ->
  Ascii.eqb c "?" = false.
Proof.
  intros H. destruct (Ascii.eqb c "?") eqn:Hc; [|reflexivity].
  apply Ascii.eqb_eq in Hc. subst c. vm_compute in H. discriminate.
Qed.

(** A regular field name holds no placeholder. *)
Lemma regularFieldName_no_holder (s : string) :
  regularFieldName s = true -> CountHolder s = 0.
Proof.
  unfold regularFieldName. intros H.
  apply andb_prop in H as [_ H]. unfold chars in H.
  induction s as [|c s IH]; [reflexivity|].
  cbn [list_ascii_of_string forallb] in H.
  apply andb_prop in H as [Hc Hs].
  cbn [CountHolder]. rewrite (regular_char_no_holder c Hc). now apply IH.
Qed.

Lemma doQuoteWord_no_holder (s l r : string) :
  CountHolder s = 0 -> CountHolder l = 0 -> CountHolder r = 0 ->
  CountHolder (doQuoteWord s l r) = 0.
Proof.
  intros Hs Hl Hr. unfold doQuoteWord.
  destruct (quoteWordReg s && negb (ContainsAny s (l +:+ r)));
    [|assumption].
  rewrite !CountHolder_app. lia.
Qed.

End WhereFacts.

Module WhereClaims.
Import Str StrFacts Where WhereFacts.

(** C5 (amended). For a key that is a plain field name, on an empty
    buffer: a nil value writes the (quoted) field followed by [ IS NULL]
    and binds nothing; a slice value writes the field followed by
    [ IN(?)], with no blank before the parenthesis, and binds the slice
    as one argument. *)
Theorem plain_key_nil_and_slice `{db : DB} (IsEmpty : GoValue -> bool)
    (args : list GoValue) (key : string) :
  regularFieldName key = true ->
  CountHolder (fst GetChars) = 0 -> CountHolder (snd GetChars) = 0 ->
  formatWhereKeyValue IsEmpty "" args key VNil
  = (QuoteWord key +:+ " IS NULL", args)
  /\ forall elems,
      formatWhereKeyValue IsEmpty "" args key (VSlice elems)
      = (QuoteWord key +:+ " IN(?)", args ++ [VSlice elems]).
Proof.
  intros Hkey Hl Hr. split.
  - unfold formatWhereKeyValue. cbn. rewrite Hkey. reflexivity.
  - intros elems. unfold formatWhereKeyValue. cbn.
    unfold QuoteWord.
    rewrite doQuoteWord_no_holder
      by (try assumption; now apply regularFieldName_no_holder).
    reflexivity.
Qed.

Lemma plain_key_nil_and_slice_witness :
  formatWhereKeyValue (db := coreDB) (fun _ => false) "" [] "id" VNil
  = ("id IS NULL", [])
  /\ formatWhereKeyValue (db := coreDB) (fun _ => false) "" [] "id"
       (VSlice [VInt 1; VInt 2; VInt 3])
     = ("id IN(?)", [VSlice [VInt 1; VInt 2; VInt 3]]).
Proof.
  destruct (plain_key_nil_and_slice (db := coreDB) (fun _ => false) [] "id"
              eq_refl eq_refl eq_refl) as [Hnil Hslice].
  split; [exact Hnil | exact (Hslice [VInt 1; VInt 2; VInt 3])].
Defined.

(** C5 as stated fails: the text written for a slice value is
    [id IN(?)], not [id IN (?)]. *)
Lemma plain_key_nil_and_slice_counterexample :
  ~ (forall (IsEmpty : GoValue -> bool) key elems,
        regularFieldName key = true ->
        fst (formatWhereKeyValue (db := coreDB) IsEmpty "" [] key
               (VSlice elems))
        = key +:+ " IN (?)").
Proof.
  intros H.
  specialize (H (fun _ => false) "id" [VInt 1; VInt 2; VInt 3] eq_refl).
  vm_compute in H. discriminate H.
Qed.

End WhereClaims.

(** ** The weighted node selector *)

Module RouterFacts.
Import Router.
Local Open Scope Z_scope.

Lemma wrap_id z : GoInt.inRange z -> GoInt.wrap z = z.
Proof.
  unfold GoInt.inRange, GoInt.wrap. intros H.
  rewrite Z.mod_small; lia.
Qed.

Lemma weightSum_nonneg nodes : nonNegative nodes -> 0 <= weightSum nodes.
Proof.
  induction 1 as [|n nodes Hn _ IH]; simpl; lia.
Qed.

Lemma weightSum_app a b : weightSum (a ++ b) = weightSum a + weightSum b.
Proof. induction a as [|n a IH]; simpl; lia. Qed.

Lemma nonNegative_take nodes k :
  nonNegative nodes -> nonNegative (take k nodes).
Proof. apply Forall_take. Qed.

Lemma weightSum_take_le nodes k :
  nonNegative nodes -> 0 <= weightSum (take k nodes) <= weightSum nodes.
Proof.
  intros H. rewrite <- (take_drop k nodes) at 3.
  rewrite weightSum_app.
  pose proof (weightSum_nonneg _ (nonNegative_take nodes k H)).
  pose proof (weightSum_nonneg (drop k nodes) (Forall_drop _ _ _ H)).
  lia.
Qed.

Lemma weightSum_take_S nodes i n :
  nodes !! i = Some n ->
  weightSum (take (S i) nodes) = weightSum (take i nodes) + Weight n.
Proof.
  intros H. rewrite (take_S_r _ _ _ H), weightSum_app. simpl. lia.
Qed.

(** One step of the summing loop does not overflow. *)
Lemma add_weight acc w :
  0 <= acc -> 0 <= w -> acc + 100 * w < 2 ^ 63 ->
  GoInt.add acc (GoInt.mul w 100) = acc + 100 * w.
Proof.
  intros Ha Hw Hb. unfold GoInt.add, GoInt.mul.
  rewrite (wrap_id (w * 100)) by (unfold GoInt.inRange; lia).
  rewrite wrap_id by (unfold GoInt.inRange; lia). lia.
Qed.

Lemma sumWeights_from nodes : forall acc,
  nonNegative nodes -> 0 <= acc -> acc + 100 * weightSum nodes < 2 ^ 63 ->
  fold_left (fun total n => GoInt.add total (GoInt.mul (Weight n) 100))
    nodes acc
  = acc + 100 * weightSum nodes.
Proof.
  induction nodes as [|n nodes IH]; intros acc Hn Ha Hb; simpl in *.
  - lia.
  - inversion Hn as [|? ? Hw Hrest]; subst.
    pose proof (weightSum_nonneg nodes Hrest).
    rewrite add_weight by lia. rewrite IH by (try assumption; lia). lia.
Qed.

Lemma sumWeights_exact nodes :
  nonNegative nodes -> 100 * weightSum nodes < 2 ^ 63 ->
  sumWeights nodes = 100 * weightSum nodes.
Proof.
  intros Hn Hb. unfold sumWeights.
  rewrite sumWeights_from by (try assumption; lia). lia.
Qed.

Lemma defaultTotal_from (nodes : list ConfigNode) : forall acc,
  0 <= acc -> acc + 100 * Z.of_nat (length nodes) < 2 ^ 63 ->
  fold_left (fun total _ => GoInt.add total (GoInt.mul 1 100)) nodes acc
  = acc + 100 * Z.of_nat (length nodes).
Proof.
  induction nodes as [|n nodes IH]; intros acc Ha Hb.
  - simpl. lia.
  - cbn [fold_left]. cbn [length] in Hb.
    rewrite add_weight by lia. rewrite IH by lia.
    cbn [length]. lia.
Qed.

Lemma weightSum_default nodes :
  weightSum (map (setWeight 1) nodes) = Z.of_nat (length nodes).
Proof.
  induction nodes as [|n nodes IH]; [reflexivity|].
  cbn [map weightSum foldr length] in *.
  unfold weightSum in IH. rewrite IH. cbn [Weight setWeight]. lia.
Qed.

Lemma nonNegative_default nodes : nonNegative (map (setWeight 1) nodes).
Proof.
  apply Forall_map. apply Forall_forall. intros n _. simpl. lia.
Qed.

Lemma allZero_weightSum nodes :
  nonNegative nodes -> (allZero nodes <-> weightSum nodes = 0).
Proof.
  induction 1 as [|n nodes Hn Hrest IH].
  - split; [reflexivity | constructor].
  - pose proof (weightSum_nonneg nodes Hrest).
    change (weightSum (n :: nodes)) with (Weight n + weightSum nodes).
    split.
    + intros Hz. inversion Hz; subst. apply IH in H3. lia.
    + intros Hs. constructor; [lia | apply IH; lia].
Qed.

(** What the selector draws against, for weights that fit. *)
Lemma weigh_exact nodes :
  nonNegative nodes -> fits nodes ->
  weigh nodes =
  if Z.eqb (weightSum nodes) 0
  then (map (setWeight 1) nodes, 100 * Z.of_nat (length nodes))
  else (nodes, 100 * weightSum nodes).
Proof.
  intros Hn [Hb Hl]. unfold weigh.
  rewrite sumWeights_exact by assumption.
  destruct (Z.eqb_spec (weightSum nodes) 0) as [Hz|Hz].
  - rewrite Hz. cbn [Z.mul Z.eqb]. unfold defaultWeights.
    rewrite defaultTotal_from by lia. f_equal.
  - destruct (Z.eqb_spec (100 * weightSum nodes) 0); [lia|reflexivity].
Qed.

Lemma weightSum_cons n nodes :
  weightSum (n :: nodes) = Weight n + weightSum nodes.
Proof. reflexivity. Qed.

(** The scanning loop picks node [i + k] exactly for the draws of the
    [k]-th cumulative range. *)
Lemma scan_spec nodes : forall i min r j,
  nonNegative nodes -> 0 <= min ->
  min + 100 * weightSum nodes < 2 ^ 63 ->
  scan nodes i min r = Some j <->
  exists k : nat,
    j = (i + k)%nat /\ (k < length nodes)%nat
    /\ min + 100 * weightSum (take k nodes) <= r
       < min + 100 * weightSum (take (S k) nodes).
Proof.
  induction nodes as [|n nodes IH]; intros i min r j Hn Hmin Hb.
  - simpl. split; [discriminate|]. intros (k & _ & Hk & _). simpl in Hk. lia.
  - inversion Hn as [|? ? Hw Hrest]; subst.
    pose proof (weightSum_nonneg nodes Hrest) as Hs.
    rewrite weightSum_cons in Hb.
    cbn [scan]. rewrite add_weight by lia.
    destruct (Z.leb min r && Z.ltb r (min + 100 * Weight n)) eqn:Hin.
    + apply andb_prop in Hin as [H1 H2].
      apply Z.leb_le in H1. apply Z.ltb_lt in H2.
      split.
      * intros [= <-]. exists 0%nat.
        rewrite firstn_cons, !take_0, weightSum_cons. cbn [weightSum foldr length].
        split; [lia|]. split; lia.
      * intros (k & -> & Hk & Hr). destruct k as [|k]; [f_equal; lia|].
        exfalso. rewrite !firstn_cons, !weightSum_cons in Hr.
        pose proof (weightSum_take_le nodes k Hrest). lia.
    + rewrite IH by (try assumption; lia).
      split.
      * intros (k & -> & Hk & Hr). exists (S k).
        rewrite !firstn_cons, !weightSum_cons. cbn [length].
        split; [lia|]. split; lia.
      * intros (k & -> & Hk & Hr). destruct k as [|k].
        -- exfalso. rewrite firstn_cons, !take_0, weightSum_cons in Hr.
           cbn [weightSum foldr] in Hr.
           apply andb_false_iff in Hin as [H|H];
             [apply Z.leb_gt in H | apply Z.ltb_ge in H]; lia.
        -- exists k. rewrite !firstn_cons, !weightSum_cons in Hr.
           cbn [length] in Hk.
           split; [lia|]. split; lia.
Qed.

(** Every draw below the total is picked up by some node. *)
Lemma scan_total nodes : forall i min r,
  nonNegative nodes -> 0 <= min ->
  min + 100 * weightSum nodes < 2 ^ 63 ->
  min <= r < min + 100 * weightSum nodes ->
  exists j, scan nodes i min r = Some j.
Proof.
  induction nodes as [|n nodes IH]; intros i min r Hn Hmin Hb Hr.
  - simpl in Hr. lia.
  - inversion Hn as [|? ? Hw Hrest]; subst.
    rewrite weightSum_cons in Hb, Hr.
    cbn [scan]. rewrite add_weight
      by (pose proof (weightSum_nonneg nodes Hrest); lia).
    destruct (Z.leb min r && Z.ltb r (min + 100 * Weight n)) eqn:Hin.
    + now exists i.
    + apply IH; try assumption; lia.
Qed.

Lemma filter_none {A} (P : A -> Prop) `{!forall x, Decision (P x)} l :
  Forall (fun x => ~ P x) l -> filter P l = [].
Proof.
  induction 1 as [|x l Hx _ IH]; [reflexivity|].
  now rewrite filter_cons_False.
Qed.

Lemma filter_all {A} (P : A -> Prop) `{!forall x, Decision (P x)} l :
  Forall P l -> filter P l = l.
Proof.
  induction 1 as [|x l Hx _ IH]; [reflexivity|].
  rewrite filter_cons_True by assumption. now rewrite IH.
Qed.

(** The integers of [[0, n)] that fall in [[a, b)]. *)
Lemma count_interval a b n :
  0 <= a <= b -> b <= n ->
  length (filter (fun r => a <= r < b) (seqZ 0 n)) = Z.to_nat (b - a).
Proof.
  intros Hab Hbn.
  replace n with (a + ((b - a) + (n - b))) by lia.
  rewrite seqZ_app by lia. rewrite seqZ_app by lia.
  rewrite !filter_app.
  rewrite (filter_none _ (seqZ 0 a))
    by (apply Forall_seqZ; intros; lia).
  rewrite (filter_all _ (seqZ (0 + a) (b - a)))
    by (apply Forall_seqZ; intros; lia).
  rewrite filter_none by (apply Forall_seqZ; intros; lia).
  cbn [app]. rewrite List.app_nil_r. apply length_seqZ.
Qed.

(** Node [i] is picked by exactly [100 * Weight] of the draws. *)
Lemma drawsFor_exact nodes i n :
  nonNegative nodes -> 100 * weightSum nodes < 2 ^ 63 ->
  nodes !! i = Some n ->
  Z.of_nat (drawsFor nodes (100 * weightSum nodes) i) = 100 * Weight n.
Proof.
  intros Hn Hb Hi. unfold drawsFor.
  pose proof (lookup_lt_Some _ _ _ Hi) as Hlt.
  pose proof (weightSum_take_S nodes i n Hi) as HS.
  pose proof (weightSum_take_le nodes i Hn) as Hi1.
  pose proof (weightSum_take_le nodes (S i) Hn) as Hi2.
  assert (Hw : 0 <= Weight n).
  { unfold nonNegative in Hn. rewrite Forall_forall in Hn.
    apply Hn. eapply list_elem_of_lookup_2. exact Hi. }
  rewrite (list_filter_iff _
             (fun r => 100 * weightSum (take i nodes) <= r
                       < 100 * weightSum (take (S i) nodes))).
  - rewrite count_interval by lia. lia.
  - intros r. rewrite scan_spec by (try assumption; lia).
    split.
    + intros (k & Hk & _ & Hr). cbn in Hk. subst k. lia.
    + intros Hr. exists i. split; [reflexivity|]. split; [assumption|lia].
Qed.

(** The selector writes to the array of its slice only. *)
Lemma getConfigNodeByWeight_frame N cg h l :
  l <> cg ->
  snd (getConfigNodeByWeight N cg h) !! l = h !! l.
Proof.
  intros Hne. unfold getConfigNodeByWeight.
  destruct (Nat.ltb _ 2).
  - destruct (default [] (h !! cg)); reflexivity.
  - destruct (weigh _) as [nodes1 total]. cbn [snd].
    now rewrite lookup_insert_ne.
Qed.

(** Picking a node for a group leaves every configured group as it was:
    the selector is handed copies. *)
Lemma getConfigNodeByGroup_store N group master w g nodes :
  groupNodes w g = Some nodes ->
  groupNodes (snd (getConfigNodeByGroup N group master w)) g = Some nodes.
Proof.
  unfold groupNodes. intros Hg.
  destruct (config w !! g) as [lg|] eqn:Hlg; [|discriminate].
  cbn [mbind option_bind] in Hg.
  unfold getConfigNodeByGroup.
  destruct (config w !! group) as [l|] eqn:Hl.
  2:{ cbn [snd]. rewrite Hlg. exact Hg. }
  set (lm := fresh (dom (heap w))).
  set (h1 := <[lm := _]> (heap w)).
  set (ls := fresh (dom h1)).
  set (h2 := <[ls := _]> h1).
  assert (Hm : lg <> lm).
  { intros Heq. apply (is_fresh (dom (heap w))). fold lm. rewrite <- Heq.
    apply elem_of_dom. rewrite Hg. eauto. }
  assert (Hs : lg <> ls).
  { intros Heq. apply (is_fresh (dom h1)). fold ls. rewrite <- Heq.
    apply elem_of_dom. unfold h1. rewrite lookup_insert_ne by congruence.
    rewrite Hg. eauto. }
  assert (H2 : h2 !! lg = Some nodes).
  { unfold h2, h1. now rewrite !lookup_insert_ne by congruence. }
  destruct (Nat.ltb _ 1).
  - cbn [snd config heap]. rewrite Hlg. exact H2.
  - match goal with
    | |- context [getConfigNodeByWeight N ?cg h2] =>
        pose proof (getConfigNodeByWeight_frame N cg h2 lg) as Hf;
        destruct (getConfigNodeByWeight N cg h2) as [out h3] eqn:Hout
    end.
    cbn [snd config heap] in *. rewrite Hlg. cbn [mbind option_bind].
    rewrite Hf; [exact H2|].
    destruct master; [assumption|]. destruct (Nat.ltb _ 1); assumption.
Qed.

(** What the selector draws against is positive, exact and fits. *)
Lemma weigh_total nodes :
  nodes <> [] -> nonNegative nodes -> fits nodes ->
  snd (weigh nodes) = 100 * weightSum (fst (weigh nodes))
  /\ 0 < snd (weigh nodes) < 2 ^ 63
  /\ nonNegative (fst (weigh nodes)).
Proof.
  intros Hne Hn Hfit.
  assert (Hlen : (0 < length nodes)%nat)
    by (destruct nodes; [congruence | simpl; lia]).
  rewrite (weigh_exact nodes Hn Hfit).
  pose proof (weightSum_nonneg nodes Hn) as Hpos.
  destruct Hfit as [Hb Hl].
  destruct (Z.eqb_spec (weightSum nodes) 0) as [H0|H0]; cbn [fst snd].
  - rewrite weightSum_default.
    split; [reflexivity|]. split; [lia | apply nonNegative_default].
  - split; [reflexivity|]. split; [lia | assumption].
Qed.

(** With a random source that keeps to its bounds the selector returns a
    node, and that node has a positive weight. *)
Lemma getConfigNodeByWeight_picks N cg h nodes :
  h !! cg = Some nodes -> (2 <= length nodes)%nat ->
  nonNegative nodes -> fits nodes ->
  (forall a b, a <= b -> a <= N a b <= b) ->
  exists i n,
    getConfigNodeByWeight N cg h
    = (Ret (Some (cg, i)), <[cg := fst (weigh nodes)]> h)
    /\ fst (weigh nodes) !! i = Some n /\ 0 < Weight n.
Proof.
  intros Hh Hlen Hn Hfit HN.
  assert (Hne : nodes <> []) by (destruct nodes; [simpl in Hlen; lia | congruence]).
  destruct (weigh_total nodes Hne Hn Hfit) as (Ht & Htot & Hn').
  unfold getConfigNodeByWeight. rewrite Hh. cbn [default from_option id].
  replace (Nat.ltb (length nodes) 2) with false
    by (symmetry; apply Nat.ltb_ge; lia).
  destruct (weigh nodes) as [nodes' total]. cbn [fst snd] in *.
  unfold GoInt.sub. rewrite wrap_id by (unfold GoInt.inRange; lia).
  set (r := N 0 (total - 1)).
  assert (Hr : 0 <= r <= total - 1) by (apply HN; lia).
  destruct (scan_total nodes' 0%nat 0 r Hn') as [i Hi]; try lia.
  pose proof Hi as Hi'.
  rewrite scan_spec in Hi' by (try assumption; lia).
  destruct Hi' as (k & Hk & Hklt & Hkr). cbn in Hk. subst k.
  destruct (lookup_lt_is_Some_2 nodes' i Hklt) as [n Hlook].
  exists i, n. rewrite Hi. cbn [option_map].
  split; [reflexivity|]. split; [assumption|].
  rewrite (weightSum_take_S nodes' i n Hlook) in Hkr. lia.
Qed.

End RouterFacts.

Module RouterClaims.
Import Router RouterFacts.
Local Open Scope Z_scope.

(** C6 (amended). For a slice of at least two candidates the selector
    weighs the nodes, stores the weighed nodes back into the array of
    that slice and returns the node the draw falls on.  For weights that
    are not negative and fit the machine integer: the total is 100 times
    the sum of the weights and is positive; when every weight is zero
    all weights are first set to 1, otherwise they are kept; every draw
    of [[0, total)] picks the one node whose cumulative range holds it;
    node [i] is picked by exactly [100 * weight] of the [total] draws.
    The selector is handed per-call copies by [getConfigNodeByGroup], so
    the nodes stored in the configuration keep their weights. *)
Theorem weighted_selection :
  (forall N cg h nodes,
      h !! cg = Some nodes -> (2 <= length nodes)%nat ->
      getConfigNodeByWeight N cg h
      = (Ret (option_map (pair cg)
                (scan (fst (weigh nodes)) 0 0
                   (N 0 (GoInt.sub (snd (weigh nodes)) 1)))),
         <[cg := fst (weigh nodes)]> h))
  /\
  (forall nodes,
      nodes <> [] -> nonNegative nodes -> fits nodes ->
      let nodes' := fst (weigh nodes) in
      let total := snd (weigh nodes) in
      total = 100 * weightSum nodes' /\ 0 < total
      /\ (allZero nodes -> nodes' = map (setWeight 1) nodes)
      /\ (~ allZero nodes -> nodes' = nodes)
      /\ (forall r, 0 <= r < total ->
            exists i,
              scan nodes' 0 0 r = Some i
              /\ rangeStart nodes' i <= r < rangeStart nodes' (S i)
              /\ forall j, (j < length nodes')%nat ->
                   rangeStart nodes' j <= r < rangeStart nodes' (S j) ->
                   j = i)
      /\ (forall i n, nodes' !! i = Some n ->
            Z.of_nat (drawsFor nodes' total i) = 100 * Weight n))
  /\
  (forall N cg h nodes,
      h !! cg = Some nodes -> (2 <= length nodes)%nat ->
      nonNegative nodes -> fits nodes ->
      (forall a b, a <= b -> a <= N a b <= b) ->
      exists i n,
        getConfigNodeByWeight N cg h
        = (Ret (Some (cg, i)), <[cg := fst (weigh nodes)]> h)
        /\ fst (weigh nodes) !! i = Some n /\ 0 < Weight n)
  /\
  (forall N group master w g nodes,
      groupNodes w g = Some nodes ->
      groupNodes (snd (getConfigNodeByGroup N group master w)) g
      = Some nodes).
Proof.
  split; [|split; [|split]]; [| |apply getConfigNodeByWeight_picks|].
  - intros N cg h nodes Hh Hlen. unfold getConfigNodeByWeight.
    rewrite Hh. cbn [default from_option id].
    replace (Nat.ltb (length nodes) 2) with false
      by (symmetry; apply Nat.ltb_ge; lia).
    destruct (weigh nodes). reflexivity.
  - intros nodes Hne Hn Hfit nodes' total.
    assert (Hlen : (0 < length nodes)%nat)
      by (destruct nodes; [congruence | simpl; lia]).
    pose proof (weigh_exact nodes Hn Hfit) as Hw.
    pose proof (allZero_weightSum nodes Hn) as Hz.
    pose proof (weightSum_nonneg nodes Hn) as Hpos.
    destruct Hfit as [Hb Hl].
    assert (Hspec : total = 100 * weightSum nodes' /\ 0 < total
                    /\ nonNegative nodes'
                    /\ (allZero nodes -> nodes' = map (setWeight 1) nodes)
                    /\ (~ allZero nodes -> nodes' = nodes)).
    { subst nodes' total. rewrite Hw.
      destruct (Z.eqb_spec (weightSum nodes) 0) as [H0|H0]; cbn [fst snd].
      - rewrite weightSum_default.
        split; [reflexivity|]. split; [lia|].
        split; [apply nonNegative_default|].
        split; [reflexivity|]. intros Hnz. exfalso. apply Hnz, Hz, H0.
      - split; [reflexivity|]. split; [lia|]. split; [assumption|].
        split; [|reflexivity]. intros Ha. exfalso. apply H0, Hz, Ha. }
    destruct Hspec as (Ht & Htpos & Hn' & Hzero & Hnonzero).
    assert (Hb' : 0 + 100 * weightSum nodes' < 2 ^ 63).
    { subst nodes' total. rewrite Hw in *.
      destruct (Z.eqb_spec (weightSum nodes) 0); cbn [fst snd] in *;
        [rewrite weightSum_default|]; lia. }
    repeat split; try assumption.
    + intros r Hr.
      destruct (scan_total nodes' 0%nat 0 r Hn') as [i Hi]; try lia.
      exists i. split; [exact Hi|].
      pose proof Hi as Hi'.
      rewrite scan_spec in Hi' by (try assumption; lia).
      destruct Hi' as (k & Hk & Hklt & Hkr). cbn in Hk. subst k.
      unfold rangeStart. split; [lia|].
      intros j Hj Hjr.
      assert (Hsj : scan nodes' 0 0 r = Some j).
      { rewrite scan_spec by (try assumption; lia).
        exists j. split; [reflexivity|]. split; [assumption|lia]. }
      congruence.
    + intros i n Hi. rewrite Ht.
      apply drawsFor_exact; [assumption | lia | assumption].
  - intros N group master w g nodes Hg.
    now apply getConfigNodeByGroup_store.
Qed.

Lemma weighted_selection_witness :
  let nodes := [plainNode "a" "" 1; plainNode "b" "" 3] in
  let w := mkWorld {[ 1%positive := nodes ]} {[ "default" := 1%positive ]} in
  weigh nodes = (nodes, 400)
  /\ Z.of_nat (drawsFor nodes 400 0) = 100
  /\ Z.of_nat (drawsFor nodes 400 1) = 300
  /\ groupNodes (snd (getConfigNodeByGroup (fun _ _ => 150) "default" true w))
       "default" = Some nodes.
Proof.
  intros nodes w.
  destruct weighted_selection as (_ & Hlist & _ & Hstore).
  assert (Hn : nonNegative nodes) by (repeat constructor; simpl; lia).
  assert (Hf : fits nodes) by (split; vm_compute; reflexivity).
  destruct (Hlist nodes ltac:(discriminate) Hn Hf)
    as (_ & _ & _ & _ & _ & Hdraws).
  split; [reflexivity|].
  split; [exact (Hdraws 0%nat _ eq_refl)|].
  split; [exact (Hdraws 1%nat _ eq_refl)|].
  apply Hstore. reflexivity.
Defined.

(** C6 as stated fails: after a node was picked for a group whose
    weights are all zero, the nodes stored for the group still weigh
    zero, so the defaulting is not seen by a later call. *)
Lemma weighted_selection_counterexample :
  ~ (forall N group w nodes,
        groupNodes w group = Some nodes ->
        (2 <= length nodes)%nat -> allZero nodes ->
        groupNodes (snd (getConfigNodeByGroup N group true w)) group
        = Some (map (setWeight 1) nodes)).
Proof.
  intros H.
  specialize (H (fun _ _ => 150) "default"
                (mkWorld {[ 1%positive := [plainNode "a" "" 0;
                                            plainNode "b" "" 0] ]}
                         {[ "default" := 1%positive ]})
                [plainNode "a" "" 0; plainNode "b" "" 0]
                eq_refl ltac:(simpl; lia)
                ltac:(repeat constructor)).
  vm_compute in H. discriminate H.
Qed.

End RouterClaims.

(** ** The transaction helper *)

Module TxClaims.
Import Tx.

(** C3 (amended). Once the transaction has begun: when [f] returns an
    error the transaction is rolled back and that error is returned; when
    [f] panics with a value that is not nil the panic is recovered, turned
    into an error, and the transaction is rolled back; in both cases a
    failing rollback puts its own error in place of the other; when [f]
    returns nil the commit is made and its outcome is returned, nil when
    the commit succeeds and the commit error when it fails. *)
Theorem transaction_outcome (d : Driver) (f : TX -> Outcome) (tx : TX) :
  onBegin d = inl tx ->
  (forall e, f tx = Returns (Some e) ->
     Transaction d f
     = (Some (default e (onRollback d tx)), [CallBegin; CallRollback]))
  /\ (forall v, f tx = Panics (Some v) ->
        Transaction d f
        = (Some (default (ErrNew v) (onRollback d tx)),
           [CallBegin; CallRollback]))
  /\ (f tx = Returns None ->
      Transaction d f = (onCommit d tx, [CallBegin; CallCommit])).
Proof.
  intros Hb. unfold Transaction. rewrite Hb.
  split; [|split].
  - intros e ->. cbn. destruct (onRollback d tx); reflexivity.
  - intros v ->. cbn. destruct (onRollback d tx); reflexivity.
  - intros ->. cbn. destruct (onCommit d tx); reflexivity.
Qed.

Lemma transaction_outcome_witness :
  let d := mkDriver (inl (mkTX 1)) (fun _ => Some (ErrDriver "conn lost"))
             (fun _ => None) in
  Transaction d (fun _ => Panics (Some "boom"))
  = (Some (ErrDriver "conn lost"), [CallBegin; CallRollback])
  /\ Transaction d (fun _ => Returns None)
     = (None, [CallBegin; CallCommit]).
Proof.
  intros d. split.
  - exact (proj1 (proj2 (transaction_outcome d
             (fun _ => Panics (Some "boom")) (mkTX 1) eq_refl))
             "boom" eq_refl).
  - exact (proj2 (proj2 (transaction_outcome d
             (fun _ => Returns None) (mkTX 1) eq_refl)) eq_refl).
Defined.

(** C3 as stated fails: [f] returns nil and yet an error is returned,
    because the commit failed. *)
Lemma transaction_outcome_counterexample :
  ~ (forall d f tx,
        onBegin d = inl tx -> f tx = Returns None ->
        fst (Transaction d f) = None).
Proof.
  intros H.
  specialize (H (mkDriver (inl (mkTX 1)) (fun _ => None)
                   (fun _ => Some (ErrDriver "commit failed")))
                (fun _ => Returns None) (mkTX 1) eq_refl eq_refl).
  discriminate H.
Qed.

End TxClaims.

(** ** Mapping empty results *)

Module MappingFacts.
Import Mapping.

(** A nil or empty record maps onto anything that is not nil as the
    sentinel, and leaves the value alone. *)
Lemma Struct_empty convert (pointer : Dest) :
  IsNil pointer = false ->
  Struct convert None pointer = (Some ErrNoRows, pointer).
Proof.
  intros H. unfold Struct.
  change (size (default (∅ : DBRecord) None)) with 0.
  cbn [Nat.eqb]. now rewrite H.
Qed.

End MappingFacts.

Module MappingClaims.
Import Mapping MappingFacts.

(** C7 (amended). Mapping no rows onto a slice target returns no error
    and leaves the target as it is when the slice is empty or holds
    pointers; when the slice is not empty and holds structs it returns
    the sentinel [ErrNoRows]; mapping the nil record onto a pointer to a
    struct returns the sentinel, which no error made by the driver or by
    [gerror.New] equals. *)
Theorem empty_result_mapping convert :
  (forall elem items,
      items = [] \/ elem = ElemPtr ->
      Structs convert [] (DPtr (Some (DSlice elem (Some items))))
      = (None, DPtr (Some (DSlice elem (Some items)))))
  /\ (forall elem item items,
        elem <> ElemPtr ->
        Structs convert [] (DPtr (Some (DSlice elem (Some (item :: items)))))
        = (Some ErrNoRows,
           DPtr (Some (DSlice elem (Some (item :: items))))))
  /\ (forall fields,
        Struct convert None (DPtr (Some (DStruct fields)))
        = (Some ErrNoRows, DPtr (Some (DStruct fields))))
  /\ (forall msg, ErrNoRows <> ErrDriver msg /\ ErrNoRows <> ErrNew msg).
Proof.
  split; [|split; [|split]].
  - intros elem items [-> | ->]; [reflexivity|].
    destruct items; reflexivity.
  - intros elem item items He. destruct elem; [reflexivity| |reflexivity].
    congruence.
  - intros fields. now apply Struct_empty.
  - intros msg. split; discriminate.
Qed.

Lemma empty_result_mapping_witness :
  Structs (fun _ d => (None, d)) []
    (DPtr (Some (DSlice ElemPtr (Some [DPtr (Some (DStruct []))]))))
  = (None, DPtr (Some (DSlice ElemPtr (Some [DPtr (Some (DStruct []))]))))
  /\ Structs (fun _ d => (None, d)) []
       (DPtr (Some (DSlice ElemStruct (Some [DStruct []]))))
     = (Some ErrNoRows, DPtr (Some (DSlice ElemStruct (Some [DStruct []])))).
Proof.
  destruct (empty_result_mapping (fun _ d => (None, d)))
    as (Hok & Hrows & _).
  split.
  - apply Hok. right. reflexivity.
  - apply Hrows. discriminate.
Defined.

(** C7 as stated fails: no rows mapped onto a slice that already holds a
    struct is reported as [ErrNoRows]. *)
Lemma empty_result_mapping_counterexample :
  ~ (forall convert elem items,
        items <> [] ->
        fst (Structs convert [] (DPtr (Some (DSlice elem (Some items)))))
        = None).
Proof.
  intros H.
  specialize (H (fun _ d => (None, d)) ElemStruct [DStruct []]
                ltac:(discriminate)).
  discriminate H.
Qed.

End MappingClaims.

(** ** Model operations *)

Module ModelFacts.
Import ModelOps.

Lemma length_zero_iff (s : string) :
  Nat.eqb (String.length s) 0 = true <-> s = "".
Proof.
  destruct s; simpl; split; intros H; try reflexivity; discriminate.
Qed.

Lemma length_nonzero (s : string) :
  s <> "" -> Nat.eqb (String.length s) 0 = false.
Proof.
  intros H. destruct (Nat.eqb (String.length s) 0) eqn:E; [|reflexivity].
  apply length_zero_iff in E. contradiction.
Qed.

End ModelFacts.

Module ModelClaims.
Import ModelOps ModelFacts.

(** C4. A delete on a model whose table has a soft-delete column, and
    that is not unscoped, calls [DoUpdate] to stamp that column and never
    [DoDelete]: the one call made sets the quoted column to a placeholder
    under the composed condition, with the time stamp and the arguments
    of the condition handed over as one slice-valued argument; with no
    soft-delete column it calls [DoDelete] when the composed condition
    holds a WHERE clause, and otherwise returns the usage error without
    any call on the database. *)
Theorem delete_soft_or_physical `{env : Env} (m : Model)
    (where_ : list GoValue) (w : World)
    (cw ce : string) (cargs : list GoValue) :
  let m' := withWhere m where_ in
  formatCondition m' false false = (cw, ce, cargs) ->
  (unscoped m' = false -> getSoftFieldNameDeleted m' <> "" ->
   fst (Delete m where_ w)
   = DoUpdate (getLink m' true) (tables m')
       (VStr (QuoteString (getSoftFieldNameDeleted m') +:+ "=?"))
       (cw +:+ ce) [VSlice (VStr now :: cargs)]
   /\ calls (snd (Delete m where_ w))
      = calls w
        ++ [CallDoUpdate (getLink m' true) (tables m')
              (VStr (QuoteString (getSoftFieldNameDeleted m') +:+ "=?"))
              (cw +:+ ce) [VSlice (VStr now :: cargs)]])
  /\ (getSoftFieldNameDeleted m' = "" ->
      Str.ContainsI (cw +:+ ce) " WHERE " = true ->
      fst (Delete m where_ w)
      = DoDelete (getLink m' true) (tables m') (cw +:+ ce) cargs
      /\ calls (snd (Delete m where_ w))
         = calls w ++ [CallDoDelete (getLink m' true) (tables m')
                         (cw +:+ ce) cargs])
  /\ (getSoftFieldNameDeleted m' = "" ->
      Str.ContainsI (cw +:+ ce) " WHERE " = false ->
      Delete m where_ w
      = ((None,
          Some (ErrNew "there should be WHERE condition statement for DELETE operation")),
         w)).
Proof.
  intros m' Hc. unfold Delete. fold m'. rewrite Hc.
  split; [|split].
  - intros Hu Hf. cbv zeta. rewrite Hu, (length_nonzero _ Hf).
    cbn [negb andb].
    destruct (DoUpdate _ _ _ _ _) as [res [e|]]; cbn [afterWrite fst snd].
    + split; reflexivity.
    + split; [reflexivity|].
      unfold checkAndRemoveCache.
      destruct (_ && _ && _); reflexivity.
  - intros Hf Hw. rewrite Hf, Hw.
    cbn [String.length Nat.eqb negb]. rewrite andb_false_r.
    destruct (DoDelete _ _ _ _) as [res [e|]]; cbn [afterWrite fst snd].
    + split; reflexivity.
    + split; [reflexivity|].
      unfold checkAndRemoveCache.
      destruct (_ && _ && _); reflexivity.
  - intros Hf Hw. rewrite Hf, Hw.
    cbn [String.length Nat.eqb negb]. rewrite andb_false_r. reflexivity.
Qed.

Lemma delete_soft_or_physical_witness :
  calls (snd (Delete (env := sampleEnv "deleted_at" " WHERE id=?")
                (sampleModel None) [] emptyWorld))
  = [CallDoUpdate None "user" (VStr "deleted_at=?") " WHERE id=?"
       [VSlice [VStr "2021-01-02 03:04:05"; VInt 1]]]
  /\ Delete (env := sampleEnv "" "") (sampleModel None) [] emptyWorld
     = ((None,
         Some (ErrNew "there should be WHERE condition statement for DELETE operation")),
        emptyWorld).
Proof.
  split.
  - destruct (delete_soft_or_physical
                (env := sampleEnv "deleted_at" " WHERE id=?")
                (sampleModel None) [] emptyWorld " WHERE id=?" "" [VInt 1]
                eq_refl) as (Hsoft & _ & _).
    exact (proj2 (Hsoft eq_refl ltac:(discriminate))).
  - destruct (delete_soft_or_physical (env := sampleEnv "" "")
                (sampleModel None) [] emptyWorld "" "" [VInt 1]
                eq_refl) as (_ & _ & Hnone).
    exact (Hnone eq_refl eq_refl).
Defined.

(** C8. A select on a model bound to a transaction neither reads nor
    writes the query cache: the statement is run on the database, its
    outcome is returned, and the cache is as before. *)
Theorem transaction_bypasses_cache `{env : Env} (m : Model) (sql : string)
    (args : list GoValue) (w : World) :
  is_Some (tx m) ->
  doGetAllBySql m sql args w
  = (DoGetAll (getLink m false) sql (mergeArguments m args),
     mkWorld (cache w)
       (calls w ++ [CallDoGetAll (getLink m false) sql
                      (mergeArguments m args)])).
Proof.
  intros Htx.
  unfold doGetAllBySql, cacheKeyOf, cacheLookup.
  rewrite (bool_decide_eq_true_2 _ Htx), andb_false_r.
  destruct (DoGetAll _ _ _) as [result [e|]]; reflexivity.
Qed.

Lemma transaction_bypasses_cache_witness :
  let w := mkWorld {[ "users" := (CachedResult [{[ "id" := VInt 7 ]}], 60%Z) ]}
             [] in
  doGetAllBySql (env := sampleEnv "" "") (sampleModel (Some (Tx.mkTX 1)))
    "SELECT * FROM user" [] w
  = (([], None),
     mkWorld (cache w) [CallDoGetAll None "SELECT * FROM user" []]).
Proof.
  intros w.
  exact (transaction_bypasses_cache (env := sampleEnv "" "")
           (sampleModel (Some (Tx.mkTX 1))) "SELECT * FROM user" [] w
           (mk_is_Some _ _ eq_refl)).
Defined.

(** C10. A single-record query over no rows and no error returns the
    nil record and the nil error: [Model.One] when the select behind it
    yields nothing, [Core.One] when the cursor of the driver holds no
    row.  The error of either is always the error of the select behind
    it, so neither makes an [ErrNoRows] of its own; the sentinel appears when the nil
    record is mapped onto a value that is not nil. *)
Theorem one_without_rows :
  (forall (env : Env) m where_ w,
      fst (doGetAll (withWhere m where_) true [] w) = ([], None) ->
      fst (One m where_ w) = (None, None))
  /\ (forall (env : Env) m where_ w,
        snd (fst (One m where_ w))
        = snd (fst (doGetAll (withWhere m where_) true [] w)))
  /\ (forall Slave DoQuery convert sql args link rows,
        Slave = inl link ->
        DoQuery link sql args = (rows, None) ->
        (forall r, rows = Some r -> CoreQuery.pending r = []) ->
        CoreQuery.One Slave DoQuery convert sql args = (None, None))
  /\ (forall Slave DoQuery convert sql args,
        snd (CoreQuery.One Slave DoQuery convert sql args)
        = snd (CoreQuery.All Slave DoQuery convert sql args))
  /\ (forall convert pointer,
        Mapping.IsNil pointer = false ->
        Mapping.Struct convert None pointer = (Some ErrNoRows, pointer)).
Proof.
  split; [|split; [|split; [|split]]].
  - intros env m where_ w H. unfold One.
    destruct (doGetAll _ true [] w) as [[all err] w'].
    cbn [fst] in H. inversion H; subst. reflexivity.
  - intros env m where_ w. unfold One.
    destruct (doGetAll _ true [] w) as [[all [e|]] w']; cbn [fst snd];
      destruct all; reflexivity.
  - intros Slave DoQuery convert sql args link rows Hs Hq Hr.
    unfold CoreQuery.One, CoreQuery.All, CoreQuery.DoGetAll.
    rewrite Hs, Hq. destruct rows as [r|]; [|reflexivity].
    unfold CoreQuery.convertRowsToResult. rewrite (Hr r eq_refl).
    reflexivity.
  - intros Slave DoQuery convert sql args. unfold CoreQuery.One.
    destruct (CoreQuery.All _ _ _ _ _) as [all [e|]]; destruct all;
      reflexivity.
  - intros convert pointer H. now apply MappingFacts.Struct_empty.
Qed.

Lemma one_without_rows_witness :
  fst (One (env := sampleEnv "" "") (sampleModel None) [] emptyWorld)
  = (None, None)
  /\ CoreQuery.One (inl (Some 1)) (fun _ _ _ => (Some (CoreQuery.mkRows (inl []) []), None))
       (fun v _ => v) "SELECT * FROM user WHERE id=?" [VInt 1]
     = (None, None).
Proof.
  destruct one_without_rows as (Hmodel & _ & Hcore & _ & _).
  split.
  - apply (Hmodel (sampleEnv "" "")). reflexivity.
  - apply (Hcore _ _ _ _ _ (Some 1) (Some (CoreQuery.mkRows (inl []) []))).
    + reflexivity.
    + reflexivity.
    + intros r [= <-]. reflexivity.
Defined.

End ModelClaims.

(** * Further properties of the argument binder *)

Module BinderMore.
Import Str StrFacts Binder BinderSpec BinderFacts.

(** A text without placeholders is left as it is by the callback. *)
Lemma ReplaceStringFunc_none index len (q : string) st :
  CountHolder q = 0 ->
  ReplaceStringFunc index len q st = (q, st).
Proof.
  induction q as [|c q IH]; intros Hq; [reflexivity|].
  simpl in *. destruct (Ascii.eqb c "?"); [discriminate|].
  now rewrite IH.
Qed.

Lemma handleLoop_no_holder args : forall total index sql acc ihc,
  CountHolder sql = 0 ->
  handleLoop total index args sql acc ihc
  = (sql, acc ++ concat (map bound args)).
Proof.
  induction args as [|a args IH]; intros total index sql acc ihc Hsql.
  - cbn. now rewrite List.app_nil_r.
  - cbn [map concat]. rewrite List.app_assoc. unfold bound at 1.
    destruct (isSplit a) eqn:Hsplit.
    + rewrite handleLoop_split by assumption. cbv zeta.
      unfold ContainsHolder. rewrite Hsql. cbn [Nat.eqb negb].
      rewrite andb_false_r.
      match goal with
      | |- context [if ?b then _ else _] => destruct b; [now apply IH|]
      end.
      rewrite ReplaceStringFunc_none by assumption. now apply IH.
    + rewrite handleLoop_scalar by assumption. now apply IH.
Qed.

(** X1. A statement without a placeholder is never rewritten: whatever the
    arguments are, the text comes back as it went in, slices (empty ones
    too) are only flattened into the argument list, and no [0=1] is
    written. *)
Theorem no_placeholder_text_untouched sql args :
  CountHolder sql = 0 ->
  handleArguments sql args = (sql, concat (map bound args)).
Proof. intros H. unfold handleArguments. now rewrite handleLoop_no_holder. Qed.

Lemma no_placeholder_text_untouched_witness :
  handleArguments "select * from t where id in ()" [VSlice []; VInt 3]
  = ("select * from t where id in ()", [VInt 3]).
Proof.
  exact (no_placeholder_text_untouched "select * from t where id in ()"
           [VSlice []; VInt 3] eq_refl).
Defined.

Lemma primitive_not_split v : isPrimitive v = true -> isSplit v = false.
Proof. destruct v; try discriminate; reflexivity. Qed.

Lemma primitive_boundScalar v : isPrimitive v = true -> boundScalar v = v.
Proof. destruct v; try discriminate; reflexivity. Qed.

Lemma handleArguments_primitive sql args :
  Forall (fun v => isPrimitive v = true) args ->
  handleArguments sql args = (sql, args).
Proof.
  intros H. unfold handleArguments.
  rewrite handleLoop_scalars
    by (eapply Forall_impl; [exact H | exact primitive_not_split]).
  cbn [app]. f_equal.
  induction H as [|v l Hv _ IH]; [reflexivity|].
  cbn [map]. now rewrite primitive_boundScalar, IH.
Qed.

(** X2. Binding twice is safe: when every argument is bound to one
    placeholder and the values bound are booleans, numbers and strings, a
    second pass over the rewritten text and the flattened arguments
    returns both unchanged. *)
Theorem binding_twice parts tail :
  wellBound parts -> CountHolder tail = 0 ->
  Forall (fun v => isPrimitive v = true) (boundAll parts) ->
  let once := handleArguments (template parts tail) (map snd parts) in
  handleArguments (fst once) (snd once) = once.
Proof.
  intros Hp Ht Hprim once.
  assert (Ho : once = (expanded parts tail, boundAll parts)).
  { subst once. unfold handleArguments. rewrite length_map.
    pose proof (handleLoop_bound parts [] tail [] (List.Forall_nil _) Hp Ht) as H.
    cbn [length expanded Nat.add] in H. rewrite !app_nil_l in H. exact H. }
  rewrite Ho. cbn [fst snd]. now apply handleArguments_primitive.
Qed.

Lemma binding_twice_witness :
  let once := handleArguments "id in(?) and name=?"
                [VSlice [VInt 1; VInt 2]; VStr "john"] in
  once = ("id in(?,?) and name=?", [VInt 1; VInt 2; VStr "john"])
  /\ handleArguments (fst once) (snd once) = once.
Proof.
  intros once. split; [reflexivity|].
  refine (binding_twice [("id in(", VSlice [VInt 1; VInt 2]);
                         (") and name=", VStr "john")] "" _ _ _).
  - repeat constructor; vm_compute; discriminate.
  - reflexivity.
  - repeat constructor.
Defined.

(** X3. A [[]byte] argument is never split and never triggers the [0=1]
    rewrite, empty or not: among arguments that are not split it is bound
    as the one value it is and the text is not touched. *)
Theorem bytes_kept_atomic sql before (b : list Byte.byte) after :
  Forall (fun a => isSplit a = false) before ->
  Forall (fun a => isSplit a = false) after ->
  handleArguments sql (before ++ VBytes b :: after)
  = (sql, map boundScalar before ++ [VBytes b] ++ map boundScalar after).
Proof.
  intros Hb Ha. unfold handleArguments.
  rewrite handleLoop_scalars
    by (apply Forall_app; split; [|constructor]; [assumption|reflexivity|assumption]).
  rewrite map_app. reflexivity.
Qed.

Lemma bytes_kept_atomic_witness :
  handleArguments "name=? and data=?" [VStr "john"; VBytes []]
  = ("name=? and data=?", [VStr "john"; VBytes []]).
Proof.
  apply (bytes_kept_atomic "name=? and data=?" [VStr "john"] [] []).
  - repeat constructor.
  - constructor.
Defined.

End BinderMore.

(** * Splitting, joining and quoting *)

Module QuoteFacts.
Import Str StrFacts Where WhereFacts Quote.

Lemma chars_app (a b : string) : chars (a +:+ b) = chars a ++ chars b.
Proof.
  unfold chars. induction a as [|c a IH]; [reflexivity|].
  rewrite app_cons. cbn [list_ascii_of_string]. now rewrite IH.
Qed.

Lemma of_chars (s : string) : string_of_list_ascii (chars s) = s.
Proof. apply string_of_list_ascii_of_string. Qed.

Lemma chars_of (l : list ascii) : chars (string_of_list_ascii l) = l.
Proof. apply list_ascii_of_string_of_list_ascii. Qed.

Lemma chars_nil_inv (s : string) : chars s = [] -> s = "".
Proof. destruct s; [reflexivity | discriminate]. Qed.

Lemma splitChars_nonempty d l : splitChars d l <> [].
Proof.
  induction l as [|c l IH]; [discriminate|].
  cbn [splitChars]. destruct (Ascii.eqb c d); [discriminate|].
  destruct (splitChars d l); discriminate.
Qed.

(** A text without the delimiter is one piece. *)
Lemma splitChars_absent d l :
  Forall (fun c => Ascii.eqb c d = false) l -> splitChars d l = [l].
Proof.
  induction 1 as [|c l Hc _ IH]; [reflexivity|].
  cbn [splitChars]. now rewrite Hc, IH.
Qed.

(** Joining the pieces with the delimiter gives the text back. *)
Lemma Join_Split (s : string) (d : ascii) :
  Join (Split s d) (String d "") = s.
Proof.
  unfold Split. rewrite <- (of_chars s) at 2.
  induction (chars s) as [|c l IH]; [reflexivity|].
  cbn [splitChars]. destruct (Ascii.eqb c d) eqn:Hc.
  - apply Ascii.eqb_eq in Hc. subst c.
    pose proof (splitChars_nonempty d l) as Hne.
    destruct (splitChars d l) as [|p ps]; [congruence|].
    cbn [map Join string_of_list_ascii] in *. rewrite IH. reflexivity.
  - pose proof (splitChars_nonempty d l) as Hne.
    destruct (splitChars d l) as [|p ps]; [congruence|].
    cbn [map string_of_list_ascii] in *.
    destruct ps as [|p' ps]; cbn [map Join] in *.
    + now rewrite IH.
    + rewrite <- IH. reflexivity.
Qed.

Lemma dropWhile_all_false f l :
  Forall (fun c => f c = false) l -> dropWhile f l = l.
Proof. destruct 1 as [|c l Hc _]; [reflexivity|]. cbn. now rewrite Hc. Qed.

(** A text whose bytes are all kept by [Trim] is not changed by it. *)
Lemma Trim_id (s : string) :
  Forall (fun c => isTrimByte c = false) (chars s) -> Trim s = s.
Proof.
  intros H. unfold Trim.
  rewrite (dropWhile_all_false _ _ H).
  rewrite dropWhile_all_false by (now apply Forall_rev).
  rewrite rev_involutive. apply of_chars.
Qed.

Lemma dropWhile_snoc f m c :
  f c = false -> exists m', dropWhile f (m ++ [c]) = m' ++ [c].
Proof.
  intros Hc. induction m as [|x m IH].
  - exists []. cbn. now rewrite Hc.
  - cbn. destruct (f x); [exact IH|]. now exists (x :: m).
Qed.

Lemma dropWhile_head f l c t :
  dropWhile f l = c :: t -> f c = false.
Proof.
  induction l as [|x l IH]; [discriminate|].
  cbn. destruct (f x) eqn:Hx; [exact IH|].
  intros [= <- _]. exact Hx.
Qed.

(** What [Trim] leaves starts with a byte it keeps. *)
Lemma Trim_head (x : string) c t :
  chars (Trim x) = c :: t -> isTrimByte c = false.
Proof.
  unfold Trim. rewrite chars_of.
  destruct (dropWhile isTrimByte (chars x)) as [|c1 l1] eqn:H1.
  - discriminate.
  - pose proof (dropWhile_head _ _ _ _ H1) as Hc1.
    cbn [rev]. destruct (dropWhile_snoc isTrimByte (rev l1) c1 Hc1) as [m' ->].
    rewrite rev_app_distr. cbn. now intros [= <- _].
Qed.

(** A text that starts with a byte [Trim] keeps is not trimmed away. *)
Lemma Trim_nonempty c (p : list ascii) :
  isTrimByte c = false -> Trim (string_of_list_ascii (c :: p)) <> "".
Proof.
  intros Hc. unfold Trim. rewrite chars_of. cbn [dropWhile]. rewrite Hc.
  cbn [rev]. destruct (dropWhile_snoc isTrimByte (rev p) c Hc) as [m' ->].
  rewrite rev_app_distr. discriminate.
Qed.

Lemma chars_cons_inv (s : string) :
  s <> "" -> exists c t, chars s = c :: t.
Proof. destruct s as [|c t]; [congruence|]. intros _. now exists c, (chars t). Qed.

(** The pieces of a trimmed, non-empty text always hold a first word. *)
Lemma SplitAndTrim_blank_nonempty (x : string) :
  Trim x <> "" -> SplitAndTrim (Trim x) " " <> [].
Proof.
  intros Hne. destruct (chars_cons_inv _ Hne) as (c & t & Hch).
  pose proof (Trim_head x c t Hch) as Hc.
  unfold SplitAndTrim, Split. rewrite Hch. cbn [splitChars].
  assert (Hsp : Ascii.eqb c " " = false).
  { destruct (Ascii.eqb c " ") eqn:E; [|reflexivity].
    apply Ascii.eqb_eq in E. subst c. discriminate Hc. }
  rewrite Hsp.
  pose proof (splitChars_nonempty " " t) as Hs.
  destruct (splitChars " " t) as [|p ps]; [congruence|].
  cbn [map]. rewrite filter_cons_True by (now apply Trim_nonempty).
  discriminate.
Qed.

End QuoteFacts.

Module QuoteMore.
Import Str StrFacts Where WhereFacts Quote QuoteFacts.

Lemma ContainsAny_shared (s set : string) c :
  In c (chars s) -> In c (chars set) -> ContainsAny s set = true.
Proof.
  intros Hs Hset. unfold ContainsAny.
  apply existsb_exists. exists c. split; [assumption|].
  apply existsb_exists. exists c. split; [assumption | apply Ascii.eqb_refl].
Qed.

(** X4. Quoting is idempotent: a word that went through [doQuoteWord]
    comes back unchanged from a second pass with the same quote
    characters, so a name is never wrapped twice. *)
Theorem quoting_twice (s l r : string) :
  doQuoteWord (doQuoteWord s l r) l r = doQuoteWord s l r.
Proof.
  unfold doQuoteWord at 2 3.
  destruct (quoteWordReg s && negb (ContainsAny s (l +:+ r))) eqn:H;
    [|unfold doQuoteWord; now rewrite H].
  destruct l as [|a l].
  - destruct r as [|b r].
    + rewrite app_nil_l, app_nil_r. unfold doQuoteWord. rewrite H.
      now rewrite app_nil_l, app_nil_r.
    + unfold doQuoteWord.
      rewrite (ContainsAny_shared _ _ b), andb_false_r; [reflexivity| |].
      * rewrite !chars_app. apply in_or_app. right. apply in_or_app. right.
        now left.
      * rewrite chars_app. apply in_or_app. right. now left.
  - unfold doQuoteWord.
    rewrite (ContainsAny_shared _ _ a), andb_false_r; [reflexivity| |].
    + rewrite chars_app. apply in_or_app. left. now left.
    + rewrite chars_app. apply in_or_app. left. now left.
Qed.

Lemma forEach_ret {A B} (f : A -> Outcome B) (l : list A) :
  Forall (fun x => exists y, f x = Ret y) l ->
  exists ys, forEach f l = Ret ys /\ length ys = length l.
Proof.
  induction 1 as [|x l [y Hy] _ [ys [IH Hlen]]].
  - now exists [].
  - exists (y :: ys). cbn [forEach]. rewrite Hy, IH. cbn. now rewrite Hlen.
Qed.

Lemma SplitAndTrim_elems (s : string) d (v : string) :
  In v (SplitAndTrim s d) -> v <> "" /\ exists x, v = Trim x.
Proof.
  unfold SplitAndTrim. intros Hin.
  apply list_elem_of_In, list_elem_of_filter in Hin as [Hne Hin].
  split; [exact Hne|].
  apply list_elem_of_In, in_map_iff in Hin as (x & Hx & _).
  now exists x.
Qed.

Lemma quoteItem_ret (x : string) l r :
  Trim x <> "" -> exists y, quoteItem (Trim x) l r = Ret y.
Proof.
  intros Hne. unfold quoteItem.
  pose proof (SplitAndTrim_blank_nonempty x Hne) as Hs.
  destruct (SplitAndTrim (Trim x) " ") as [|first others]; [congruence|].
  eexists. reflexivity.
Qed.

Lemma doQuoteString_ret (s l r : string) :
  exists q, doQuoteString s l r = Ret q.
Proof.
  unfold doQuoteString.
  destruct (forEach_ret (fun v1 => quoteItem v1 l r) (SplitAndTrim s ","))
    as (ys & -> & _); [|eexists; reflexivity].
  apply List.Forall_forall. intros v Hin.
  destruct (SplitAndTrim_elems s "," v Hin) as (Hne & x & ->).
  now apply quoteItem_ret.
Qed.

(** X5. [doQuoteString] never indexes out of range: whatever the text and
    the quote characters, [array2[0]] exists for every piece the loop
    visits, so the function always returns a string. *)
Theorem quote_string_returns (s l r : string) :
  exists q, doQuoteString s l r = Ret q.
Proof. exact (doQuoteString_ret s l r). Qed.

End QuoteMore.

(** * Conditions given as a field name and arguments *)

Module ComposeFacts.
Import Str StrFacts Binder BinderSpec BinderFacts Where WhereFacts.
Import Quote QuoteFacts QuoteMore Compose.

(** What a byte of a regular field name is not. *)
Lemma regular_char_plain (c : ascii) :
  (isAlnum c || Ascii.eqb c "_" || Ascii.eqb c "." || Ascii.eqb c "-") = true ->
  isTrimByte c = false /\ isSpace c = false /\ isOperator c = false
  /\ Ascii.eqb c "," = false /\ Ascii.eqb c " " = false.
Proof.
  destruct c as [[] [] [] [] [] [] [] []]; vm_compute; intros H;
    try discriminate H; repeat split.
Qed.

Lemma regular_chars (f : string) :
  regularFieldName f = true ->
  f <> ""
  /\ Forall (fun c => (isAlnum c || Ascii.eqb c "_" || Ascii.eqb c "."
                       || Ascii.eqb c "-") = true) (chars f).
Proof.
  unfold regularFieldName. intros H. apply andb_prop in H as [Hlen Hall].
  split.
  - intros ->. discriminate Hlen.
  - apply List.Forall_forall. now apply forallb_forall.
Qed.

Lemma regular_single (f : string) (d : ascii) :
  regularFieldName f = true -> d = ","%char \/ d = " "%char ->
  SplitAndTrim f d = [f].
Proof.
  intros Hf Hd. destruct (regular_chars f Hf) as [Hne Hall].
  unfold SplitAndTrim, Split.
  rewrite splitChars_absent.
  - cbn [map]. rewrite of_chars, Trim_id.
    + now rewrite filter_cons_True by exact Hne.
    + eapply Forall_impl; [exact Hall|].
      intros c Hc. now destruct (regular_char_plain c Hc).
  - eapply Forall_impl; [exact Hall|].
    intros c Hc. destruct (regular_char_plain c Hc) as (_ & _ & _ & H1 & H2).
    now destruct Hd as [-> | ->].
Qed.

Lemma regular_Trim (f : string) : regularFieldName f = true -> Trim f = f.
Proof.
  intros Hf. destruct (regular_chars f Hf) as [_ Hall].
  apply Trim_id. eapply Forall_impl; [exact Hall|].
  intros c Hc. now destruct (regular_char_plain c Hc).
Qed.

Lemma regular_no_operator (f : string) :
  regularFieldName f = true -> lastOperator f = false.
Proof.
  intros Hf. destruct (regular_chars f Hf) as [Hne Hall].
  unfold lastOperator. apply Forall_rev in Hall.
  destruct (rev (chars f)) as [|c t]; [reflexivity|].
  inversion Hall as [|? ? Hc _]; subst.
  destruct (regular_char_plain c Hc) as (_ & Hsp & Hop & _).
  cbn [dropWhile]. now rewrite Hsp.
Qed.

(** A regular field name is one item of one word: only its pieces between
    the dots are looked at. *)
Lemma doQuoteString_regular (f l r : string) :
  regularFieldName f = true ->
  doQuoteString f l r = Ret (Join (quoteEnds (Split f ".") l r) ".").
Proof.
  intros Hf. unfold doQuoteString.
  rewrite (regular_single f ",") by (assumption || now left).
  cbn [forEach]. unfold quoteItem.
  rewrite (regular_single f " ") by (assumption || now right).
  now rewrite regular_Trim by assumption.
Qed.

Lemma doQuoteWord_plain (s : string) : doQuoteWord s "" "" = s.
Proof.
  unfold doQuoteWord. destruct (_ && _); [|reflexivity].
  now rewrite app_nil_l, app_nil_r.
Qed.

Lemma quoteEnds_plain (parts : list string) : quoteEnds parts "" "" = parts.
Proof.
  destruct parts as [|first others]; [reflexivity|].
  destruct others as [|o others]; cbn [quoteEnds].
  - now rewrite doQuoteWord_plain.
  - rewrite !doQuoteWord_plain. f_equal.
    symmetry. apply app_removelast_last. discriminate.
Qed.

Lemma CountHolder_of_cons c (l : list ascii) :
  CountHolder (string_of_list_ascii (c :: l)) = 0 ->
  Ascii.eqb c "?" = false /\ CountHolder (string_of_list_ascii l) = 0.
Proof.
  cbn [string_of_list_ascii CountHolder].
  destruct (Ascii.eqb c "?"); [discriminate | now split].
Qed.

Lemma splitChars_no_holder d (l : list ascii) :
  CountHolder (string_of_list_ascii l) = 0 ->
  Forall (fun p => CountHolder (string_of_list_ascii p) = 0) (splitChars d l).
Proof.
  induction l as [|c l IH]; intros H.
  - now repeat constructor.
  - apply CountHolder_of_cons in H as [Hc Hl]. specialize (IH Hl).
    cbn [splitChars]. destruct (Ascii.eqb c d).
    + now constructor.
    + destruct (splitChars d l) as [|p ps].
      * repeat constructor. cbn. now rewrite Hc.
      * inversion IH; subst. constructor; [|assumption].
        cbn [string_of_list_ascii CountHolder]. now rewrite Hc.
Qed.

Lemma Split_no_holder (s : string) d :
  CountHolder s = 0 -> Forall (fun p => CountHolder p = 0) (Split s d).
Proof.
  intros H. unfold Split. apply List.Forall_map.
  apply splitChars_no_holder. now rewrite of_chars.
Qed.

Lemma Join_no_holder (parts : list string) (sep : string) :
  Forall (fun p => CountHolder p = 0) parts -> CountHolder sep = 0 ->
  CountHolder (Join parts sep) = 0.
Proof.
  intros H Hsep. induction H as [|p parts Hp Hparts IH]; [reflexivity|].
  destruct parts as [|p' parts]; [exact Hp|].
  change (Join (p :: p' :: parts) sep)
    with (p +:+ sep +:+ Join (p' :: parts) sep).
  rewrite !CountHolder_app. lia.
Qed.

Lemma quoteEnds_no_holder (parts : list string) (l r : string) :
  Forall (fun p => CountHolder p = 0) parts ->
  CountHolder l = 0 -> CountHolder r = 0 ->
  Forall (fun p => CountHolder p = 0) (quoteEnds parts l r).
Proof.
  intros H Hl Hr. destruct H as [|first others Hfirst Hothers]; [constructor|].
  destruct others as [|o others]; cbn [quoteEnds].
  - constructor; [|constructor]. now apply doQuoteWord_no_holder.
  - constructor; [now apply doQuoteWord_no_holder|].
    rewrite (app_removelast_last (l := o :: others) "") in Hothers
      by discriminate.
    apply Forall_app in Hothers as [Hinit Hlast].
    apply Forall_app. split; [exact Hinit|].
    constructor; [|constructor].
    apply doQuoteWord_no_holder; try assumption.
    now inversion Hlast.
Qed.

(** Quoting a regular field name brings in no placeholder, as long as the
    quote characters hold none. *)
Lemma quoted_no_holder (f l r : string) :
  regularFieldName f = true -> CountHolder l = 0 -> CountHolder r = 0 ->
  CountHolder (Join (quoteEnds (Split f ".") l r) ".") = 0.
Proof.
  intros Hf Hl Hr. apply Join_no_holder; [|reflexivity].
  apply quoteEnds_no_holder; try assumption.
  apply Split_no_holder. now apply regularFieldName_no_holder.
Qed.

End ComposeFacts.

Module ComposeMore.
Import Str StrFacts Binder BinderSpec BinderFacts Where WhereFacts.
Import Quote QuoteFacts Compose ComposeFacts.

(** X6. With the quote characters of the base [Core] (none), [QuoteString]
    hands every regular field name back as it is. *)
Theorem plain_quote_string (f : string) :
  regularFieldName f = true -> QuoteString (H := coreDB) f = Ret f.
Proof.
  intros Hf. unfold QuoteString. cbn [GetChars coreDB fst snd].
  rewrite doQuoteString_regular by assumption.
  rewrite quoteEnds_plain. now rewrite Join_Split.
Qed.

Lemma plain_quote_string_witness :
  QuoteString (H := coreDB) "user.id" = Ret "user.id".
Proof. apply plain_quote_string. reflexivity. Defined.

Section Field.
Context `{db : DB}.
Variable IsEmpty : GoValue -> bool.
Variable gconvString : GoValue -> string.
Variable Interfaces : GoValue -> list GoValue.
Variable rangeMap : GoValue -> list (string * GoValue).
Variable iterate : GoValue -> option (list (GoValue * GoValue)).

(** [formatWhere] on a regular field name and at least one argument: the
    first argument alone chooses what is written after the quoted name. *)
Lemma formatWhere_field (f : string) a rest omitEmpty :
  regularFieldName f = true -> gconvString (VStr f) = f ->
  formatWhere IsEmpty gconvString Interfaces rangeMap iterate
    (VStr f) (a :: rest) omitEmpty
  = let q := Join (quoteEnds (Split f ".") (fst GetChars) (snd GetChars)) "." in
    if IsArray a then Ret (handleArguments (q +:+ " IN (?)") (a :: rest))
    else if isNilValue a then Ret (handleArguments (q +:+ " IS NULL") [])
    else Ret (handleArguments (q +:+ "=?") (a :: rest)).
Proof.
  intros Hf Hconv. unfold formatWhere. cbn [kindOf]. rewrite Hconv.
  destruct (regular_chars f Hf) as [Hne _].
  destruct (Nat.eqb (String.length f) 0) eqn:Hlen.
  { apply Nat.eqb_eq in Hlen. destruct f; [congruence | discriminate]. }
  cbn [app closeWhere].
  rewrite (regularFieldName_no_holder f Hf). cbn [Nat.eqb].
  rewrite (regular_no_operator f Hf), Hf.
  unfold QuoteString. rewrite doQuoteString_regular by assumption.
  cbv zeta. destruct (IsArray a); [reflexivity|].
  destruct (isNilValue a); reflexivity.
Qed.

End Field.

(** X7. [Where("field", slice)]: for a regular field name and a non-empty
    slice as the only argument, the condition is the quoted name followed
    by [ IN (] and one placeholder per element of the slice, and the
    elements are the bound arguments, in order. *)
Theorem field_in_list `{db : DB} IsEmpty gconvString Interfaces rangeMap
    iterate (f : string) (elems : list GoValue) omitEmpty :
  regularFieldName f = true -> gconvString (VStr f) = f ->
  CountHolder (fst GetChars) = 0 -> CountHolder (snd GetChars) = 0 ->
  elems <> [] ->
  exists q,
    QuoteString f = Ret q
    /\ formatWhere IsEmpty gconvString Interfaces rangeMap iterate
         (VStr f) [VSlice elems] omitEmpty
       = Ret (q +:+ " IN (" +:+ holders (length elems) +:+ ")", elems).
Proof.
  intros Hf Hconv Hl Hr Hne.
  exists (Join (quoteEnds (Split f ".") (fst GetChars) (snd GetChars)) ".").
  split; [unfold QuoteString; now apply doQuoteString_regular|].
  rewrite formatWhere_field by assumption. cbn [IsArray kindOf]. cbv zeta.
  f_equal. set (q := Join _ _).
  pose proof (handleLoop_bound [(q +:+ " IN (", VSlice elems)] [] ")" []
                (List.Forall_nil _)) as H.
  cbn [length expanded template map snd Nat.add] in H.
  change (inserted []) with 0 in H. rewrite !app_nil_l in H.
  unfold handleArguments. cbn [length].
  replace (q +:+ " IN (?)") with ((q +:+ " IN (") +:+ "?" +:+ ")")
    by (now rewrite app_assoc).
  rewrite H.
  - unfold boundAll, arity, bound. cbn. rewrite List.app_nil_r.
    now rewrite app_assoc.
  - constructor; [|constructor]. cbn [fst snd]. split.
    + rewrite CountHolder_app. subst q.
      rewrite quoted_no_holder by assumption. reflexivity.
    + unfold arity, bound. cbn. now destruct elems.
  - reflexivity.
Qed.

Lemma field_in_list_witness :
  exists q,
    QuoteString (H := {| GetChars := ("[", "]") |}) "user.id" = Ret q
    /\ formatWhere (db := {| GetChars := ("[", "]") |}) (fun _ => false)
         (fun v => match v with VStr s => s | _ => "" end)
         (fun _ => []) (fun _ => []) (fun _ => None)
         (VStr "user.id") [VSlice [VInt 1; VInt 2; VInt 3]] false
       = Ret (q +:+ " IN (" +:+ holders 3 +:+ ")", [VInt 1; VInt 2; VInt 3]).
Proof.
  apply (field_in_list (db := {| GetChars := ("[", "]") |}));
    try reflexivity.
  discriminate.
Defined.

(** X8. [Where("field", emptySlice)]: for a regular field name and an
    empty slice as the only argument the condition ends in [0=1] and
    binds no argument. *)
Theorem field_in_empty_list `{db : DB} IsEmpty gconvString Interfaces
    rangeMap iterate (f : string) omitEmpty :
  regularFieldName f = true -> gconvString (VStr f) = f ->
  exists pre,
    formatWhere IsEmpty gconvString Interfaces rangeMap iterate
      (VStr f) [VSlice []] omitEmpty
    = Ret (pre +:+ "0=1", []).
Proof.
  intros Hf Hconv.
  rewrite formatWhere_field by assumption. cbn [IsArray kindOf]. cbv zeta.
  set (q := Join _ _).
  destruct (handleLoop_empty [VSlice []] 1 0 (q +:+ " IN (?)") [] 0)
    as [pre Hpre].
  - unfold ContainsHolder. rewrite CountHolder_app.
    apply negb_true_iff, Nat.eqb_neq. cbn. lia.
  - now constructor.
  - exists pre. unfold handleArguments. cbn [length]. now rewrite Hpre.
Qed.

Lemma field_in_empty_list_witness :
  exists pre,
    formatWhere (db := coreDB) (fun _ => false)
      (fun v => match v with VStr s => s | _ => "" end)
      (fun _ => []) (fun _ => []) (fun _ => None)
      (VStr "id") [VSlice []] false
    = Ret (pre +:+ "0=1", []).
Proof. apply (field_in_empty_list (db := coreDB)); reflexivity. Defined.

(** X9. [Where("field", nil, ...)]: for a regular field name and a nil
    first argument the condition is the quoted name followed by
    [ IS NULL], and every argument is dropped, the ones after the nil
    too. *)
Theorem field_is_null `{db : DB} IsEmpty gconvString Interfaces rangeMap
    iterate (f : string) a rest omitEmpty :
  regularFieldName f = true -> gconvString (VStr f) = f ->
  isNilValue a = true ->
  exists q,
    QuoteString f = Ret q
    /\ formatWhere IsEmpty gconvString Interfaces rangeMap iterate
         (VStr f) (a :: rest) omitEmpty
       = Ret (q +:+ " IS NULL", []).
Proof.
  intros Hf Hconv Ha.
  exists (Join (quoteEnds (Split f ".") (fst GetChars) (snd GetChars)) ".").
  split; [unfold QuoteString; now apply doQuoteString_regular|].
  rewrite formatWhere_field by assumption. cbv zeta.
  destruct a as [| | | | | | | | | | |[?|]]; try discriminate Ha; reflexivity.
Qed.

Lemma field_is_null_witness :
  exists q,
    QuoteString (H := coreDB) "id" = Ret q
    /\ formatWhere (db := coreDB) (fun _ => false)
         (fun v => match v with VStr s => s | _ => "" end)
         (fun _ => []) (fun _ => []) (fun _ => None)
         (VStr "id") [VPtr None; VInt 7] false
       = Ret (q +:+ " IS NULL", []).
Proof. apply (field_is_null (db := coreDB)); reflexivity. Defined.

(** X10. [Where("field", value, ...)]: for a regular field name and
    arguments that are booleans, numbers or strings, the condition is the
    quoted name followed by [=?] and the arguments are handed on as they
    are. *)
Theorem field_equals `{db : DB} IsEmpty gconvString Interfaces rangeMap
    iterate (f : string) a rest omitEmpty :
  regularFieldName f = true -> gconvString (VStr f) = f ->
  Forall (fun v => isPrimitive v = true) (a :: rest) ->
  exists q,
    QuoteString f = Ret q
    /\ formatWhere IsEmpty gconvString Interfaces rangeMap iterate
         (VStr f) (a :: rest) omitEmpty
       = Ret (q +:+ "=?", a :: rest).
Proof.
  intros Hf Hconv Hprim.
  exists (Join (quoteEnds (Split f ".") (fst GetChars) (snd GetChars)) ".").
  split; [unfold QuoteString; now apply doQuoteString_regular|].
  rewrite formatWhere_field by assumption. cbv zeta.
  pose proof (handleLoop_scalars (a :: rest)) as Hs.
  assert (Ha : isPrimitive a = true) by now inversion Hprim.
  replace (IsArray a) with false by (destruct a; try discriminate Ha; reflexivity).
  replace (isNilValue a) with false
    by (destruct a; try discriminate Ha; reflexivity).
  f_equal. unfold handleArguments. rewrite Hs.
  - cbn [app]. f_equal.
    clear Hs Ha. induction Hprim as [|v l Hv _ IH]; [reflexivity|].
    cbn [map]. rewrite IH. f_equal.
    destruct v; try discriminate Hv; reflexivity.
  - eapply Forall_impl; [exact Hprim|].
    intros v Hv. destruct v; try discriminate Hv; reflexivity.
Qed.

Lemma field_equals_witness :
  exists q,
    QuoteString (H := coreDB) "uid" = Ret q
    /\ formatWhere (db := coreDB) (fun _ => false)
         (fun v => match v with VStr s => s | _ => "" end)
         (fun _ => []) (fun _ => []) (fun _ => None)
         (VStr "uid") [VInt 1] false
       = Ret (q +:+ "=?", [VInt 1]).
Proof.
  apply (field_equals (db := coreDB)); try reflexivity.
  repeat constructor.
Defined.

End ComposeMore.

(** * Choosing a node for a group *)

Module RouterMore.
Import Router RouterFacts.
Local Open Scope Z_scope.

Lemma scan_range nodes : forall i min r j,
  scan nodes i min r = Some j -> (i <= j < i + length nodes)%nat.
Proof.
  induction nodes as [|n nodes IH]; intros i min r j; [discriminate|].
  cbn [scan length]. destruct (Z.leb min r && Z.ltb r _).
  - intros [= <-]. lia.
  - intros H. apply IH in H. lia.
Qed.

Lemma lookup_map {A B} (f : A -> B) (l : list A) (i : nat) :
  map f l !! i = option_map f (l !! i).
Proof.
  revert i. induction l as [|x l IH]; intros [|i]; try reflexivity.
  cbn. apply IH.
Qed.

Lemma setWeight_same n : setWeight (Weight n) n = n.
Proof. now destruct n. Qed.

(** Weighing changes weights only. *)
Lemma weigh_nodes nodes i n :
  fst (weigh nodes) !! i = Some n ->
  exists n0 wt, nodes !! i = Some n0 /\ n = setWeight wt n0.
Proof.
  unfold weigh. destruct (Z.eqb (sumWeights nodes) 0); cbn [fst defaultWeights].
  - rewrite lookup_map. destruct (nodes !! i) as [n0|]; [|discriminate].
    intros [= <-]. now exists n0, 1.
  - intros H. exists n, (Weight n). now rewrite setWeight_same.
Qed.

Lemma weigh_length nodes : length (fst (weigh nodes)) = length nodes.
Proof.
  unfold weigh. destruct (Z.eqb (sumWeights nodes) 0); cbn [fst defaultWeights];
    [apply length_map | reflexivity].
Qed.

(** The pointer the selector returns points at a node of its slice, seen
    with the weight the selector left it. *)
Lemma getConfigNodeByWeight_member N cg h nodes p h' :
  h !! cg = Some nodes ->
  getConfigNodeByWeight N cg h = (Ret (Some p), h') ->
  exists n0 wt, n0 ∈ nodes /\ deref h' p = Some (setWeight wt n0).
Proof.
  intros Hh. unfold getConfigNodeByWeight. rewrite Hh.
  cbn [default from_option id].
  destruct (Nat.ltb (length nodes) 2).
  - destruct nodes as [|n rest]; [discriminate|].
    intros [= <- <-]. exists n, (Weight n).
    split; [left|]. unfold deref. cbn [fst snd]. rewrite Hh.
    cbn. now rewrite setWeight_same.
  - pose proof (weigh_nodes nodes) as Hw.
    destruct (weigh nodes) as [nodes1 total]. cbn [fst] in Hw.
    destruct (scan nodes1 0 0 _) as [i|] eqn:Hscan; [|discriminate].
    cbn [option_map]. intros [= <- <-].
    apply scan_range in Hscan.
    destruct (lookup_lt_is_Some_2 nodes1 i ltac:(lia)) as [n Hn].
    destruct (Hw i n Hn) as (n0 & wt & Hn0 & ->).
    exists n0, wt. split; [eapply list_elem_of_lookup_2; exact Hn0|].
    unfold deref. cbn [fst snd]. rewrite lookup_insert_eq. exact Hn.
Qed.

Lemma getConfigNodeByWeight_returns N cg h nodes :
  h !! cg = Some nodes -> nodes <> [] ->
  fst (getConfigNodeByWeight N cg h) <> Panic.
Proof.
  intros Hh Hne. unfold getConfigNodeByWeight. rewrite Hh.
  cbn [default from_option id].
  destruct (Nat.ltb (length nodes) 2).
  - destruct nodes; [congruence | discriminate].
  - destruct (weigh nodes). discriminate.
Qed.

(** The two arrays [getConfigNodeByGroup] builds, as the selector finds
    them. *)
Lemma split_lists (h : gmap loc (list ConfigNode)) (ms ss : list ConfigNode) :
  let lm := fresh (dom h) in
  let h1 := <[lm := ms]> h in
  let ls := fresh (dom h1) in
  let h2 := <[ls := ss]> h1 in
  h2 !! lm = Some ms /\ h2 !! ls = Some ss.
Proof.
  intros lm h1 ls h2.
  assert (Hne : lm <> ls).
  { intros Heq. apply (is_fresh (dom h1)). fold ls. rewrite <- Heq.
    apply elem_of_dom. unfold h1. rewrite lookup_insert_eq. eauto. }
  split.
  - unfold h2, h1. rewrite lookup_insert_ne by congruence.
    apply lookup_insert_eq.
  - unfold h2. apply lookup_insert_eq.
Qed.

Lemma length_lt_1 {A} (l : list A) : Nat.ltb (length l) 1 = true -> l = [].
Proof. destruct l; [reflexivity | discriminate]. Qed.

Lemma length_ge_1 {A} (l : list A) : Nat.ltb (length l) 1 = false -> l <> [].
Proof. destruct l; [discriminate | congruence]. Qed.

(** X12. The role of the node picked for a group follows the request:
    the pointer returned points at a node of the group (seen with the
    weight the selector left in its copy), returned without error, and
    that node is a slave exactly when a slave was asked for and the
    group has one; a request for the master is never served by a slave,
    and a group without slaves serves reads from a master.  This holds
    for every random source and every weight. *)
Theorem picked_node_role N group master w nodes p e w' :
  groupNodes w group = Some nodes ->
  getConfigNodeByGroup N group master w = (Ret (Some p, e), w') ->
  exists n0 wt,
    n0 ∈ nodes
    /\ deref (heap w') p = Some (setWeight wt n0)
    /\ isSlave n0 = negb master && existsb isSlave nodes
    /\ e = None.
Proof.
  unfold groupNodes. intros Hg.
  destruct (config w !! group) as [l|] eqn:Hl; [|discriminate].
  cbn [mbind option_bind] in Hg.
  unfold getConfigNodeByGroup. rewrite Hl, Hg. cbn [default from_option id].
  set (ms := filter (fun n => isSlave n = false) nodes).
  set (ss := filter (fun n => isSlave n = true) nodes).
  destruct (split_lists (heap w) ms ss) as [Hm Hs].
  set (lm := fresh (dom (heap w))) in *.
  set (h1 := <[lm := ms]> (heap w)) in *.
  set (ls := fresh (dom h1)) in *.
  set (h2 := <[ls := ss]> h1) in *.
  destruct (Nat.ltb (length ms) 1) eqn:Hlm; [discriminate|].
  assert (Hmaster : forall n, n ∈ ms -> n ∈ nodes /\ isSlave n = false).
  { intros n Hn. apply list_elem_of_filter in Hn as [? ?]. now split. }
  assert (Hslave : forall n, n ∈ ss -> n ∈ nodes /\ isSlave n = true).
  { intros n Hn. apply list_elem_of_filter in Hn as [? ?]. now split. }
  assert (Hpick : forall cand cg,
             h2 !! cg = Some cand ->
             (forall n, n ∈ cand ->
                n ∈ nodes
                /\ isSlave n = negb master && existsb isSlave nodes) ->
             (let '(out, h3) := getConfigNodeByWeight N cg h2 in
              (match out with Panic => Panic | Ret ptr => Ret (ptr, None) end,
               mkWorld h3 (config w))) = (Ret (Some p, e), w') ->
             exists n0 wt,
               n0 ∈ nodes /\ deref (heap w') p = Some (setWeight wt n0)
               /\ isSlave n0 = negb master && existsb isSlave nodes
               /\ e = None).
  { intros cand cg Hcg Hcand.
    destruct (getConfigNodeByWeight N cg h2) as [out h3] eqn:Hout.
    destruct out as [|ptr]; [discriminate|].
    intros [= -> <- <-].
    destruct (getConfigNodeByWeight_member N cg h2 cand p h3 Hcg Hout)
      as (n0 & wt & Hin & Hd).
    destruct (Hcand n0 Hin) as [Hnodes Hrole].
    exists n0, wt. cbn [heap]. repeat split; assumption. }
  destruct master.
  - apply (Hpick ms lm Hm). intros n Hn.
    destruct (Hmaster n Hn). now split.
  - destruct (Nat.ltb (length ss) 1) eqn:Hls.
    + apply (Hpick ms lm Hm). intros n Hn.
      destruct (Hmaster n Hn) as [Hin Hrole]. split; [assumption|].
      rewrite Hrole. cbn [negb andb]. symmetry.
      apply not_true_is_false. intros Hex.
      apply existsb_exists in Hex as (s & Hs1 & Hs2).
      apply length_lt_1 in Hls.
      assert (Hss : s ∈ ss).
      { apply list_elem_of_filter. split; [assumption|].
        now apply list_elem_of_In. }
      rewrite Hls in Hss. inversion Hss.
    + apply (Hpick ss ls Hs). intros n Hn.
      destruct (Hslave n Hn) as [Hin Hrole]. split; [assumption|].
      rewrite Hrole. cbn [negb andb]. symmetry.
      apply existsb_exists. exists n. split; [|assumption].
      now apply list_elem_of_In.
Qed.

Lemma picked_node_role_witness :
  let nodes := [plainNode "m" "master" 1; plainNode "s1" "slave" 0;
                plainNode "s2" "slave" 0] in
  let w := mkWorld {[ 1%positive := nodes ]} {[ "default" := 1%positive ]} in
  let out := getConfigNodeByGroup (fun _ _ => 150) "default" false w in
  exists p n0 wt,
    fst out = Ret (Some p, None)
    /\ n0 ∈ nodes
    /\ deref (heap (snd out)) p = Some (setWeight wt n0)
    /\ isSlave n0 = true.
Proof.
  intros nodes w out. subst out.
  destruct (getConfigNodeByGroup (fun _ _ => 150) "default" false w)
    as [[|[[p|] e]] w'] eqn:Hout; try (vm_compute in Hout; discriminate Hout).
  destruct (picked_node_role (fun _ _ => 150) "default" false w nodes p e w'
              eq_refl Hout) as (n0 & wt & Hin & Hd & Hrole & ->).
  exists p, n0, wt. repeat split; assumption.
Defined.

(** X13. A group whose nodes are all slaves cannot be used: with no
    master among its nodes every request, for a slave too, is answered
    by the error asking for a master node, and no node. *)
Theorem group_needs_master N group master w nodes :
  groupNodes w group = Some nodes ->
  Forall (fun n => isSlave n = true) nodes ->
  fst (getConfigNodeByGroup N group master w)
  = Ret (None,
         Some (ErrNew "at least one master node configuration's need to make sense")).
Proof.
  unfold groupNodes. intros Hg Hall.
  destruct (config w !! group) as [l|] eqn:Hl; [|discriminate].
  cbn [mbind option_bind] in Hg.
  unfold getConfigNodeByGroup. rewrite Hl, Hg. cbn [default from_option id].
  rewrite (filter_none (fun n => isSlave n = false)); [reflexivity|].
  eapply Forall_impl; [exact Hall|]. intros n Hn. congruence.
Qed.

Lemma group_needs_master_witness :
  fst (getConfigNodeByGroup (fun _ _ => 0) "default" false
         (mkWorld {[ 1%positive := [plainNode "s" "slave" 1] ]}
                  {[ "default" := 1%positive ]}))
  = Ret (None,
         Some (ErrNew "at least one master node configuration's need to make sense")).
Proof.
  apply (group_needs_master _ _ _ _ [plainNode "s" "slave" 1]).
  - reflexivity.
  - repeat constructor.
Defined.

(** X14. [getConfigNodeByGroup] never hands an empty slice to the
    selector: whatever the configuration, the request and the random
    source, [&cg[0]] is in range and the call returns. *)
Theorem group_selection_returns N group master w :
  fst (getConfigNodeByGroup N group master w) <> Panic.
Proof.
  unfold getConfigNodeByGroup.
  destruct (config w !! group) as [l|]; [|discriminate].
  set (nodes := default [] (heap w !! l)).
  set (ms := filter (fun n => isSlave n = false) nodes).
  set (ss := filter (fun n => isSlave n = true) nodes).
  destruct (split_lists (heap w) ms ss) as [Hm Hs].
  set (lm := fresh (dom (heap w))) in *.
  set (h1 := <[lm := ms]> (heap w)) in *.
  set (ls := fresh (dom h1)) in *.
  set (h2 := <[ls := ss]> h1) in *.
  destruct (Nat.ltb (length ms) 1) eqn:Hlm; [discriminate|].
  apply length_ge_1 in Hlm.
  assert (Hret : forall cand cg,
             h2 !! cg = Some cand -> cand <> [] ->
             fst (let '(out, h3) := getConfigNodeByWeight N cg h2 in
                  (match out with
                   | Panic => Panic
                   | Ret ptr => Ret (ptr, @None error)
                   end,
                   mkWorld h3 (config w))) <> Panic).
  { intros cand cg Hcg Hne.
    pose proof (getConfigNodeByWeight_returns N cg h2 cand Hcg Hne) as H.
    destruct (getConfigNodeByWeight N cg h2) as [[|ptr] h3];
      [now cbn in H | discriminate]. }
  destruct master; [now apply (Hret ms)|].
  destruct (Nat.ltb (length ss) 1) eqn:Hls; [now apply (Hret ms)|].
  apply length_ge_1 in Hls. now apply (Hret ss).
Qed.

End RouterMore.

(** * How a transaction ends *)

Module TxMore.
Import Tx.

(** X15. A nil result means a committed transaction: whenever
    [Transaction] returns nil the transaction was begun, [f] returned nil
    or panicked with nil, the commit was the one call made after the
    begin, and it succeeded.  Nil is never returned after a rollback or a
    failed begin. *)
Theorem nil_only_after_commit (d : Driver) (f : TX -> Outcome) :
  fst (Transaction d f) = None ->
  exists tx,
    onBegin d = inl tx
    /\ (f tx = Returns None \/ f tx = Panics None)
    /\ onCommit d tx = None
    /\ snd (Transaction d f) = [CallBegin; CallCommit].
Proof.
  unfold Transaction. destruct (onBegin d) as [tx|e]; [|discriminate].
  intros H. exists tx. split; [reflexivity|].
  destruct (f tx) as [[e|]|[v|]]; cbn in *;
    try (destruct (onRollback d tx); discriminate H);
    (destruct (onCommit d tx); [discriminate H|]);
    repeat split; auto.
Qed.

Lemma nil_only_after_commit_witness :
  let d := mkDriver (inl (mkTX 1)) (fun _ => None) (fun _ => None) in
  exists tx,
    onBegin d = inl tx
    /\ (Returns None = Returns None \/ Returns None = Panics None)
    /\ onCommit d tx = None
    /\ snd (Transaction d (fun _ => Returns None)) = [CallBegin; CallCommit].
Proof.
  intros d.
  exact (nil_only_after_commit d (fun _ => Returns None) eq_refl).
Defined.

(** X16. Once begun, a transaction is ended exactly once, by the one
    call that fits how [f] ended: it is committed when [f] returned nil
    and also when [f] panicked with nil, which [recover] cannot tell from
    no panic; it is rolled back when [f] returned an error or panicked
    with a value, and then the result is an error. *)
Theorem ended_once (d : Driver) (f : TX -> Outcome) (tx : TX) :
  onBegin d = inl tx ->
  (snd (Transaction d f) = [CallBegin; CallCommit]
   /\ fst (Transaction d f) = onCommit d tx
   /\ (f tx = Returns None \/ f tx = Panics None))
  \/
  (snd (Transaction d f) = [CallBegin; CallRollback]
   /\ fst (Transaction d f) <> None
   /\ ((exists e, f tx = Returns (Some e))
       \/ (exists v, f tx = Panics (Some v)))).
Proof.
  intros Hb. unfold Transaction. rewrite Hb.
  destruct (f tx) as [[e|]|[v|]]; cbn.
  - right. destruct (onRollback d tx); repeat split; eauto; discriminate.
  - left. destruct (onCommit d tx); repeat split; auto.
  - right. destruct (onRollback d tx); repeat split; eauto; discriminate.
  - left. destruct (onCommit d tx); repeat split; auto.
Qed.

Lemma ended_once_witness :
  let d := mkDriver (inl (mkTX 1)) (fun _ => None) (fun _ => None) in
  Transaction d (fun _ => Panics None) = (None, [CallBegin; CallCommit]).
Proof.
  intros d.
  destruct (ended_once d (fun _ => Panics None) (mkTX 1) eq_refl)
    as [(Hc & He & _) | (Hr & _)].
  - rewrite (surjective_pairing (Transaction d _)), Hc, He. reflexivity.
  - discriminate Hr.
Defined.

End TxMore.

(** * The query cache *)

Module ModelMore.
Import Str StrFacts ModelOps ModelFacts.
Local Open Scope Z_scope.

(** With the cache switched on and no transaction the key is never the
    empty string, unless the model names it so. *)
Lemma cacheKeyOf_cached `{env : Env} m sql args :
  cacheEnabled m = true -> tx m = None ->
  Nat.eqb (String.length (cacheKeyOf m sql args)) 0 = false.
Proof.
  intros He Ht. unfold cacheKeyOf. rewrite He, Ht. cbn.
  destruct (Nat.eqb (String.length (cacheName m)) 0) eqn:Hn; [|exact Hn].
  destruct sql; reflexivity.
Qed.

(** X17. Read-through: with the cache switched on, no transaction and a
    duration that is not negative, a select that misses the cache and
    succeeds makes one call of [DoGetAll] and stores its result, and the
    same select run again on the cache it left is answered from the
    cache: same result, no call, nothing changed. *)
Theorem read_through `{env : Env} (m : Model) (sql : string)
    (args : list GoValue) (w : World) (r : Result) :
  cacheEnabled m = true -> tx m = None -> 0 <= cacheDuration m ->
  cache w !! cacheKeyOf m sql args = None ->
  DoGetAll (getLink m false) sql (mergeArguments m args) = (r, None) ->
  let first := doGetAllBySql m sql args w in
  fst first = (r, None)
  /\ calls (snd first)
     = calls w ++ [CallDoGetAll (getLink m false) sql (mergeArguments m args)]
  /\ doGetAllBySql m sql args (snd first) = ((r, None), snd first).
Proof.
  intros He Ht Hd Hmiss Hget first.
  assert (Hfirst : first
          = ((r, None),
             mkWorld (<[cacheKeyOf m sql args
                        := (CachedResult r, cacheDuration m)]> (cache w))
               (calls w ++ [CallDoGetAll (getLink m false) sql
                              (mergeArguments m args)]))).
  { subst first. unfold doGetAllBySql, cacheLookup.
    rewrite He, Ht, Hmiss, Hget. cbn [andb negb bool_decide].
    rewrite bool_decide_eq_false_2 by (intros [? ?]; discriminate).
    cbn [negb andb]. rewrite cacheKeyOf_cached by assumption.
    cbn [negb]. replace (cacheDuration m <? 0) with false
      by (symmetry; apply Z.ltb_ge; lia).
    reflexivity. }
  rewrite Hfirst. cbn [fst snd calls].
  split; [reflexivity|]. split; [reflexivity|].
  unfold doGetAllBySql, cacheLookup. rewrite He, Ht.
  rewrite bool_decide_eq_false_2 by (intros [? ?]; discriminate).
  cbn [negb andb cache]. rewrite lookup_insert_eq. reflexivity.
Qed.

Lemma read_through_witness :
  let env := sampleEnv "" " WHERE id=?" in
  let m := sampleModel None in
  let first := doGetAllBySql m "SELECT * FROM user" [] emptyWorld in
  fst first = ([], None)
  /\ calls (snd first) = [CallDoGetAll None "SELECT * FROM user" []]
  /\ doGetAllBySql m "SELECT * FROM user" [] (snd first)
     = (([], None), snd first).
Proof.
  intros env m.
  apply (read_through (env := env) m "SELECT * FROM user" [] emptyWorld []);
    try reflexivity.
  vm_compute. discriminate.
Defined.

(** X18. A select that ends with an error never touches the cache,
    whether the error comes from the database or from decoding a cached
    value. *)
Theorem failed_read_not_cached `{env : Env} (m : Model) (sql : string)
    (args : list GoValue) (w : World) (e : error) :
  snd (fst (doGetAllBySql m sql args w)) = Some e ->
  cache (snd (doGetAllBySql m sql args w)) = cache w.
Proof.
  unfold doGetAllBySql.
  destruct (cacheLookup m (cacheKeyOf m sql args) w) as [hit|];
    [reflexivity|].
  destruct (DoGetAll _ _ _) as [result [e'|]]; [reflexivity|].
  discriminate.
Qed.

Lemma failed_read_not_cached_witness :
  let env := {|
    DoGetAll := fun _ _ _ => ([], Some (ErrDriver "conn lost"));
    DoUpdate := fun _ _ _ _ _ => (None, None);
    DoDelete := fun _ _ _ _ => (None, None);
    QuoteString := fun s => s;
    Where := fun m _ _ => m;
    formatCondition := fun _ _ _ => ("", "", []);
    getSoftFieldNameDeleted := fun _ => "";
    getConditionForSoftDeleting := fun _ => "";
    getFieldsFiltered := fun m => fields m;
    getLink := fun _ _ => None;
    mergeArguments := fun m args => args;
    now := "";
    argsString := fun _ => "";
    jsonUnmarshal := fun _ => inl []
  |} in
  cache (snd (doGetAllBySql (sampleModel None) "SELECT 1" [] emptyWorld))
  = cache emptyWorld.
Proof.
  intros env.
  apply (failed_read_not_cached (env := env) _ _ _ _ (ErrDriver "conn lost")).
  reflexivity.
Defined.

(** X19. A select never clears a cache entry: with a negative duration
    the entry is removed only after a miss, when there is none, and a
    hit is returned and left in place; so for a negative duration the
    cache is the same before and after every select. *)
Theorem negative_duration_read_keeps_cache `{env : Env} (m : Model)
    (sql : string) (args : list GoValue) (w : World) :
  cacheDuration m < 0 ->
  cache (snd (doGetAllBySql m sql args w)) = cache w.
Proof.
  intros Hd. unfold doGetAllBySql.
  destruct (cacheLookup m (cacheKeyOf m sql args) w) as [hit|] eqn:Hlook;
    [reflexivity|].
  destruct (DoGetAll _ _ _) as [result [e'|]]; [reflexivity|].
  cbn [snd]. destruct (negb _) eqn:Hkey; [|reflexivity].
  replace (cacheDuration m <? 0) with true by (symmetry; apply Z.ltb_lt; lia).
  cbn [cache called].
  unfold cacheLookup, cacheKeyOf in *.
  destruct (cacheEnabled m && negb (bool_decide (is_Some (tx m))));
    [|discriminate Hkey].
  apply delete_id.
  destruct (cache w !! _) as [[[r|bytes] dur]|]; [discriminate| |reflexivity].
  destruct (jsonUnmarshal bytes); discriminate.
Qed.

Lemma negative_duration_read_keeps_cache_witness :
  let env := sampleEnv "" " WHERE id=?" in
  let m := mkModel None "user" "*" [] true (-1) "users" false in
  let w := mkWorld {[ "users" := (CachedResult [{[ "id" := VInt 7 ]}], 60) ]}
             [] in
  doGetAllBySql m "SELECT * FROM user" [] w
  = (([{[ "id" := VInt 7 ]}], None), w)
  /\ cache (snd (doGetAllBySql m "SELECT * FROM user" [] w)) = cache w.
Proof.
  intros env m w. split; [reflexivity|].
  apply (negative_duration_read_keeps_cache (env := env)). reflexivity.
Defined.

(** X20. What [Delete] does to the cache: when it returns an error the
    cache is as it was; when it succeeds on a model whose cache is
    switched on with a negative duration and a name, the entry of that
    name is gone and every other entry is as it was; when it succeeds
    on any other model the cache is as it was. *)
Theorem delete_and_cache `{env : Env} (m : Model) (where_ : list GoValue)
    (w : World) :
  let m' := withWhere m where_ in
  let out := Delete m where_ w in
  (snd (fst out) <> None -> cache (snd out) = cache w)
  /\ (snd (fst out) = None ->
      cache (snd out)
      = if cacheEnabled m' && Z.ltb (cacheDuration m') 0
           && Nat.ltb 0 (String.length (cacheName m'))
        then delete (cacheName m') (cache w)
        else cache w).
Proof.
  intros m' out. subst out. unfold Delete. fold m'.
  destruct (formatCondition m' false false) as [[cw ce] ca].
  assert (Hafter : forall (r : option SqlResult * option error) c,
             let out := afterWrite m' (r, called c w) in
             (snd (fst out) <> None -> cache (snd out) = cache w)
             /\ (snd (fst out) = None ->
                 cache (snd out)
                 = if cacheEnabled m' && Z.ltb (cacheDuration m') 0
                      && Nat.ltb 0 (String.length (cacheName m'))
                   then delete (cacheName m') (cache w)
                   else cache w)).
  { intros [a [e|]] c; cbn [afterWrite fst snd].
    - split; [reflexivity | discriminate].
    - split; [congruence|]. intros _. unfold checkAndRemoveCache.
      destruct (_ && _); reflexivity. }
  destruct (negb (unscoped m') && _); [apply Hafter|].
  destruct (negb (ContainsI _ _)); [|apply Hafter].
  cbn [afterWrite fst snd]. split; [reflexivity | discriminate].
Qed.

Lemma delete_and_cache_witness :
  let env := sampleEnv "" " WHERE id=?" in
  let m := mkModel None "user" "*" [] true (-1) "users" false in
  let w := mkWorld {[ "users" := (CachedResult [{[ "id" := VInt 7 ]}], 60) ]}
             [] in
  cache (snd (Delete m [] w)) = delete "users" (cache w).
Proof.
  intros env m w.
  apply (proj2 (delete_and_cache (env := env) m [] w)). reflexivity.
Defined.

End ModelMore.

(** * Rows into records, records into structs *)

Module MappingMore.
Import Mapping.

Lemma structsLoop_length convert elem rows : forall acc out,
  structsLoop convert elem rows acc = inr out ->
  length out = length acc + length rows.
Proof.
  induction rows as [|row rows IH]; intros acc out; cbn [structsLoop length].
  - intros [= <-]. lia.
  - destruct (Struct convert (Some row) (newItem elem)) as [[e|] item];
      [discriminate|].
    intros H. apply IH in H. rewrite length_app in H. cbn in H. lia.
Qed.

(** X21. [Result.Structs] is all or nothing.  When it returns an error
    the value behind the pointer is as it was, also when the failure
    comes after some rows were converted.  When it returns nil for a
    result that has rows, the pointer points to a slice of the same
    element type holding exactly one item for each row: the items the
    slice held before are replaced, not added to. *)
Theorem structs_all_or_nothing convert (r : Result) (pointer : Dest) :
  (forall e, fst (Structs convert r pointer) = Some e ->
     snd (Structs convert r pointer) = pointer)
  /\ (r <> [] -> fst (Structs convert r pointer) = None ->
      exists elem old array,
        pointer = DPtr (Some (DSlice elem old))
        /\ snd (Structs convert r pointer)
           = DPtr (Some (DSlice elem (Some array)))
        /\ length array = length r).
Proof.
  unfold Structs. split.
  - intros e.
    destruct (kindOfDest pointer); try reflexivity.
    destruct (elemOf pointer) as [| | | |elem items|]; try reflexivity.
    destruct r as [|row rest].
    + destruct (Nat.ltb 0 _); [destruct elem|]; reflexivity.
    + destruct (structsLoop _ _ _ _); [reflexivity | discriminate].
  - intros Hr.
    destruct pointer as [| | |[t|]|elem items|]; try discriminate.
    cbn [kindOfDest elemOf].
    destruct t as [| | | |elem items|]; try discriminate.
    destruct r as [|row rest]; [congruence|].
    destruct (structsLoop convert elem (row :: rest) []) as [e|array] eqn:Hloop;
      [discriminate|].
    intros _. exists elem, items, array. cbn [snd].
    split; [reflexivity|]. split; [reflexivity|].
    now apply structsLoop_length in Hloop.
Qed.

Lemma structs_all_or_nothing_witness :
  let convert := fun (row : DBRecord) (d : Dest) =>
                   (@None error, DReflect (DStruct (map_to_list row))) in
  let pointer := DPtr (Some (DSlice ElemStruct
                               (Some [DStruct []; DStruct []; DStruct []]))) in
  exists array,
    Structs convert [{[ "id" := VInt 7 ]}] pointer
    = (None, DPtr (Some (DSlice ElemStruct (Some array))))
    /\ length array = 1.
Proof.
  intros convert pointer.
  destruct (proj2 (structs_all_or_nothing convert [{[ "id" := VInt 7 ]}]
                     pointer) ltac:(discriminate) eq_refl)
    as (elem & old & array & Hp & Hs & Hl).
  injection Hp as <- _. exists array. split; [|exact Hl].
  rewrite <- Hs. reflexivity.
Defined.

End MappingMore.

Module CoreQueryMore.
Import CoreQuery.

Section Scan.
Variable convertFieldValueToLocalValue : GoValue -> string -> GoValue.

Lemma scanLoop_rows columns good : forall tail acc,
  scanLoop convertFieldValueToLocalValue columns (map inl good ++ tail) acc
  = scanLoop convertFieldValueToLocalValue columns tail
      (acc ++ map (makeRow convertFieldValueToLocalValue columns) good).
Proof.
  induction good as [|values good IH]; intros tail acc.
  - cbn. now rewrite List.app_nil_r.
  - cbn [map app scanLoop]. rewrite IH. now rewrite <- List.app_assoc.
Qed.

Lemma makeRow_dom_from (cvs : list ((string * string) * GoValue)) :
  forall acc : DBRecord,
  dom (fold_left
         (fun (row : DBRecord) cv =>
            let '((name, type), value) := cv in
            match value with
            | VNil => <[name := VNil]> row
            | _ => <[name := convertFieldValueToLocalValue value type]> row
            end) cvs acc)
  ≡@{gset string} dom acc ∪ list_to_set (map (fun cv => fst (fst cv)) cvs).
Proof.
  induction cvs as [|[[name type] value] cvs IH]; intros acc.
  - cbn [fold_left map list_to_set]. set_solver.
  - cbn [fold_left map list_to_set fst]. rewrite IH.
    destruct value; cbv beta iota; unfold DBRecord in *; rewrite dom_insert;
      set_solver.
Qed.

Lemma zip_names (columns : list (string * string)) : forall values : list GoValue,
  length values = length columns ->
  map (fun cv => fst (fst cv)) (zip columns values) = map fst columns.
Proof.
  induction columns as [|c columns IH]; intros [|v values] Hlen;
    try discriminate; [reflexivity|].
  cbn. f_equal. apply IH. now injection Hlen.
Qed.

(** A record has a key for every column, the columns that are NULL
    too. *)
Lemma makeRow_dom columns values :
  length values = length columns ->
  dom (makeRow convertFieldValueToLocalValue columns values)
  ≡@{gset string} list_to_set (map fst columns).
Proof.
  intros Hlen. unfold makeRow. rewrite makeRow_dom_from, zip_names by assumption.
  set_solver.
Qed.

End Scan.

(** X22. When [rows.Scan] returns an error for a row, the records
    scanned before that row are returned together with that error by
    [convertRowsToResult] and by [DoGetAll] on a given link, not an empty
    result, and the rows after it are not read; [One] turns this into no
    record and the error.  (Only the error of [rows.Scan] is looked at:
    [rows.Err()] is never read, so a cursor that [rows.Next] ends early
    is a cursor with fewer rows.) *)
Theorem scan_error_keeps_rows Slave DoQuery convert (rows : Rows)
    columns good e rest link sql args :
  columnTypes rows = inl columns ->
  pending rows = map inl good ++ inr e :: rest ->
  DoQuery (Some link) sql args = (Some rows, None) ->
  convertRowsToResult convert rows = (map (makeRow convert columns) good, Some e)
  /\ DoGetAll Slave DoQuery convert (Some link) sql args
     = (map (makeRow convert columns) good, Some e)
  /\ (Slave = inl (Some link) ->
      One Slave DoQuery convert sql args = (None, Some e)).
Proof.
  intros Hc Hp Hq.
  assert (Hconv : convertRowsToResult convert rows
                  = (map (makeRow convert columns) good, Some e)).
  { unfold convertRowsToResult. rewrite Hc, Hp.
    destruct good as [|values good].
    - reflexivity.
    - change (map inl (values :: good) ++ inr e :: rest)
        with (inl values :: (map inl good ++ inr e :: rest)) at 1.
      cbv iota. rewrite scanLoop_rows. reflexivity. }
  split; [exact Hconv|]. split.
  - unfold DoGetAll. now rewrite Hq.
  - intros Hs. unfold One, All, DoGetAll. rewrite Hs, Hq, Hconv.
    destruct (map (makeRow convert columns) good); reflexivity.
Qed.

Lemma scan_error_keeps_rows_witness :
  let scanError :=
    ErrDriver "sql: Scan error on column index 0: unsupported Scan" in
  let rows := mkRows (inl [("id", "INT")])
                [inl [VInt 1]; inr scanError; inl [VInt 3]] in
  DoGetAll (inl (Some 1)) (fun _ _ _ => (Some rows, None)) (fun v _ => v)
    (Some 1) "SELECT id FROM user" []
  = ([{[ "id" := VInt 1 ]}], Some scanError).
Proof.
  intros scanError rows.
  apply (scan_error_keeps_rows (inl (Some 1))
           (fun _ _ _ => (Some rows, None)) (fun v _ => v) rows
           [("id", "INT")] [[VInt 1]] scanError [inl [VInt 3]]
           1 "SELECT id FROM user" []); reflexivity.
Defined.

(** X23. When every row is read, [convertRowsToResult] returns one
    record for each row, in order, without error, and every record has
    exactly the column names as its keys, the columns that are NULL
    included. *)
Theorem rows_to_records convert (rows : Rows) columns (valuess : list (list GoValue)) :
  columnTypes rows = inl columns ->
  pending rows = map inl valuess ->
  Forall (fun values => length values = length columns) valuess ->
  convertRowsToResult convert rows
  = (map (makeRow convert columns) valuess, None)
  /\ Forall (fun record : DBRecord =>
               dom record ≡@{gset string} list_to_set (map fst columns))
       (fst (convertRowsToResult convert rows)).
Proof.
  intros Hc Hp Hlen.
  assert (Hconv : convertRowsToResult convert rows
                  = (map (makeRow convert columns) valuess, None)).
  { unfold convertRowsToResult. rewrite Hc, Hp.
    destruct valuess as [|values valuess]; [reflexivity|].
    cbv iota.
    rewrite <- (List.app_nil_r (map inl (values :: valuess))).
    rewrite scanLoop_rows. reflexivity. }
  split; [exact Hconv|]. rewrite Hconv. cbn [fst].
  apply List.Forall_map. eapply Forall_impl; [exact Hlen|].
  intros values Hv. now apply makeRow_dom.
Qed.

Lemma rows_to_records_witness :
  let rows := mkRows (inl [("id", "INT"); ("name", "VARCHAR")])
                [inl [VInt 1; VNil]; inl [VInt 2; VStr "b"]] in
  convertRowsToResult (fun v _ => v) rows
  = ([{[ "id" := VInt 1; "name" := VNil ]};
      {[ "id" := VInt 2; "name" := VStr "b" ]}], None).
Proof.
  intros rows.
  destruct (rows_to_records (fun v _ => v) rows
              [("id", "INT"); ("name", "VARCHAR")]
              [[VInt 1; VNil]; [VInt 2; VStr "b"]] eq_refl eq_refl
              ltac:(repeat constructor)) as [H _].
  rewrite H. reflexivity.
Defined.

End CoreQueryMore.

(** * Chunks of a result *)

Module ResultMore.
Import Quote ResultOps RouterFacts.
Local Open Scope Z_scope.

Lemma slice_nat (r : Result) (a b : nat) :
  (a <= b <= length r)%nat ->
  slice r (Z.of_nat a) (Z.of_nat b) = Ret (take (b - a) (drop a r)).
Proof.
  intros H. unfold slice.
  replace (Z.leb 0 (Z.of_nat a) && Z.leb (Z.of_nat a) (Z.of_nat b)
           && Z.leb (Z.of_nat b) (Z.of_nat (length r))) with true
    by (symmetry; rewrite !andb_true_iff, !Z.leb_le; lia).
  f_equal. f_equal; [f_equal; lia | f_equal; lia].
Qed.

Lemma mul_nat (a b : nat) :
  Z.of_nat (a * b) < 2 ^ 63 ->
  GoInt.mul (Z.of_nat a) (Z.of_nat b) = Z.of_nat (a * b).
Proof.
  intros H. unfold GoInt.mul. rewrite wrap_id; [lia|].
  unfold GoInt.inRange. lia.
Qed.

Lemma succ_nat (k : nat) :
  Z.of_nat k < 2 ^ 62 -> GoInt.add (Z.of_nat k) 1 = Z.of_nat (S k).
Proof.
  intros H. unfold GoInt.add. rewrite wrap_id; [lia|].
  unfold GoInt.inRange. lia.
Qed.

(** The loop, started at chunk [k] with [chunks] chunks to go, the last
    of which is the only one that may reach past the end. *)
Lemma chunkLoop_spec (r : Result) (s : nat) :
  (1 <= s)%nat -> Z.of_nat s < 2 ^ 63 -> Z.of_nat (length r) < 2 ^ 53 ->
  forall chunks k n,
    (length r <= (k + chunks) * s)%nat ->
    (chunks <> 0%nat -> ((k + chunks - 1) * s < length r)%nat) ->
    exists pieces,
      chunkLoop r (Z.of_nat s) chunks (Z.of_nat k) n = Ret (n ++ pieces)
      /\ length pieces = chunks
      /\ concat pieces = drop (k * s) r
      /\ Forall (fun c => (1 <= length c <= s)%nat) pieces
      /\ (forall j c, pieces !! j = Some c -> (S j < chunks)%nat ->
            length c = s).
Proof.
  intros Hs Hsize Hlen.
  induction chunks as [|c IH]; intros k n Hcover Hstart.
  - exists []. cbn [chunkLoop]. rewrite List.app_nil_r.
    split; [reflexivity|]. split; [reflexivity|].
    split; [|split; [constructor | intros j x Hx; inversion Hx]].
    cbn [concat]. symmetry. apply drop_ge. lia.
  - assert (Hk : (k * s < length r)%nat).
    { specialize (Hstart ltac:(lia)). nia. }
    assert (Hkk : (k < length r)%nat) by nia.
    assert (Hnext : Z.of_nat (S k * s) < 2 ^ 63).
    { destruct k as [|k]; [lia|].
      assert ((S (S k) * s <= 2 * length r)%nat) by nia. lia. }
    cbn [chunkLoop].
    rewrite succ_nat by lia. rewrite !mul_nat by (try assumption; lia).
    replace (if Z.ltb (Z.of_nat (length r)) (Z.of_nat (S k * s))
             then Z.of_nat (length r) else Z.of_nat (S k * s))
      with (Z.of_nat (Nat.min (S k * s) (length r)))
      by (destruct (Z.ltb_spec (Z.of_nat (length r)) (Z.of_nat (S k * s)));
          lia).
    rewrite slice_nat by lia.
    set (piece := take (Nat.min (S k * s) (length r) - k * s) (drop (k * s) r)).
    destruct (IH (S k) (n ++ [piece])) as (pieces & Hrun & Hcount & Hcat & Hall & Hfull).
    { lia. }
    { intros Hc. specialize (Hstart ltac:(lia)). 
      replace (S k + c - 1)%nat with (k + S c - 1)%nat by lia. exact Hstart. }
    exists (piece :: pieces).
    split; [rewrite <- List.app_assoc in Hrun; exact Hrun|].
    split; [cbn; now rewrite Hcount|].
    assert (Hpiece : (S k * s <= length r)%nat /\ length piece = s
                     /\ piece ++ drop (S k * s) r = drop (k * s) r
                     \/ (length r < S k * s)%nat
                        /\ length piece = (length r - k * s)%nat
                        /\ piece ++ drop (S k * s) r = drop (k * s) r).
    { destruct (Nat.le_gt_cases (S k * s) (length r)) as [Hle|Hgt].
      - left. split; [assumption|]. subst piece.
        replace (Nat.min (S k * s) (length r) - k * s)%nat with s by lia.
        split; [rewrite length_take, length_drop; lia|].
        replace (S k * s)%nat with (k * s + s)%nat by lia.
        rewrite <- drop_drop. apply take_drop.
      - right. split; [assumption|]. subst piece.
        replace (Nat.min (S k * s) (length r) - k * s)%nat
          with (length r - k * s)%nat by lia.
        rewrite take_ge by (rewrite length_drop; lia).
        split; [apply length_drop|].
        rewrite (drop_ge r (S k * s)) by lia. apply List.app_nil_r. }
    split; [cbn [concat]; rewrite Hcat; now destruct Hpiece as [(_ & _ & H)|(_ & _ & H)]|].
    split.
    + constructor; [|assumption].
      destruct Hpiece as [(_ & H & _)|(? & H & _)]; rewrite H; lia.
    + intros [|j] x; cbn.
      * intros [= <-] Hj.
        destruct Hpiece as [(_ & H & _)|(Hgt & _ & _)]; [exact H|].
        exfalso. specialize (Hstart ltac:(lia)). nia.
      * intros Hx Hj. apply (Hfull j x Hx). lia.
Qed.

(** X24. [Result.Chunk] cuts the result into consecutive pieces: for a
    size of at least 1 no slice expression is out of range, the chunks
    put end to end give the result back, no chunk is empty or longer
    than the size, every chunk but the last holds exactly [size]
    records, and there are as many chunks as the length divided by the
    size, rounded up. *)
Theorem chunk_partition (r : Result) (size : Z) :
  1 <= size < 2 ^ 63 -> Z.of_nat (length r) < 2 ^ 53 ->
  exists chunks,
    Chunk r size = Ret chunks
    /\ concat chunks = r
    /\ Forall (fun c => 1 <= Z.of_nat (length c) <= size) chunks
    /\ (forall j c, chunks !! j = Some c -> (S j < length chunks)%nat ->
          Z.of_nat (length c) = size)
    /\ Z.of_nat (length chunks) = chunkCount (Z.of_nat (length r)) size.
Proof.
  intros Hsize Hlen. unfold Chunk.
  replace (Z.ltb size 1) with false by (symmetry; apply Z.ltb_ge; lia).
  assert (Hs : exists s : nat, size = Z.of_nat s)
    by (exists (Z.to_nat size); lia).
  destruct Hs as [s ->].
  set (q := chunkCount (Z.of_nat (length r)) (Z.of_nat s)).
  assert (Hq : 0 <= q /\ Z.of_nat (length r) <= q * Z.of_nat s
               /\ (q <> 0 -> (q - 1) * Z.of_nat s < Z.of_nat (length r))).
  { subst q. unfold chunkCount.
    pose proof (Z.mul_div_le (Z.of_nat (length r) + Z.of_nat s - 1)
                  (Z.of_nat s) ltac:(lia)).
    pose proof (Z.mul_succ_div_gt (Z.of_nat (length r) + Z.of_nat s - 1)
                  (Z.of_nat s) ltac:(lia)).
    assert (0 <= (Z.of_nat (length r) + Z.of_nat s - 1) / Z.of_nat s)
      by (apply Z.div_pos; lia).
    split; [assumption|]. split; [nia|]. intros _. nia. }
  destruct Hq as (Hq0 & Hcover & Hstart).
  destruct (chunkLoop_spec r s ltac:(lia) ltac:(lia) Hlen (Z.to_nat q)
              0%nat [])
    as (pieces & Hrun & Hcount & Hcat & Hall & Hfull).
  { cbn [Nat.add]. nia. }
  { intros Hne. cbn [Nat.add].
    assert (Hq1 : q <> 0) by lia. specialize (Hstart Hq1). nia. }
  exists pieces. change (Z.of_nat 0) with 0 in Hrun.
  split; [exact Hrun|]. split; [rewrite Hcat; apply drop_0|].
  split; [|split].
  - eapply Forall_impl; [exact Hall|]. intros c Hc. cbv beta in Hc. lia.
  - intros j c Hc Hj. rewrite (Hfull j c Hc) by lia. reflexivity.
  - lia.
Qed.

Lemma chunk_partition_witness :
  let r : Result := [{[ "id" := VInt 1 ]}; {[ "id" := VInt 2 ]};
                     {[ "id" := VInt 3 ]}] in
  exists chunks,
    Chunk r 2 = Ret chunks
    /\ concat chunks = r
    /\ Forall (fun c => 1 <= Z.of_nat (length c) <= 2) chunks
    /\ (forall j c, chunks !! j = Some c -> (S j < length chunks)%nat ->
          Z.of_nat (length c) = 2)
    /\ Z.of_nat (length chunks) = chunkCount (Z.of_nat (length r)) 2.
Proof.
  intros r. apply (chunk_partition r 2); [lia | vm_compute; reflexivity].
Defined.

End ResultMore.

(** * Conditions given as pairs and as a primary key *)

Module WhereMore.
Import Str StrFacts Binder BinderSpec BinderFacts Where WhereFacts.
Import Quote Compose ComposeSpec PrimaryKey ModelFacts.

Lemma pairsLoop_spec `{db : DB} gconvString (kvs : list (GoValue * GoValue)) :
  CountHolder (fst GetChars) = 0 -> CountHolder (snd GetChars) = 0 ->
  Forall (fun kv => CountHolder (gconvString (fst kv)) = 0
                    /\ CountHolder (rawText (snd kv)) = 0) kvs ->
  forall buffer acc,
    snd (pairsLoop gconvString (pairList kvs) buffer acc)
    = acc ++ List.filter (fun v => negb (isRaw v)) (map snd kvs)
    /\ CountHolder (fst (pairsLoop gconvString (pairList kvs) buffer acc))
       = CountHolder buffer + length kvs.
Proof.
  intros Hl Hr. induction 1 as [|[key value] kvs [Hkey Hraw] _ IH];
    intros buffer acc.
  - cbn. rewrite List.app_nil_r. split; [reflexivity | lia].
  - change (pairList ((key, value) :: kvs))
      with (key :: value :: pairList kvs).
    cbn [pairsLoop fst snd map List.filter length] in *.
    set (buffer1 := if Nat.ltb 0 (String.length buffer) then _ else _).
    assert (Hb : CountHolder buffer1 = CountHolder buffer + 1).
    { subst buffer1. unfold QuoteWord.
      destruct (Nat.ltb 0 (String.length buffer));
        rewrite !CountHolder_app, doQuoteWord_no_holder by assumption;
        cbn; lia. }
    destruct value; cbn [isRaw negb rawText] in *;
      match goal with
      | |- context [pairsLoop _ _ (buffer1 +:+ ?s) _] =>
          destruct (IH (buffer1 +:+ s) acc) as [-> ->];
          rewrite CountHolder_app; split; [reflexivity | lia]
      | |- context [pairsLoop _ _ buffer1 (acc ++ [?v])] =>
          destruct (IH buffer1 (acc ++ [v])) as [-> ->];
          rewrite <- List.app_assoc; split; [reflexivity | lia]
      end.
Qed.

Lemma length_pairList kvs : length (pairList kvs) = 2 * length kvs.
Proof.
  induction kvs as [|kv kvs IH]; [reflexivity|].
  change (pairList (kv :: kvs)) with (fst kv :: snd kv :: pairList kvs).
  cbn [length]. lia.
Qed.

Lemma filter_split {A} (f : A -> bool) (l : list A) :
  length (List.filter (fun x => negb (f x)) l) + length (List.filter f l)
  = length l.
Proof.
  induction l as [|x l IH]; [reflexivity|].
  cbn [List.filter]. destruct (f x); cbn [negb length]; lia.
Qed.

(** X11. A condition given as the slice [key1, value1, key2, value2, ...]
    writes one placeholder for every pair but binds only the values that
    are not [Raw], in order; the text of a [Raw] value is written behind
    the placeholder of its pair.  So the condition holds one placeholder
    more than it binds arguments for every [Raw] value in the slice
    (keys and raw texts holding no [?] of their own). *)
Theorem pair_list_binding `{db : DB} gconvString
    (kvs : list (GoValue * GoValue)) :
  CountHolder (fst GetChars) = 0 -> CountHolder (snd GetChars) = 0 ->
  Forall (fun kv => CountHolder (gconvString (fst kv)) = 0
                    /\ CountHolder (rawText (snd kv)) = 0) kvs ->
  let out := formatWhereInterfaces gconvString (pairList kvs) "" [] in
  snd out = List.filter (fun v => negb (isRaw v)) (map snd kvs)
  /\ CountHolder (fst out) = length kvs
  /\ CountHolder (fst out)
     = length (snd out) + length (List.filter isRaw (map snd kvs)).
Proof.
  intros Hl Hr Hall out.
  assert (Hout : snd out = List.filter (fun v => negb (isRaw v)) (map snd kvs)
                 /\ CountHolder (fst out) = length kvs).
  { subst out. unfold formatWhereInterfaces. rewrite length_pairList.
    destruct kvs as [|kv kvs]; [split; reflexivity|].
    replace (Nat.eqb (2 * length (kv :: kvs)) 0) with false
      by (symmetry; apply Nat.eqb_neq; cbn [length]; lia).
    replace ((2 * length (kv :: kvs)) mod 2)%nat with 0%nat
      by (symmetry; rewrite Nat.mul_comm; apply Nat.Div0.mod_mul).
    cbn [Nat.eqb negb].
    destruct (pairsLoop_spec gconvString (kv :: kvs) Hl Hr Hall "" [])
      as [H1 H2].
    split; [exact H1 | exact H2]. }
  destruct Hout as [Hargs Hcount].
  split; [exact Hargs|]. split; [exact Hcount|].
  rewrite Hcount, Hargs, filter_split. now rewrite length_map.
Qed.

Lemma pair_list_binding_witness :
  let out := formatWhereInterfaces (db := coreDB)
               (fun v => match v with VStr s => s | _ => "" end)
               [VStr "id"; VInt 1; VStr "t"; VRaw "now()"] "" [] in
  out = ("id=? AND t=?now()", [VInt 1])
  /\ CountHolder (fst out) = 2.
Proof.
  intros out. split; [reflexivity|].
  refine (proj1 (proj2 (pair_list_binding (db := coreDB)
            (fun v => match v with VStr s => s | _ => "" end)
            [(VStr "id", VInt 1); (VStr "t", VRaw "now()")] _ _ _)));
    try reflexivity.
  repeat constructor.
Defined.

(** X25. A condition on the primary key given as a non-empty list of
    values: [GetPrimaryKeyCondition] wraps the list into a map from the
    key to the list, and [formatWhere] composes that map to the quoted
    key followed by [ IN(] and one placeholder per value, bound to the
    values in order. *)
Theorem primary_key_in_list `{db : DB} IsEmpty gconvString Interfaces
    rangeMap iterate (primary : string) (elems : list GoValue) omitEmpty :
  primary <> "" -> CountHolder primary = 0 ->
  CountHolder (fst GetChars) = 0 -> CountHolder (snd GetChars) = 0 ->
  elems <> [] ->
  rangeMap (VMap [(primary, VSlice elems)]) = [(primary, VSlice elems)] ->
  omitEmpty && IsEmpty (VSlice elems) = false ->
  GetPrimaryKeyCondition primary [VSlice elems]
  = [VMap [(primary, VSlice elems)]]
  /\ formatWhere IsEmpty gconvString Interfaces rangeMap iterate
       (VMap [(primary, VSlice elems)]) [] omitEmpty
     = Ret (QuoteWord primary +:+ " IN(" +:+ holders (length elems) +:+ ")",
            elems).
Proof.
  intros Hne Hp Hl Hr Helems Hrange Hempty. split.
  - unfold GetPrimaryKeyCondition.
    replace (String.eqb primary "") with false
      by (symmetry; now apply String.eqb_neq).
    reflexivity.
  - assert (Hq : CountHolder (QuoteWord primary) = 0)
      by (now apply doQuoteWord_no_holder).
    unfold formatWhere. cbn [kindOf]. rewrite Hrange.
    cbn [fold_left fst snd].
    replace (regularFieldName primary && omitEmpty && IsEmpty (VSlice elems))
      with false
      by (rewrite <- andb_assoc, Hempty; now rewrite andb_false_r).
    unfold formatWhereKeyValue. cbn [kindOf String.length Nat.ltb Nat.leb].
    rewrite Hq. cbn [Nat.eqb app].
    rewrite app_nil_l.
    destruct (Nat.eqb (String.length (QuoteWord primary +:+ " IN(?)")) 0)
      eqn:Hlen.
    { apply length_zero_iff in Hlen.
      apply (f_equal CountHolder) in Hlen. rewrite CountHolder_app in Hlen.
      cbn in Hlen. lia. }
    unfold closeWhere. rewrite CountHolder_app, Hq. cbn [CountHolder Ascii.eqb].
    change (Nat.eqb (0 + CountHolder " IN(?)") 0) with false. cbv iota.
    f_equal.
    pose proof (handleLoop_bound
                  [(QuoteWord primary +:+ " IN(", VSlice elems)] [] ")" []
                  (List.Forall_nil _)) as H.
    cbn [length expanded template map snd Nat.add] in H.
    change (inserted []) with 0 in H. rewrite !app_nil_l in H.
    unfold handleArguments. cbn [length].
    replace (QuoteWord primary +:+ " IN(?)")
      with ((QuoteWord primary +:+ " IN(") +:+ "?" +:+ ")")
      by (now rewrite app_assoc).
    rewrite H.
    + unfold boundAll, arity, bound. cbn. rewrite List.app_nil_r.
      now rewrite app_assoc.
    + constructor; [|constructor]. cbn [fst snd]. split.
      * rewrite CountHolder_app, Hq. reflexivity.
      * unfold arity, bound. cbn. now destruct elems.
    + reflexivity.
Qed.

Lemma primary_key_in_list_witness :
  GetPrimaryKeyCondition "id" [VSlice [VInt 1; VInt 2; VInt 3]]
  = [VMap [("id", VSlice [VInt 1; VInt 2; VInt 3])]]
  /\ formatWhere (db := {| GetChars := ("[", "]") |}) (fun _ => false)
       (fun v => match v with VStr s => s | _ => "" end) (fun _ => [])
       (fun v => match v with VMap entries => entries | _ => [] end)
       (fun _ => None)
       (VMap [("id", VSlice [VInt 1; VInt 2; VInt 3])]) [] true
     = Ret ("[id] IN(?,?,?)", [VInt 1; VInt 2; VInt 3]).
Proof.
  apply (primary_key_in_list (db := {| GetChars := ("[", "]") |})
           (fun _ => false)
           (fun v => match v with VStr s => s | _ => "" end) (fun _ => [])
           (fun v => match v with VMap entries => entries | _ => [] end)
           (fun _ => None) "id" [VInt 1; VInt 2; VInt 3] true);
    try reflexivity; discriminate.
Defined.

End WhereMore.

(** * A result keyed by a column *)

Module ResultMapsMore.
Import Quote ResultMaps.

Section Keys.
Variable valueString : GoValue -> string.
Variable key : string.

Lemma groupOf_snoc (r : Result) (item : DBRecord) k :
  groupOf valueString (r ++ [item]) key k
  = groupOf valueString r key k
    ++ (if decide (valueString <$> item !! key = Some k) then [item] else []).
Proof. unfold groupOf, Result. now rewrite filter_app. Qed.

Lemma RecordKeyStr_last (r : Result) k :
  RecordKeyStr valueString r key !! k = last (groupOf valueString r key k).
Proof.
  induction r as [|item r IH] using rev_ind; [reflexivity|].
  unfold RecordKeyStr in *. rewrite fold_left_app. cbn [fold_left].
  rewrite groupOf_snoc.
  destruct (item !! key) as [v|] eqn:Hv; cbn [fmap option_fmap option_map].
  - destruct (decide (Some (valueString v) = Some k)) as [[= <-]|Hne].
    + rewrite lookup_insert_eq. now rewrite last_snoc.
    + rewrite lookup_insert_ne by congruence.
      now rewrite List.app_nil_r.
  - destruct (decide (None = Some k)); [discriminate|].
    now rewrite List.app_nil_r.
Qed.

(** What the first loop of [MapKeyValue] has collected. *)
Lemma collect_spec (r : Result) :
  (forall k,
      fst (collect valueString r key) !! k
      = match groupOf valueString r key k with [] => None | _ => Some (groupOf valueString r key k) end)
  /\ (snd (collect valueString r key) = true
      <-> exists k, 1 < length (groupOf valueString r key k)).
Proof.
  induction r as [|item r [IHm IHb]] using rev_ind.
  - split; [reflexivity|]. split; [discriminate|].
    intros [k Hk]. cbn in Hk. lia.
  - unfold collect in *. rewrite fold_left_app. cbn [fold_left].
    set (st := fold_left _ r (∅, false)) in *.
    destruct (item !! key) as [v|] eqn:Hv.
    + set (s := valueString v).
      assert (Hitems : default [] (fst st !! s) = groupOf valueString r key s).
      { rewrite IHm. now destruct (groupOf valueString r key s). }
      cbn [fst snd]. rewrite Hitems. split.
      * intros k. rewrite groupOf_snoc, Hv. cbn [fmap option_fmap option_map].
        fold s.
        destruct (decide (Some s = Some k)) as [[= <-]|Hne].
        -- rewrite lookup_insert_eq. now destruct (groupOf valueString r key s).
        -- rewrite lookup_insert_ne by congruence.
           rewrite List.app_nil_r. apply IHm.
      * rewrite orb_true_iff, IHb, Nat.ltb_lt. split.
        -- intros [[k Hk]|Hlen].
           ++ exists k. rewrite groupOf_snoc, length_app. lia.
           ++ exists s. rewrite groupOf_snoc, Hv.
              cbn [fmap option_fmap option_map]. fold s.
              now rewrite decide_True by reflexivity.
        -- intros [k Hk]. rewrite groupOf_snoc, Hv in Hk.
           cbn [fmap option_fmap option_map] in Hk. fold s in Hk.
           destruct (decide (Some s = Some k)) as [[= <-]|Hne].
           ++ now right.
           ++ left. exists k. now rewrite List.app_nil_r in Hk.
    + split.
      * intros k. rewrite groupOf_snoc, Hv. cbn [fmap option_fmap option_map].
        destruct (decide (None = Some k)); [discriminate|].
        rewrite List.app_nil_r. apply IHm.
      * rewrite IHb. split; intros [k Hk]; exists k;
          rewrite groupOf_snoc, Hv in *;
          cbn [fmap option_fmap option_map] in *;
          destruct (decide (None = Some k)); try discriminate;
          now rewrite List.app_nil_r in *.
Qed.

Lemma forEach_fmap {A B} (f : A -> Outcome B) (g : A -> B) (l : list A) :
  Forall (fun x => f x = Ret (g x)) l -> forEach f l = Ret (g <$> l).
Proof.
  induction 1 as [|x l Hx _ IH]; [reflexivity|].
  cbn [forEach]. now rewrite Hx, IH.
Qed.

End Keys.

(** X26. [RecordKeyStr] keeps, for every value of the key column, the
    last record of the result that has it: records are looked up by the
    text of their key value, a later record replaces an earlier one with
    the same key value, and records without the key column are left
    out. *)
Theorem record_key_last_wins valueString (r : Result) (key k : string) :
  RecordKeyStr valueString r key !! k = last (groupOf valueString r key k).
Proof. apply RecordKeyStr_last. Qed.

(** X27. [MapKeyValue] groups the records by the text of their key
    column and never indexes an empty group.  A key value no record has
    is not in the map.  As soon as one key value is shared by two
    records, every entry of the map is a slice of records, the entries
    of the key values that occur once too; only when no key value
    repeats is every entry the record itself. *)
Theorem map_key_value_groups valueString (r : Result) (key : string) :
  let groupOf := groupOf valueString r key in
  exists m,
    MapKeyValue valueString r key = Ret m
    /\ (forall k, groupOf k = [] -> m !! k = None)
    /\ ((exists k0, 1 < length (groupOf k0)) ->
        forall k, groupOf k <> [] -> m !! k = Some (GroupMany (groupOf k)))
    /\ ((forall k0, length (groupOf k0) <= 1) ->
        forall k item, groupOf k = [item] -> m !! k = Some (GroupOne item)).
Proof.
  intros groupOf.
  destruct (collect_spec valueString key r) as [Hm Hb].
  unfold MapKeyValue.
  destruct (collect valueString r key) as [tempMap multi]. cbn [fst snd] in *.
  set (wrap := fun v : list DBRecord =>
                 if multi then GroupMany v
                 else match v with
                      | first :: _ => GroupOne first
                      | [] => GroupMany []
                      end).
  rewrite (forEach_fmap (group multi) (prod_map id wrap)).
  2:{ apply List.Forall_forall. intros [k v] Hin.
      apply list_elem_of_In, elem_of_map_to_list in Hin.
      rewrite Hm in Hin. unfold group, prod_map, wrap. cbn [fst snd id].
      destruct multi; [reflexivity|].
      destruct v; [|reflexivity].
      destruct (ResultMaps.groupOf valueString r key k); discriminate. }
  exists (wrap <$> tempMap).
  split; [now rewrite list_to_map_fmap, list_to_map_to_list|].
  split; [|split].
  - intros k Hk. rewrite lookup_fmap, Hm. fold (groupOf k). now rewrite Hk.
  - intros Hmulti k Hk. apply Hb in Hmulti. subst multi.
    rewrite lookup_fmap, Hm. fold (groupOf k).
    destruct (groupOf k); [congruence | reflexivity].
  - intros Hsingle k item Hk.
    assert (multi = false) as Hmulti.
    { destruct multi; [|reflexivity].
      destruct (proj1 Hb eq_refl) as [k0 Hk0].
      specialize (Hsingle k0). unfold groupOf in Hsingle. lia. }
    rewrite lookup_fmap, Hm. fold (groupOf k). rewrite Hk.
    unfold wrap. now rewrite Hmulti.
Qed.

End ResultMapsMore.

(** * Table names with a prefix *)

Module TableNameMore.
Import Str StrFacts Where WhereFacts Quote QuoteFacts QuoteMore ComposeFacts.
Import TableName ModelFacts.

(** X28. [doHandleTableName] never indexes out of range: for every table
    text, prefix and quote characters, [array2[0]] and [array3[index]]
    exist for every piece the loop visits, so the function returns a
    string. *)
Theorem table_name_returns (table prefix l r : string) :
  exists q, doHandleTableName table prefix l r = Ret q.
Proof.
  unfold doHandleTableName.
  destruct (forEach_ret (fun v1 => tableItem v1 prefix l r)
              (SplitAndTrim table ","))
    as (ys & -> & _); [|eexists; reflexivity].
  apply List.Forall_forall. intros v Hin.
  destruct (SplitAndTrim_elems table "," v Hin) as (Hne & x & ->).
  unfold tableItem.
  pose proof (SplitAndTrim_blank_nonempty x Hne) as Hs.
  destruct (SplitAndTrim (Trim x) " ") as [|first others]; [congruence|].
  cbv zeta. unfold Split.
  pose proof (splitChars_nonempty "." (chars (Trim (TrimMask first (l +:+ r)))))
    as Hsplit.
  destruct (splitChars _ _) as [|p ps]; [congruence|].
  cbn [map].
  match goal with
  | |- context [doQuoteString ?s l r] =>
      destruct (doQuoteString_ret s l r) as [q ->]
  end.
  eexists. reflexivity.
Qed.

(** What a byte of a word is and is not. *)
Lemma word_char_plain (c : ascii) :
  (isAlnum c || Ascii.eqb c "-" || Ascii.eqb c "_") = true ->
  (isAlnum c || Ascii.eqb c "_" || Ascii.eqb c "." || Ascii.eqb c "-") = true
  /\ isTrimByte c = false /\ Ascii.eqb c "." = false.
Proof.
  destruct c as [[] [] [] [] [] [] [] []]; vm_compute; intros H;
    try discriminate H; repeat split.
Qed.

Lemma word_chars (t : string) :
  quoteWordReg t = true ->
  t <> ""
  /\ Forall (fun c => (isAlnum c || Ascii.eqb c "-" || Ascii.eqb c "_") = true)
       (chars t).
Proof.
  unfold quoteWordReg. intros H. apply andb_prop in H as [Hlen Hall].
  split.
  - intros ->. discriminate Hlen.
  - apply List.Forall_forall. now apply forallb_forall.
Qed.

Lemma word_regular (t : string) :
  quoteWordReg t = true -> regularFieldName t = true.
Proof.
  intros Ht. destruct (word_chars t Ht) as [Hne Hall].
  unfold regularFieldName. apply andb_true_intro. split.
  - rewrite length_nonzero by assumption. reflexivity.
  - apply forallb_forall. intros c Hc.
    rewrite List.Forall_forall in Hall.
    now destruct (word_char_plain c (Hall c Hc)).
Qed.

Lemma word_app (a b : string) :
  quoteWordReg a = true -> quoteWordReg b = true ->
  quoteWordReg (a +:+ b) = true.
Proof.
  intros Ha Hb. destruct (word_chars a Ha) as [Hne Hall].
  unfold quoteWordReg in *.
  apply andb_prop in Ha as [_ Ha]. apply andb_prop in Hb as [_ Hb].
  apply andb_true_intro. split.
  - destruct a; [congruence | reflexivity].
  - rewrite chars_app, forallb_app. now rewrite Ha, Hb.
Qed.

Lemma ContainsAny_app (a b set : string) :
  ContainsAny (a +:+ b) set = ContainsAny a set || ContainsAny b set.
Proof. unfold ContainsAny. now rewrite chars_app, existsb_app. Qed.

Lemma word_single (t : string) :
  quoteWordReg t = true -> Split t "." = [t].
Proof.
  intros Ht. destruct (word_chars t Ht) as [_ Hall].
  unfold Split. rewrite splitChars_absent.
  - cbn [map]. now rewrite of_chars.
  - eapply Forall_impl; [exact Hall|].
    intros c Hc. now destruct (word_char_plain c Hc).
Qed.

Lemma word_TrimMask (t mask : string) :
  quoteWordReg t = true -> ContainsAny t mask = false ->
  TrimMask t mask = t.
Proof.
  intros Ht Hmask. destruct (word_chars t Ht) as [_ Hall].
  assert (Hcut : Forall (fun c => isTrimByte c
                                 || existsb (Ascii.eqb c) (chars mask) = false)
                   (chars t)).
  { apply List.Forall_forall. intros c Hc.
    rewrite List.Forall_forall in Hall.
    destruct (word_char_plain c (Hall c Hc)) as (_ & -> & _).
    cbn [orb]. unfold ContainsAny in Hmask.
    destruct (existsb (Ascii.eqb c) (chars mask)) eqn:He; [|reflexivity].
    rewrite <- Hmask. symmetry. apply existsb_exists. now exists c. }
  unfold TrimMask.
  rewrite (dropWhile_all_false _ _ Hcut).
  rewrite dropWhile_all_false by (now apply Forall_rev).
  rewrite rev_involutive. apply of_chars.
Qed.

Lemma withPrefix_cases (name prefix : string) :
  withPrefix name prefix = prefix +:+ name \/ withPrefix name prefix = name.
Proof. unfold withPrefix. destruct (_ || _); [now left | now right]. Qed.

Lemma length_app (a b : string) :
  String.length (a +:+ b) = String.length a + String.length b.
Proof.
  induction a as [|c a IH]; [reflexivity|].
  rewrite app_cons. cbn [String.length]. now rewrite IH.
Qed.

Lemma substring_app (a b : string) :
  String.substring 0 (String.length a) (a +:+ b) = a.
Proof.
  induction a as [|c a IH]; [now destruct b|].
  rewrite app_cons. cbn [String.length String.substring]. now rewrite IH.
Qed.

(** A name that was given the prefix is left alone. *)
Lemma withPrefix_prefixed (rest prefix : string) :
  rest <> "" -> withPrefix (prefix +:+ rest) prefix = prefix +:+ rest.
Proof.
  intros Hne. unfold withPrefix.
  rewrite length_app, substring_app, String.eqb_refl.
  replace (Nat.leb (String.length prefix + String.length rest)
             (String.length prefix)) with false; [reflexivity|].
  symmetry. apply Nat.leb_gt. destruct rest; [congruence|]. cbn. lia.
Qed.

Lemma withPrefix_twice (name prefix : string) :
  name <> "" ->
  withPrefix (withPrefix name prefix) prefix = withPrefix name prefix.
Proof.
  intros Hne. unfold withPrefix at 2 3.
  destruct (_ || _) eqn:Hc.
  - now apply withPrefix_prefixed.
  - unfold withPrefix. now rewrite Hc.
Qed.

(** X29. The table name of a plain word: the prefix is put in front of
    it unless the word is longer than the prefix and starts with it, and
    the outcome is wrapped in the quote characters; the name so made is
    left as it is by the prefix step of a second pass, so a prefix is
    added once.  (The word and the prefix are made of letters, digits,
    [-] and [_], and hold none of the quote characters.) *)
Theorem plain_table_name (t prefix l r : string) :
  quoteWordReg t = true ->
  prefix = "" \/ quoteWordReg prefix = true ->
  ContainsAny (prefix +:+ t) (l +:+ r) = false ->
  doHandleTableName t prefix l r = Ret (l +:+ withPrefix t prefix +:+ r)
  /\ withPrefix (withPrefix t prefix) prefix = withPrefix t prefix.
Proof.
  intros Ht Hprefix Hmask.
  destruct (word_chars t Ht) as [Hne _].
  split; [|now apply withPrefix_twice].
  rewrite ContainsAny_app in Hmask.
  apply orb_false_iff in Hmask as [Hpm Htm].
  assert (Hx : quoteWordReg (withPrefix t prefix) = true
               /\ ContainsAny (withPrefix t prefix) (l +:+ r) = false).
  { destruct (withPrefix_cases t prefix) as [-> | ->]; [|now split].
    split.
    - destruct Hprefix as [-> | Hp]; [exact Ht | now apply word_app].
    - rewrite ContainsAny_app. now rewrite Hpm, Htm. }
  destruct Hx as [Hxw Hxm].
  unfold doHandleTableName.
  rewrite (regular_single t ",") by (now apply word_regular || now left).
  cbn [forEach]. unfold tableItem.
  rewrite (regular_single t " ") by (now apply word_regular || now right).
  cbv zeta.
  rewrite (word_TrimMask t (l +:+ r)) by assumption.
  rewrite regular_Trim by now apply word_regular.
  rewrite word_single by assumption.
  cbn [map removelast List.last app].
  rewrite (word_TrimMask t (l +:+ r)) by assumption.
  cbn [Join].
  rewrite doQuoteString_regular by now apply word_regular.
  rewrite word_single by assumption.
  cbn [quoteEnds Join]. unfold doQuoteWord. rewrite Hxw, Hxm. reflexivity.
Qed.

Lemma plain_table_name_witness :
  doHandleTableName "user" "gf_" "[" "]" = Ret "[gf_user]"
  /\ doHandleTableName "gf_user" "gf_" "[" "]" = Ret "[gf_user]"
  /\ doHandleTableName "gf_" "gf_" "[" "]" = Ret "[gf_gf_]".
Proof.
  split; [|split].
  - apply (plain_table_name "user" "gf_" "[" "]"); try reflexivity.
    now right.
  - reflexivity.
  - reflexivity.
Defined.

End TableNameMore.

(** * The statement written out for logs *)

Module DebugMore.
Import Str StrFacts Where QuoteFacts BinderSpec Debug.

Section Format.
Variable gconvString : GoValue -> string.
Variable QuoteMeta : string -> string.
Variable timeFormat : Z -> string.

Lemma replaceTokens_none (n : nat) : forall l digits,
  length l <= n -> digits <> Some false ->
  replaceTokens gconvString QuoteMeta timeFormat l [] digits = l.
Proof.
  induction n as [|n IH]; intros l digits Hlen Hd.
  - destruct l; [reflexivity | cbn in Hlen; lia].
  - destruct l as [|c rest]; [reflexivity|].
    cbn [length] in Hlen.
    assert (Hrest : forall d, d <> Some false ->
              replaceTokens gconvString QuoteMeta timeFormat rest [] d = rest)
      by (intros d Hdd; apply IH; [lia | exact Hdd]).
    assert (Hplain :
              replaceTokens gconvString QuoteMeta timeFormat (c :: rest) []
                None = c :: rest).
    { cbn [replaceTokens].
      destruct (Ascii.eqb c "?"); [cbn [app]; now rewrite Hrest|].
      destruct rest as [|d rest1]; [reflexivity|].
      cbn [length] in Hlen.
      destruct (Ascii.eqb c "$" && isDigit d).
      { cbn [app]. rewrite IH by (lia || discriminate). reflexivity. }
      destruct rest1 as [|e rest2]; [now rewrite Hrest|].
      cbn [length] in Hlen.
      destruct ((_ || _) && isDigit e).
      { cbn [app]. rewrite IH by (lia || discriminate). reflexivity. }
      now rewrite Hrest. }
    destruct digits as [[|]|]; [|congruence|exact Hplain].
    destruct (isDigit c) eqn:Hc.
    + cbn [replaceTokens]. rewrite Hc. now rewrite Hrest.
    + rewrite <- Hplain at 2. cbn [replaceTokens]. rewrite Hc. reflexivity.
Qed.

Lemma replaceTokens_plain (seg : list ascii) : forall rest args,
  forallb
    (fun c => negb (Ascii.eqb c "?" || Ascii.eqb c "$" || Ascii.eqb c ":"
                    || Ascii.eqb c "@")) seg = true ->
  replaceTokens gconvString QuoteMeta timeFormat (seg ++ rest) args None
  = seg ++ replaceTokens gconvString QuoteMeta timeFormat rest args None.
Proof.
  induction seg as [|c seg IH]; intros rest args Hplain; [reflexivity|].
  cbn [forallb] in Hplain. apply andb_prop in Hplain as [Hc Hseg].
  apply negb_true_iff in Hc.
  apply orb_false_iff in Hc as [Hc Hat].
  apply orb_false_iff in Hc as [Hc Hcolon].
  apply orb_false_iff in Hc as [Hq Hdollar].
  rewrite <- List.app_comm_cons.
  cbn [replaceTokens]. rewrite Hq, Hdollar, Hcolon, Hat. cbn [andb orb].
  cbn [app]. rewrite <- (IH rest args Hseg).
  destruct (seg ++ rest) as [|d [|e rest2]]; reflexivity.
Qed.

Lemma replaceTokens_holder (rest : list ascii) arg args :
  replaceTokens gconvString QuoteMeta timeFormat ("?"%char :: rest)
    (arg :: args) None
  = chars (formatArg gconvString QuoteMeta timeFormat arg)
    ++ replaceTokens gconvString QuoteMeta timeFormat rest args None.
Proof. reflexivity. Qed.

End Format.

(** X30. What [FormatSqlWithArgs] writes.  Without arguments every text
    comes back unchanged, whatever placeholders it holds.  For a
    statement in which every argument is bound to one [?] and the text
    around the placeholders holds none of [?], [$], [:] and [@], every
    placeholder is replaced by the text of its argument, in order, and
    nothing else changes. *)
Theorem written_arguments gconvString QuoteMeta timeFormat :
  (forall sql,
      FormatSqlWithArgs gconvString QuoteMeta timeFormat sql [] = sql)
  /\
  (forall parts tail,
      Forall (fun p => plainText (fst p) = true) parts ->
      plainText tail = true ->
      FormatSqlWithArgs gconvString QuoteMeta timeFormat
        (template parts tail) (map snd parts)
      = filled gconvString QuoteMeta timeFormat parts tail).
Proof.
  split.
  - intros sql. unfold FormatSqlWithArgs.
    rewrite (replaceTokens_none _ _ _ (length (chars sql)))
      by (reflexivity || discriminate).
    apply of_chars.
  - intros parts tail Hparts Htail. unfold FormatSqlWithArgs.
    rewrite <- (of_chars (filled _ _ _ parts tail)). f_equal.
    induction Hparts as [|[seg arg] parts Hseg _ IH].
    + cbn [template map filled].
      rewrite <- (List.app_nil_r (chars tail)) at 1.
      rewrite replaceTokens_plain by exact Htail.
      cbn [replaceTokens]. apply List.app_nil_r.
    + cbn [template map filled snd fst] in *.
      rewrite !chars_app. rewrite replaceTokens_plain by exact Hseg.
      f_equal. change (chars "?") with ["?"%char]. cbn [app].
      rewrite replaceTokens_holder. f_equal. exact IH.
Qed.

Lemma written_arguments_witness :
  FormatSqlWithArgs (fun v => match v with VStr s => s | _ => "7" end)
    (fun s => s) (fun _ => "2021-01-02 03:04:05")
    "id=? and name=? and at>? and x is ?"
    [VInt 7; VStr "john"; VTime 0; VNil]
  = "id=7 and name='john' and at>'2021-01-02 03:04:05' and x is null".
Proof.
  apply (proj2 (written_arguments
                  (fun v => match v with VStr s => s | _ => "7" end)
                  (fun s => s) (fun _ => "2021-01-02 03:04:05"))
           [("id=", VInt 7); (" and name=", VStr "john");
            (" and at>", VTime 0); (" and x is ", VNil)] "").
  - repeat constructor.
  - reflexivity.
Defined.

End DebugMore.
